(** * tcpraw: a packet-oriented connection over raw TCP segments

    A shallow embedding of [tcp.go]: the flow table ([lockflow],
    [deleteflow]), the capture loop of [captureFlow], the public
    operations [ReadFrom], [WriteTo] and [Close] of [TCPConn], and the
    two ways to make a connection, [Dial] and [Listen].

    Go values are modelled as follows.
    - [uint32] and [uint16] fields are integers in [Z]; every arithmetic
      operation of the source on them is followed by its wrap-around.
    - A channel of type [chan struct{}] is a name (a natural number); the
      set of names that have been closed and the next unused name make up
      the channel heap.  [make] returns the next unused name.
    - A [*pcap.Handle] is a name as well; a nil pointer or a nil interface
      is [None].
    - [map[string]tcpFlow] is a finite map from strings to flow records.
      The map stores records by value, but the [ready] channel inside a
      record is a reference: closing it is visible through every copy.
    - The effects on the outside world (closing a handle, closing the
      socket, setting the TTL, writing a frame) are appended to a log. *)

From Stdlib Require Import ZArith List Bool Lia.
From Stdlib.Strings Require Import Byte.
From stdpp Require Import base option gmap strings list pretty.

Import ListNotations.

(** ** Machine integers *)

Definition uint32 (z : Z) : Z := (z mod 2 ^ 32)%Z.
Definition uint16 (z : Z) : Z := (z mod 2 ^ 16)%Z.

(** ** Errors, channels, handles *)

(** The [error] values the package returns: [io.EOF], its own
    [errOpNotImplemented], and errors handed up from the libraries. *)
Inductive error : Type :=
| io_EOF
| errOpNotImplemented
| errLibrary (msg : string).

Definition chan : Type := nat.
Definition Handle : Type := nat.

(** ** Packet layers (the fields [tcp.go] reads or writes) *)

Module Ethernet.
Record t : Type := mk { EthernetType : Z; SrcMAC : list byte; DstMAC : list byte }.
End Ethernet.

Module Loopback.
Record t : Type := mk { Family : Z }.
End Loopback.

Module IPv4.
Record t : Type := mk {
  SrcIP : list byte; DstIP : list byte;
  Protocol : Z; Version : Z; Id : Z; Flags : Z; TTL : Z }.
End IPv4.

Module IPv6.
Record t : Type := mk {
  Version : Z; NextHeader : Z;
  SrcIP : list byte; DstIP : list byte; HopLimit : Z }.
End IPv6.

Module TCP.
Record t : Type := mk {
  SrcPort : Z; DstPort : Z;
  Seq : Z; Ack : Z;
  FIN : bool; SYN : bool; RST : bool; PSH : bool; ACK : bool;
  Window : Z;
  Payload : list byte }.
End TCP.

(** [layers.IPv4DontFragment] is [1 << 1]. *)
Definition IPv4DontFragment : Z := 2.

(** A [gopacket.SerializableLayer] stored in a flow: the link layer is an
    [*layers.Ethernet] or a [*layers.Loopback], the network layer an
    [*layers.IPv4] or an [*layers.IPv6]. *)
Inductive LinkLayer : Type :=
| LinkEthernet (l : Ethernet.t)
| LinkLoopback (l : Loopback.t).

Inductive NetworkLayer : Type :=
| NetIPv4 (n : IPv4.t)
| NetIPv6 (n : IPv6.t).

(** A decoded packet as the capture loop sees it: [packet.Layer ty] is
    the layer of type [ty] when the packet has one.  The BPF filter of
    every handle starts with [tcp], so the transport layer is a TCP
    layer. *)
Record Packet : Type := mkPacket {
  layerEthernet : option Ethernet.t;
  layerLoopback : option Loopback.t;
  layerIPv4 : option IPv4.t;
  layerIPv6 : option IPv6.t;
  TransportLayer : TCP.t }.

(** [net.TCPAddr] *)
Record TCPAddr : Type := mkTCPAddr { IP : list byte; Port : Z }.

(** The frame handed to [WritePacketData]: the layers given to
    [gopacket.SerializeLayers], outermost first. *)
Record Frame : Type := mkFrame {
  frameLink : LinkLayer;
  frameNetwork : NetworkLayer;
  frameTCP : TCP.t;
  framePayload : list byte }.

(** ** The structures of [tcp.go] *)

Record message : Type := mkMessage { bts : list byte; addr : TCPAddr }.

Record tcpFlow : Type := mkFlow {
  handle : option Handle;
  ready : chan;
  seq : Z;
  ack : Z;
  linkLayer : option LinkLayer;
  networkLayer : option NetworkLayer }.

(** [conn.socket], an [io.Closer]: whether its dynamic type is
    [*net.TCPConn] (the dialed socket; a listener otherwise), whether its
    local address is an IPv4 address ([To4() != nil]), and what its
    [Close] returns. *)
Record Socket : Type := mkSocket {
  isTCPConn : bool;
  localIs4 : bool;
  closeResult : option error }.

Record TCPConn : Type := mkConn {
  server : bool;
  die : chan;
  dieOnce : bool;              (* sync.Once: its function has run *)
  socket : Socket;
  localAddr : TCPAddr;
  handles : list Handle;
  flows : gmap string tcpFlow }.

(** What the program does to the outside world, in order. *)
Inductive event : Type :=
| EvCloseChan (c : chan)
| EvHandleClose (h : Handle)
| EvSetTTL (ttl : Z)
| EvSetHopLimit (ttl : Z)
| EvSocketClose
| EvWritePacketData (h : Handle) (f : Frame) (err : option error).

(** The connection together with the run-time state around it.
    [chMessage] is unbuffered: [sendq] holds the messages of the capture
    goroutines that are parked in their send, oldest first. *)
Record World : Type := mkWorld {
  conn : TCPConn;
  closed : gset chan;
  nextChan : chan;
  sendq : list message;
  trace : list event }.

Definition set_flows (m : gmap string tcpFlow) (w : World) : World :=
  let c := conn w in
  mkWorld (mkConn (server c) (die c) (dieOnce c) (socket c) (localAddr c) (handles c) m)
          (closed w) (nextChan w) (sendq w) (trace w).

Definition set_dieOnce (w : World) : World :=
  let c := conn w in
  mkWorld (mkConn (server c) (die c) true (socket c) (localAddr c) (handles c) (flows c))
          (closed w) (nextChan w) (sendq w) (trace w).

Definition set_sendq (q : list message) (w : World) : World :=
  mkWorld (conn w) (closed w) (nextChan w) q (trace w).

Definition emit (e : event) (w : World) : World :=
  mkWorld (conn w) (closed w) (nextChan w) (sendq w) (trace w ++ [e]).

(** [make(chan struct{})] *)
Definition make_chan (w : World) : chan * World :=
  (nextChan w, mkWorld (conn w) (closed w) (S (nextChan w)) (sendq w) (trace w)).

(** [close(c)] *)
Definition close_chan (c : chan) (w : World) : World :=
  mkWorld (conn w) ({[c]} ∪ closed w) (nextChan w) (sendq w) (trace w ++ [EvCloseChan c]).

(** Whether a receive from [c] can proceed, for a channel nothing is ever
    sent on: it can when [c] has been closed. *)
Definition is_closed (c : chan) (w : World) : bool := bool_decide (c ∈ closed w).

(** The state [Dial] and [Listen] leave behind: [die] is the first
    channel made, the flow table is empty.  The log starts here: what
    [Dial] and [Listen] did to the sockets before is not in it. *)
Definition new_conn (srv : bool) (sock : Socket) (laddr : TCPAddr) (hs : list Handle) : World :=
  mkWorld (mkConn srv 0 false sock laddr hs ∅) ∅ 1 [] [].

(** ** The functions of package [net] the code calls

    [addr.String()] is the key of the flow table, and
    [net.ResolveTCPAddr("tcp", s)] turns it back into an address in
    [WriteTo], or fails with an error.  Both belong to the Go library;
    the development is parametric in them. *)
Class Net : Type := mkNet {
  TCPAddr_String : TCPAddr -> string;
  ResolveTCPAddr : string -> TCPAddr + error }.

(** How a call ends: it returns, it stays blocked, or the goroutine
    panics. *)
Inductive outcome (A : Type) : Type :=
| Returns (a : A)
| Blocks
| Panics.
Arguments Returns {A} a.
Arguments Blocks {A}.
Arguments Panics {A}.

(** Where the body of the capture loop leaves its goroutine: it goes on
    with the next packet, it returns, or it is parked in the [select] of
    lines 163-167 with its message waiting on [chMessage]. *)
Inductive loop_ctl : Type := Continue | Return | Park.

Section Engine.
Context `{net : Net}.

(** *** The flow table *)

Definition deleteflow (a : TCPAddr) (w : World) : World :=
  let key := TCPAddr_String a in
  set_flows (delete key (flows (conn w))) w.

(** Lines 69-72 of [lockflow]: the entry under [key], or on the first
    visit the zero value with a newly made [ready]. *)
Definition visit (key : string) (w : World) : tcpFlow * World :=
  match flows (conn w) !! key with
  | Some e => (e, w)
  | None =>
      let '(c, w1) := make_chan w in
      (mkFlow None c 0 0 None None, w1)
  end.

(** [lockflow addr f]: the closure [f] gets the entry, may change it, may
    touch the channels, and may hand a value out through a captured
    variable; the entry is then written back. *)
Definition lockflow {A : Type} (a : TCPAddr)
    (f : tcpFlow -> World -> A * tcpFlow * World) (w : World) : A * World :=
  let key := TCPAddr_String a in
  let '(e, w1) := visit key w in
  let '(r, e', w2) := f e w1 in
  (r, set_flows (<[key := e']> (flows (conn w2))) w2).

(** *** The closures passed to [lockflow] *)

(** The link layer template of [captureFlow]: an Ethernet header with
    the MAC addresses swapped, or a copy of the loopback header. *)
Definition link_template (packet : Packet) : option LinkLayer :=
  match layerEthernet packet with
  | Some ethLayer =>
      Some (LinkEthernet (Ethernet.mk (Ethernet.EthernetType ethLayer)
                                      (Ethernet.DstMAC ethLayer)
                                      (Ethernet.SrcMAC ethLayer)))
  | None =>
      match layerLoopback packet with
      | Some loopLayer => Some (LinkLoopback (Loopback.mk (Loopback.Family loopLayer)))
      | None => None
      end
  end.

(** The network layer template: addresses swapped, TTL or hop limit 64. *)
Definition network_template (packet : Packet) : option NetworkLayer :=
  match layerIPv4 packet with
  | Some network =>
      Some (NetIPv4 (IPv4.mk (IPv4.DstIP network) (IPv4.SrcIP network)
                             (IPv4.Protocol network) (IPv4.Version network)
                             (IPv4.Id network) IPv4DontFragment 64))
  | None =>
      match layerIPv6 packet with
      | Some network =>
          Some (NetIPv6 (IPv6.mk (IPv6.Version network) (IPv6.NextHeader network)
                                 (IPv6.DstIP network) (IPv6.SrcIP network) 64))
      | None => None
      end
  end.

(** The closure of lines 108-156: follow the sequence number, and while
    [ready] is not closed fill in the entry and close it. *)
Definition follow (h : Handle) (packet : Packet) (e : tcpFlow) (w : World)
    : unit * tcpFlow * World :=
  let transport := TransportLayer packet in
  let e := mkFlow (handle e) (ready e) (TCP.Ack transport) (ack e) (linkLayer e) (networkLayer e) in
  if is_closed (ready e) w then (tt, e, w)
  else
    let e := mkFlow (Some h) (ready e) (seq e) (TCP.Seq transport) (linkLayer e) (networkLayer e) in
    match link_template packet with
    | None => (tt, e, w)
    | Some l =>
        let e := mkFlow (handle e) (ready e) (seq e) (ack e) (Some l) (networkLayer e) in
        match network_template packet with
        | None => (tt, e, w)
        | Some n =>
            let e := mkFlow (handle e) (ready e) (seq e) (ack e) (linkLayer e) (Some n) in
            (tt, e, close_chan (ready e) w)
        end
    end.

(** [e.ack++] and [e.ack += uint32(n)] *)
Definition ack_add (n : Z) (e : tcpFlow) (w : World) : unit * tcpFlow * World :=
  (tt, mkFlow (handle e) (ready e) (seq e) (uint32 (ack e + uint32 n)) (linkLayer e) (networkLayer e), w).

(** [e.seq += uint32(n)] *)
Definition seq_add (n : Z) (e : tcpFlow) (w : World) : unit * tcpFlow * World :=
  (tt, mkFlow (handle e) (ready e) (uint32 (seq e + uint32 n)) (ack e) (linkLayer e) (networkLayer e), w).

(** [ready = e.ready] and [flow = *e] *)
Definition get_ready (e : tcpFlow) (w : World) : chan * tcpFlow * World := (ready e, e, w).
Definition get_flow (e : tcpFlow) (w : World) : tcpFlow * tcpFlow * World := (e, e, w).

(** *** The capture loop, one packet *)

(** The peer address built from the packet: its source IP and source
    port. *)
Definition packet_addr (packet : Packet) : TCPAddr :=
  let ip :=
    match layerIPv4 packet with
    | Some network => IPv4.SrcIP network
    | None =>
        match layerIPv6 packet with
        | Some network => IPv6.SrcIP network
        | None => []
        end
    end in
  mkTCPAddr ip (TCP.SrcPort (TransportLayer packet)).

(** The [select] that sends on [chMessage] or receives from [die].
    [chMessage] is unbuffered, and the only receiver, [ReadFrom], waits in
    a [select] with [die] as well.  A send and its receive meet only when
    one of the two is parked; closing [die] wakes every parked [select]
    with its [die] case, and a [select] entered afterwards finds [die]
    ready and does not park.  So once [die] is closed the send cannot
    proceed and the loop returns.  Before that the goroutine parks with
    its message last among the waiting senders: it takes no further packet
    until a receiver has taken the message, and then it goes on, or until
    [die] is closed, and then it returns (see [captureFlow_among]).  A
    receiver that waits already is one that takes the message at once. *)
Definition push (m : message) (w : World) : World * loop_ctl :=
  if is_closed (die (conn w)) w then (w, Return)
  else (set_sendq (sendq w ++ [m]) w, Park).

(** Lines 107-157: the entry follows the packet unless it is a FIN or an
    RST. *)
Definition capture_follow (h : Handle) (packet : Packet) (w : World) : World :=
  let transport := TransportLayer packet in
  if negb (TCP.FIN transport) && negb (TCP.RST transport)
  then snd (lockflow (packet_addr packet) (follow h packet) w)
  else w.

(** Lines 159-170: SYN, else PSH, else FIN or RST. *)
Definition capture_deliver (packet : Packet) (w : World) : World * loop_ctl :=
  let transport := TransportLayer packet in
  let a := packet_addr packet in
  if TCP.SYN transport then
    (snd (lockflow a (ack_add 1) w), Continue)
  else if TCP.PSH transport then
    let w := snd (lockflow a (ack_add (Z.of_nat (length (TCP.Payload transport)))) w) in
    push (mkMessage (TCP.Payload transport) a) w
  else if TCP.FIN transport || TCP.RST transport then
    (deleteflow a w, Continue)
  else (w, Continue).

(** The body of the loop over [source.Packets()]. *)
Definition capture_packet (h : Handle) (packet : Packet) (w : World) : World * loop_ctl :=
  capture_deliver packet (capture_follow h packet w).

(** The goroutine of [captureFlow] on the packets its source yields, when
    nothing else runs in between: it ends with the channel of packets, at
    the [return] of the [select], or parked in the [select], where no
    receiver comes to take the message. *)
Fixpoint captureFlow (h : Handle) (packets : list Packet) (w : World) : World :=
  match packets with
  | [] => w
  | packet :: rest =>
      match capture_packet h packet w with
      | (w, Continue) => captureFlow h rest w
      | (w, Return) => w
      | (w, Park) => w
      end
  end.

(** *** [ReadFrom]

    [p] is the caller's buffer; the result carries its contents after the
    call.  [copy(p, packet.bts)] overwrites the first
    [min(len(p), len(packet.bts))] bytes of [p].  The [die] case is the
    only one that can proceed once [die] is closed (see [push]). *)
Definition ReadFrom (p : list byte) (w : World)
    : outcome (nat * option TCPAddr * option error * list byte) * World :=
  if is_closed (die (conn w)) w then (Returns (0, None, Some io_EOF, p), w)
  else
    match sendq w with
    | packet :: q =>
        let n := min (length p) (length (bts packet)) in
        (Returns (n, Some (addr packet), None, firstn n (bts packet) ++ skipn n p),
         set_sendq q w)
    | [] => (Blocks, w)
    end.

(** *** [WriteTo] *)

(** The [select] of [WriteTo] over [die] and [ready].  When both can
    proceed Go picks one at random: [pick] is that choice.  When neither
    can, the goroutine parks. *)
Inductive select_case : Type := CaseDie | CaseReady.

Definition select_die_ready (pick : select_case) (rdy : chan) (w : World) : option select_case :=
  match is_closed (die (conn w)) w, is_closed rdy w with
  | true, true => Some pick
  | true, false => Some CaseDie
  | false, true => Some CaseReady
  | false, false => None
  end.

(** Lines 210-218: the TCP header of an outgoing segment.
    [layers.TCPPort] is a [uint16]; the flags not named are false, the
    payload travels as a layer of its own. *)
Definition tcp_header (c : TCPConn) (tcpaddr : TCPAddr) (flow : tcpFlow) : TCP.t :=
  TCP.mk (uint16 (Port (localAddr c))) (uint16 (Port tcpaddr))
         (seq flow) (ack flow)
         false false false true true
         12580 [].

(** Lines 195-230, the [ready] case.  [werr] is what
    [WritePacketData] returns.  The type assertion on a nil
    [flow.networkLayer] panics; so does serializing a nil layer, and
    writing through a nil handle. *)
Definition WriteTo_ready (p : list byte) (a : TCPAddr) (werr : option error) (w : World)
    : outcome (Z * option error) * World :=
  match ResolveTCPAddr (TCPAddr_String a) with
  | inr err => (Returns (0%Z, Some err), w)
  | inl tcpaddr =>
      let '(flow, w) := lockflow a get_flow w in
      let tcp := tcp_header (conn w) tcpaddr flow in
      match networkLayer flow, linkLayer flow, handle flow with
      | None, _, _ => (Panics, w)
      | Some _, None, _ => (Panics, w)
      | Some _, Some _, None => (Panics, w)
      | Some n, Some l, Some h =>
          let w := emit (EvWritePacketData h (mkFrame l n tcp p) werr) w in
          match werr with
          | Some err => (Returns (0%Z, Some err), w)
          | None =>
              let w := snd (lockflow a (seq_add (Z.of_nat (length p))) w) in
              (Returns (Z.of_nat (length p), None), w)
          end
      end
  end.

(** Lines 191-231: [WriteTo] at its [select], holding the latch [rdy]
    it fetched. *)
Definition WriteTo_wait (p : list byte) (a : TCPAddr) (pick : select_case)
    (werr : option error) (rdy : chan) (w : World) : outcome (Z * option error) * World :=
  match select_die_ready pick rdy w with
  | None => (Blocks, w)
  | Some CaseDie => (Returns (0%Z, Some io_EOF), w)
  | Some CaseReady => WriteTo_ready p a werr w
  end.

Definition WriteTo (p : list byte) (a : TCPAddr) (pick : select_case) (werr : option error)
    (w : World) : outcome (Z * option error) * World :=
  let '(rdy, w) := lockflow a get_ready w in
  WriteTo_wait p a pick werr rdy w.

(** [WriteTo] called once for each payload, one call after the other;
    each call comes with the choice of its [select] and the result of its
    [WritePacketData]. *)
Fixpoint WriteTo_each (calls : list (list byte * select_case * option error)) (a : TCPAddr)
    (w : World) : list (outcome (Z * option error)) * World :=
  match calls with
  | [] => ([], w)
  | (p, pick, werr) :: rest =>
      let '(r, w) := WriteTo p a pick werr w in
      let '(rs, w) := WriteTo_each rest a w in
      (r :: rs, w)
  end.

(** *** [Close] *)

Definition setttl (c : Socket) (ttl : Z) (w : World) : World :=
  if localIs4 c then emit (EvSetTTL ttl) w else emit (EvSetHopLimit ttl) w.

(** [dieOnce.Do] runs its function on the first call only; the result
    variable [err] is local to each call. *)
Definition Close (w : World) : option error * World :=
  if dieOnce (conn w) then (None, w)
  else
    let w := close_chan (die (conn w)) w in
    let w := fold_left (fun w h => emit (EvHandleClose h) w) (handles (conn w)) w in
    let w := if isTCPConn (socket (conn w)) then setttl (socket (conn w)) 64 w else w in
    let w := emit EvSocketClose w in
    (closeResult (socket (conn w)), set_dieOnce w).

(** [Close] called [n] times in a row: the results, first call first. *)
Fixpoint Close_times (n : nat) (w : World) : list (option error) * World :=
  match n with
  | O => ([], w)
  | S n =>
      let '(r, w) := Close w in
      let '(rs, w) := Close_times n w in
      (r :: rs, w)
  end.

(** *** Atomic steps

    Every operation the goroutines of a connection perform on the shared
    state, one constructor each: the flow table is touched only under
    [flowsLock], so each [lockflow] and [deleteflow] is one step.  A run
    of the program, whatever the interleaving, is a sequence of steps. *)
Inductive step : World -> World -> Prop :=
| step_follow h packet w :
    step w (snd (lockflow (packet_addr packet) (follow h packet) w))
| step_ack a n w :
    step w (snd (lockflow a (ack_add n) w))
| step_push m w :
    step w (fst (push m w))
| step_delete a w :
    step w (deleteflow a w)
| step_get_ready a w :
    step w (snd (lockflow a get_ready w))
| step_get_flow a w :
    step w (snd (lockflow a get_flow w))
| step_write h f err w :
    step w (emit (EvWritePacketData h f err) w)
| step_seq a n w :
    step w (snd (lockflow a (seq_add n) w))
| step_receive p w :
    step w (snd (ReadFrom p w))
| step_Close w :
    step w (snd (Close w)).

(** The states a connection made by [Dial] or [Listen] can be in. *)
Definition reachable (w : World) : Prop :=
  exists srv sock laddr hs, rtc step (new_conn srv sock laddr hs) w.

(** How often [c] has been closed so far. *)
Definition is_close_of (c : chan) (ev : event) : bool :=
  match ev with
  | EvCloseChan c' => bool_decide (c' = c)
  | _ => false
  end.

Definition closes (c : chan) (tr : list event) : nat :=
  length (List.filter (is_close_of c) tr).

(** How often handle [h] and the socket have been closed so far. *)
Definition is_handle_close (h : Handle) (ev : event) : bool :=
  match ev with
  | EvHandleClose h' => bool_decide (h' = h)
  | _ => false
  end.

Definition is_socket_close (ev : event) : bool :=
  match ev with
  | EvSocketClose => true
  | _ => false
  end.

Definition handle_closes (h : Handle) (tr : list event) : nat :=
  length (List.filter (is_handle_close h) tr).

Definition socket_closes (tr : list event) : nat :=
  length (List.filter is_socket_close tr).

(** The frames written so far, oldest first. *)
Definition frame_of (ev : event) : option Frame :=
  match ev with
  | EvWritePacketData _ f _ => Some f
  | _ => None
  end.

Definition frames (tr : list event) : list Frame := omap frame_of tr.

(** The templates and the handle of an entry are all set. *)
Definition populated (e : tcpFlow) : Prop :=
  is_Some (handle e) /\ is_Some (linkLayer e) /\ is_Some (networkLayer e).

(** Two copies of an entry agree on the latch, the handle and the
    templates. *)
Definition same_templates (e e' : tcpFlow) : Prop :=
  ready e' = ready e /\ handle e' = handle e /\
  linkLayer e' = linkLayer e /\ networkLayer e' = networkLayer e.

(** *** The vocabulary of the statements *)

(** Well-formed states: [die] and every [ready] in the table are
    channels that have been made; distinct entries have distinct
    latches, none of them [die]; an entry whose latch is closed is
    populated; the log has one close for each closed channel, none for
    the others; and [die] is closed when [dieOnce] has run, and only
    then. *)
Record wf (w : World) : Prop := mkWf {
  wf_die : die (conn w) < nextChan w;
  wf_closed : forall c, c ∈ closed w -> c < nextChan w;
  wf_ready : forall k e, flows (conn w) !! k = Some e ->
             ready e < nextChan w /\ ready e <> die (conn w);
  wf_inj : forall k1 k2 e1 e2,
             flows (conn w) !! k1 = Some e1 -> flows (conn w) !! k2 = Some e2 ->
             ready e1 = ready e2 -> k1 = k2;
  wf_populated : forall k e, flows (conn w) !! k = Some e ->
             ready e ∈ closed w -> populated e;
  wf_once : forall c, closes c (trace w) = if bool_decide (c ∈ closed w) then 1 else 0;
  wf_die_open : dieOnce (conn w) = false -> die (conn w) ∉ closed w;
  wf_die_closed : dieOnce (conn w) = true -> die (conn w) ∈ closed w }.

(** What [lockflow] knows about the entry [e] it holds for [key] while
    the closure runs. *)
Definition visiting (key : string) (e : tcpFlow) (w : World) : Prop :=
  ready e < nextChan w /\ ready e <> die (conn w) /\
  (forall k2 e2, flows (conn w) !! k2 = Some e2 -> ready e2 = ready e -> k2 = key) /\
  (ready e ∈ closed w -> populated e).

(** The closures handed to [lockflow] are gentle: each of them leaves
    the latch of the entry alone; it either leaves the channels alone as
    well, and then does not touch the handle and the templates of an
    entry whose latch is closed, or it closes the latch, which was open,
    on a populated entry. *)
Inductive gentle_at {A : Type} (e : tcpFlow) (w : World) : A * tcpFlow * World -> Prop :=
| gentle_keep r e' :
    ready e' = ready e ->
    (ready e ∈ closed w -> same_templates e e') ->
    gentle_at e w (r, e', w)
| gentle_signal r e' :
    ready e' = ready e ->
    ready e ∉ closed w ->
    populated e' ->
    gentle_at e w (r, e', close_chan (ready e) w).

Definition gentle {A : Type} (f : tcpFlow -> World -> A * tcpFlow * World) : Prop :=
  forall e w, gentle_at e w (f e w).

(** A latch that has been made and is not in the table never enters it:
    every new entry gets a newly made latch. *)
Definition latch_absent (r : chan) (w : World) : Prop :=
  r < nextChan w /\ forall k e, flows (conn w) !! k = Some e -> ready e <> r.

(** The events of [Close] on the socket's TTL. *)
Definition ttl_events (s : Socket) : list event :=
  if isTCPConn s then [if localIs4 s then EvSetTTL 64 else EvSetHopLimit 64] else [].

(** What the first [Close] logs after closing [die]. *)
Definition shutdown_events (c : TCPConn) : list event :=
  map EvHandleClose (handles c) ++ ttl_events (socket c) ++ [EvSocketClose].

(** The entry after [e.seq += uint32(n)]. *)
Definition advanced (n : Z) (e : tcpFlow) : tcpFlow :=
  mkFlow (handle e) (ready e) (uint32 (seq e + uint32 n)) (ack e) (linkLayer e) (networkLayer e).

(** How a call of [WriteTo] on an existing entry ends: without a frame,
    and then without success and without a change of state; or with one
    frame, built from the entry. *)
Inductive WriteTo_result (p : list byte) (a : TCPAddr) (werr : option error)
    (w : World) (e : tcpFlow) : outcome (Z * option error) * World -> Prop :=
| WriteTo_no_frame r :
    (forall n, r <> Returns (n, None)) ->
    WriteTo_result p a werr w e (r, w)
| WriteTo_failed h l n tcpaddr err :
    werr = Some err ->
    is_closed (ready e) w = true ->
    ResolveTCPAddr (TCPAddr_String a) = inl tcpaddr ->
    handle e = Some h -> linkLayer e = Some l -> networkLayer e = Some n ->
    WriteTo_result p a werr w e
      (Returns (0%Z, Some err),
       emit (EvWritePacketData h (mkFrame l n (tcp_header (conn w) tcpaddr e) p) werr) w)
| WriteTo_written h l n tcpaddr :
    werr = None ->
    is_closed (ready e) w = true ->
    ResolveTCPAddr (TCPAddr_String a) = inl tcpaddr ->
    handle e = Some h -> linkLayer e = Some l -> networkLayer e = Some n ->
    WriteTo_result p a werr w e
      (Returns (Z.of_nat (length p), None),
       set_flows (<[TCPAddr_String a := advanced (Z.of_nat (length p)) e]> (flows (conn w)))
         (emit (EvWritePacketData h (mkFrame l n (tcp_header (conn w) tcpaddr e) p) werr) w)).

(** The payloads of a list of calls, and the sum of their lengths. *)
Definition payloads (calls : list (list byte * select_case * option error)) : list (list byte) :=
  map (fun c => fst (fst c)) calls.

Definition total_len (ps : list (list byte)) : Z :=
  fold_right (fun p s => (Z.of_nat (length p) + s)%Z) 0%Z ps.

(** A call that wrote all of [p]. *)
Definition wrote_all (c : list byte * select_case * option error)
    (r : outcome (Z * option error)) : Prop :=
  r = Returns (Z.of_nat (length (fst (fst c))), None).

(** *** More vocabulary: streams of packets *)

(** [ack] after lines 159-162 on a packet, from [ack] before. *)
Definition ack_after (packet : Packet) (a0 : Z) : Z :=
  let t := TransportLayer packet in
  if TCP.SYN t then uint32 (a0 + 1)
  else if TCP.PSH t then uint32 (a0 + uint32 (Z.of_nat (length (TCP.Payload t))))
  else a0.

(** What a packet adds to [ack]: one for a SYN, else the payload length
    for a PSH, else nothing. *)
Definition ack_gain (packet : Packet) : Z :=
  let t := TransportLayer packet in
  if TCP.SYN t then 1%Z
  else if TCP.PSH t then Z.of_nat (length (TCP.Payload t))
  else 0%Z.

(** An entry that has followed [packet]: lines 109 and 159-162 on a ready
    entry. *)
Definition heard (packet : Packet) (e : tcpFlow) : tcpFlow :=
  mkFlow (handle e) (ready e) (TCP.Ack (TransportLayer packet))
         (ack_after packet (ack e)) (linkLayer e) (networkLayer e).

(** The message a packet puts on [chMessage], if any: the payload of a
    segment with PSH and without SYN. *)
Definition delivery (packet : Packet) : option message :=
  let t := TransportLayer packet in
  if negb (TCP.SYN t) && TCP.PSH t
  then Some (mkMessage (TCP.Payload t) (packet_addr packet))
  else None.

Definition deliveries (packets : list Packet) : list message := omap delivery packets.

(** [ReadFrom] called once with each buffer, one call after the other. *)
Fixpoint ReadFrom_each (bufs : list (list byte)) (w : World)
    : list (outcome (nat * option TCPAddr * option error * list byte)) * World :=
  match bufs with
  | [] => ([], w)
  | p :: rest =>
      let '(r, w) := ReadFrom p w in
      let '(rs, w) := ReadFrom_each rest w in
      (r :: rs, w)
  end.

(** The goroutines that come by while the capture loop is parked in its
    [select]: a call of [ReadFrom] with buffer [p], or a call of
    [Close]. *)
Inductive visitor : Type :=
| Reads (p : list byte)
| Closes.

(** The goroutine of [captureFlow] on the packets its source yields,
    together with the calls [others] of other goroutines, the next of
    which runs each time the loop is parked in its [select].  A [Close]
    wakes the loop with the [die] case and the loop returns.  A
    [ReadFrom] takes the oldest waiting message; the loop goes on when
    that was its own, which is the last one, and stays parked when it was
    not.  With no call left the loop stays parked.  The result: what the
    calls of [ReadFrom] returned, the state, and the packets the loop has
    not taken. *)
Fixpoint captureFlow_among (h : Handle) (packets : list Packet) (others : list visitor)
    (w : World)
    : list (outcome (nat * option TCPAddr * option error * list byte)) * World * list Packet :=
  match packets with
  | [] => ([], w, [])
  | packet :: rest =>
      match capture_packet h packet w with
      | (w, Continue) => captureFlow_among h rest others w
      | (w, Return) => ([], w, rest)
      | (w, Park) =>
          match others with
          | [] => ([], w, rest)
          | Closes :: _ => ([], snd (Close w), rest)
          | Reads p :: others =>
              let '(r, w) := ReadFrom p w in
              match sendq w with
              | [] =>
                  let '(rs, w, untaken) := captureFlow_among h rest others w in
                  (r :: rs, w, untaken)
              | _ :: _ => ([r], w, rest)
              end
          end
      end
  end.

(** The packets after the one that carries message number [k], counted
    from 0: none when there are not that many messages. *)
Fixpoint unhandled (k : nat) (packets : list Packet) : list Packet :=
  match packets with
  | [] => []
  | packet :: rest =>
      match delivery packet, k with
      | Some _, O => rest
      | Some _, S k => unhandled k rest
      | None, _ => unhandled k rest
      end
  end.

(** An entry that has followed each of [packets], in order. *)
Definition heard_all (packets : list Packet) (e : tcpFlow) : tcpFlow :=
  fold_left (fun e packet => heard packet e) packets e.

(** The sum of what the packets add to [ack]. *)
Definition total_gain (packets : list Packet) : Z :=
  fold_right (fun packet s => (ack_gain packet + s)%Z) 0%Z packets.

(** The result of [ReadFrom] into buffer [p] when it takes message [m]. *)
Definition received_into (p : list byte) (m : message)
    : outcome (nat * option TCPAddr * option error * list byte) :=
  let n := Nat.min (length p) (length (bts m)) in
  Returns (n, Some (addr m), None, firstn n (bts m) ++ skipn n p).

(** The packets of one peer, none with FIN or RST. *)
Definition from_peer (a : TCPAddr) (packet : Packet) : Prop :=
  TCPAddr_String (packet_addr packet) = TCPAddr_String a /\
  TCP.FIN (TransportLayer packet) = false /\ TCP.RST (TransportLayer packet) = false.

(** The destination address of a network layer template. *)
Definition NetworkLayer_DstIP (n : NetworkLayer) : list byte :=
  match n with
  | NetIPv4 n => IPv4.DstIP n
  | NetIPv6 n => IPv6.DstIP n
  end.

(** What [WriteTo] returns once [WritePacketData] has returned [werr]. *)
Definition written (p : list byte) (werr : option error) : outcome (Z * option error) :=
  match werr with
  | Some err => Returns (0%Z, Some err)
  | None => Returns (Z.of_nat (length p), None)
  end.

(** *** More vocabulary: the stages of [WriteTo] *)

(** Lines 210-224 for the copy [flow] of the entry: the handle and the
    frame, when none of handle and templates is nil. *)
Definition outgoing (c : TCPConn) (tcpaddr : TCPAddr) (flow : tcpFlow) (p : list byte)
    : option (Handle * Frame) :=
  match networkLayer flow, linkLayer flow, handle flow with
  | Some n, Some l, Some h => Some (h, mkFrame l n (tcp_header c tcpaddr flow) p)
  | _, _, _ => None
  end.

(** Two calls of [WriteTo] to one peer, with payloads [p1] and [p2], both
    past the [select] and [ResolveTCPAddr], whose [WritePacketData]
    succeeds, in the interleaving where each takes its copy of the entry
    (line 208) before either writes its frame (line 225) or advances
    [seq] (line 229).  [None]: a call panics. *)
Definition WriteTo_twice_interleaved (p1 p2 : list byte) (a tcpaddr : TCPAddr) (w : World)
    : option World :=
  let '(flow1, w) := lockflow a get_flow w in
  let '(flow2, w) := lockflow a get_flow w in
  match outgoing (conn w) tcpaddr flow1 p1, outgoing (conn w) tcpaddr flow2 p2 with
  | Some (h1, f1), Some (h2, f2) =>
      let w := emit (EvWritePacketData h1 f1 None) w in
      let w := emit (EvWritePacketData h2 f2 None) w in
      let w := snd (lockflow a (seq_add (Z.of_nat (length p1))) w) in
      let w := snd (lockflow a (seq_add (Z.of_nat (length p2))) w) in
      Some w
  | _, _ => None
  end.

(** *** More vocabulary: calls of [WriteTo] among other goroutines *)

(** A step of the connection that leaves the entry of [a] as it is: any
    step of any goroutine, but for those of an inbound packet of [a] and
    of an overlapping [WriteTo] to [a] that change the entry. *)
Definition aside (a : TCPAddr) (w w' : World) : Prop :=
  step w w' /\ flows (conn w') !! TCPAddr_String a = flows (conn w) !! TCPAddr_String a.

(** One call of [WriteTo] with payload [p] to [a] that writes the frame
    [f] and returns [len(p), nil], from the state [w] it starts in to the
    state it returns in, with steps aside between its own: line 189, the
    [select] of line 191 taking the [ready] case, line 195, line 208,
    lines 210-225, and line 229. *)
Inductive WriteTo_among (p : list byte) (a : TCPAddr) (f : Frame) : World -> World -> Prop :=
| WriteTo_stages w rdy w1 w1' tcpaddr flow w2 w2' h w3' :
    lockflow a get_ready w = (rdy, w1) ->
    rtc (aside a) w1 w1' ->
    is_closed rdy w1' = true ->
    ResolveTCPAddr (TCPAddr_String a) = inl tcpaddr ->
    lockflow a get_flow w1' = (flow, w2) ->
    rtc (aside a) w2 w2' ->
    outgoing (conn w2') tcpaddr flow p = Some (h, f) ->
    rtc (aside a) (emit (EvWritePacketData h f None) w2') w3' ->
    WriteTo_among p a f w (snd (lockflow a (seq_add (Z.of_nat (length p))) w3')).

(** Calls of [WriteTo] to [a] with the payloads [ps] that write the
    frames [fs], each call returning before the next one starts, with
    steps aside before, between, within and after the calls. *)
Inductive WriteTo_in_turn (a : TCPAddr) : list (list byte) -> list Frame -> World -> World -> Prop :=
| in_turn_nil w w' :
    rtc (aside a) w w' ->
    WriteTo_in_turn a [] [] w w'
| in_turn_cons p ps f fs w w1 w2 w' :
    rtc (aside a) w w1 ->
    WriteTo_among p a f w1 w2 ->
    WriteTo_in_turn a ps fs w2 w' ->
    WriteTo_in_turn a (p :: ps) (f :: fs) w w'.

End Engine.

(** * Setting a connection up: [Dial] and [Listen]

    Both functions are sequences of calls into packages [net] and
    [pcap], each of which may fail.  The host they run on is a record of
    what these calls return; [Dial] and [Listen] return the connection
    (the state [new_conn] describes) or an error, and the log of what
    they have done to the host on the way. *)

(** A [pcap.Interface]: its name and the IP of each of its addresses. *)
Record Interface : Type := mkInterface { Name : string; Addresses : list (list byte) }.

(** The host: [net.ResolveTCPAddr(network, address)]; the local address
    of the socket [net.Dial("udp", address)] returns, and its [String()];
    [pcap.FindAllDevs()]; the handle
    [pcap.OpenLive(name, 65536, true, time.Second)] returns;
    [handle.SetBPFFilter(filter)]; the socket
    [net.DialTCP(network, laddr, raddr)] returns and its [LocalAddr()];
    the listener [net.ListenTCP(network, laddr)] returns and its
    [Addr()]; and on IP addresses, [Equal], [IsUnspecified] and the text
    [%v] prints. *)
Class Host : Type := mkHost {
  net_ResolveTCPAddr : string -> string -> TCPAddr + error;
  net_Dial_udp : string -> TCPAddr + error;
  UDPAddr_String : TCPAddr -> string;
  pcap_FindAllDevs : list Interface + error;
  pcap_OpenLive : string -> Handle + error;
  SetBPFFilter : Handle -> string -> option error;
  net_DialTCP : string -> TCPAddr -> TCPAddr -> (Socket * TCPAddr) + error;
  net_ListenTCP : string -> TCPAddr -> (Socket * TCPAddr) + error;
  IP_Equal : list byte -> list byte -> bool;
  IP_IsUnspecified : list byte -> bool;
  IP_String : list byte -> string }.

(** The errors of [Dial] and [Listen]: made by [errors.New], or handed
    up from a library call. *)
Inductive setup_error : Type :=
| errors_New (msg : string)
| from_library (err : error).

(** What [Dial] and [Listen] do to the host. *)
Inductive setup_event : Type :=
| SuDialUDP (local_addr : TCPAddr)
| SuCloseUDP
| SuOpenLive (name : string) (h : Handle)
| SuSetBPFFilter (h : Handle) (filter : string)
| SuDialTCP (laddr raddr : TCPAddr)
| SuListenTCP (laddr : TCPAddr)
| SuCapture (h : Handle)
| SuSetTTL (ttl : Z)
| SuSetHopLimit (ttl : Z)
| SuDiscard
| SuAccept.

Section Setup.
Context `{host : Host}.

(** The loops of lines 285-292 and 377-384: the name of the last
    interface with an address equal to [ip], or the empty string. *)
Definition find_iface (ifaces : list Interface) (ip : list byte) : string :=
  fold_left
    (fun ifaceName iface =>
       fold_left (fun ifaceName a => if IP_Equal a ip then Name iface else ifaceName)
                 (Addresses iface) ifaceName)
    ifaces "".

(** The three filters of lines 311, 364 and 395. *)
Definition filter_dial (laddr raddr : TCPAddr) : string :=
  "tcp and dst host " +:+ IP_String (IP laddr) +:+ " and dst port " +:+ pretty (Port laddr)
  +:+ " and src host " +:+ IP_String (IP raddr) +:+ " and src port " +:+ pretty (Port raddr).

Definition filter_listen_all (laddr : TCPAddr) : string :=
  "tcp and dst port " +:+ pretty (Port laddr).

Definition filter_listen (laddr : TCPAddr) : string :=
  "tcp and dst host " +:+ IP_String (IP laddr) +:+ " and dst port " +:+ pretty (Port laddr).

(** [conn.setttl(c, ttl)] on the socket [c] during setup. *)
Definition setup_setttl (c : Socket) (ttl : Z) : setup_event :=
  if localIs4 c then SuSetTTL ttl else SuSetHopLimit ttl.

(** Lines 359-372: a handle on every interface that has an address and
    opens; a filter that fails ends [Listen]. *)
Fixpoint open_all (ifaces : list Interface) (laddr : TCPAddr) (handles : list Handle)
    (log : list setup_event) : (list Handle + setup_error) * list setup_event :=
  match ifaces with
  | [] => (inl handles, log)
  | iface :: rest =>
      if Nat.ltb 0 (length (Addresses iface)) then
        match pcap_OpenLive (Name iface) with
        | inl handle =>
            let log := log ++ [SuOpenLive (Name iface) handle] in
            let filter := filter_listen_all laddr in
            match SetBPFFilter handle filter with
            | Some err => (inr (from_library err), log)
            | None =>
                open_all rest laddr (handles ++ [handle])
                         (log ++ [SuSetBPFFilter handle filter])
            end
        | inr _ => open_all rest laddr handles log
        end
      else open_all rest laddr handles log
  end.

(** Lines 357-400 of [Listen]: the handles to capture on. *)
Definition listen_handles (ifaces : list Interface) (laddr : TCPAddr)
    : (list Handle + setup_error) * list setup_event :=
  if bool_decide (IP laddr = []) || IP_IsUnspecified (IP laddr) then
    match open_all ifaces laddr [] [] with
    | (inl handles, log) =>
        if Nat.eqb (length handles) 0
        then (inr (errors_New "cannot find any interface"), log)
        else (inl handles, log)
    | (inr err, log) => (inr err, log)
    end
  else
    let ifaceName := find_iface ifaces (IP laddr) in
    if bool_decide (ifaceName = "") then (inr (errors_New "cannot find correct interface"), [])
    else
      match pcap_OpenLive ifaceName with
      | inr err => (inr (from_library err), [])
      | inl handle =>
          let log := [SuOpenLive ifaceName handle] in
          let filter := filter_listen laddr in
          match SetBPFFilter handle filter with
          | Some err => (inr (from_library err), log)
          | None => (inl [handle], log ++ [SuSetBPFFilter handle filter])
          end
      end.

Definition Listen (network address : string) : (World + setup_error) * list setup_event :=
  match net_ResolveTCPAddr network address with
  | inr err => (inr (from_library err), [])
  | inl laddr =>
      match pcap_FindAllDevs with
      | inr err => (inr (from_library err), [])
      | inl ifaces =>
          match listen_handles ifaces laddr with
          | (inr err, log) => (inr err, log)
          | (inl handles, log) =>
              match net_ListenTCP network laddr with
              | inr err => (inr (from_library err), log)
              | inl (l, l_addr) =>
                  (inl (new_conn true (mkSocket false (localIs4 l) (closeResult l))
                                 l_addr handles),
                   log ++ [SuListenTCP laddr] ++ map SuCapture handles ++ [SuAccept])
              end
          end
      end
  end.

Definition Dial (network address : string) : (World + setup_error) * list setup_event :=
  match net_ResolveTCPAddr network address with
  | inr err => (inr (from_library err), [])
  | inl raddr =>
      match net_Dial_udp address with
      | inr err => (inr (from_library err), [])
      | inl dummy =>
          let log := [SuDialUDP dummy] in
          match pcap_FindAllDevs with
          | inr err => (inr (from_library err), log)
          | inl ifaces =>
              let ifaceName := find_iface ifaces (IP dummy) in
              if bool_decide (ifaceName = "")
              then (inr (errors_New "cannot find correct interface"), log)
              else
                match pcap_OpenLive ifaceName with
                | inr err => (inr (from_library err), log)
                | inl handle =>
                    let log := log ++ [SuOpenLive ifaceName handle] in
                    match net_ResolveTCPAddr network (UDPAddr_String dummy) with
                    | inr err => (inr (from_library err), log)
                    | inl laddr =>
                        let log := log ++ [SuCloseUDP] in
                        let filter := filter_dial laddr raddr in
                        match SetBPFFilter handle filter with
                        | Some err => (inr (from_library err), log)
                        | None =>
                            let log := log ++ [SuSetBPFFilter handle filter] in
                            match net_DialTCP network laddr raddr with
                            | inr err => (inr (from_library err), log)
                            | inl (tcpconn, tcpconn_addr) =>
                                let c := mkSocket true (localIs4 tcpconn)
                                                  (closeResult tcpconn) in
                                (inl (new_conn false c tcpconn_addr [handle]),
                                 log ++ [SuDialTCP laddr raddr; SuCapture handle;
                                         setup_setttl c 0; SuDiscard])
                            end
                        end
                    end
                end
          end
      end
  end.

(** The handles a log opens, filters and starts a capture loop on. *)
Definition opened (log : list setup_event) : list Handle :=
  omap (fun ev => match ev with SuOpenLive _ h => Some h | _ => None end) log.

Definition filtered (log : list setup_event) : list (Handle * string) :=
  omap (fun ev => match ev with SuSetBPFFilter h f => Some (h, f) | _ => None end) log.

Definition captured (log : list setup_event) : list Handle :=
  omap (fun ev => match ev with SuCapture h => Some h | _ => None end) log.

(** The scratch UDP socket of [Dial] is open at the end of a log. *)
Definition scratch_open (log : list setup_event) : Prop :=
  (exists a, In (SuDialUDP a) log) /\ ~ In SuCloseUDP log.

(** The handles lines 359-372 end up with when no filter fails. *)
Definition openable (ifaces : list Interface) : list Handle :=
  omap (fun iface =>
          if Nat.ltb 0 (length (Addresses iface)) then
            match pcap_OpenLive (Name iface) with
            | inl handle => Some handle
            | inr _ => None
            end
          else None)
       ifaces.

End Setup.

(** * A concrete connection

    An instance of the library functions and a small exchange on it, to
    apply the statements to. *)

(** Dotted bytes, a colon, the port. *)
Definition dotted_String (a : TCPAddr) : string :=
  String.append (String.concat "." (map (fun b => pretty (Byte.to_N b)) (IP a)))
                (String.append ":" (pretty (Port a))).

Definition peer : TCPAddr := mkTCPAddr [x0a; x00; x00; x02] 4000.
Definition local : TCPAddr := mkTCPAddr [x0a; x00; x00; x01] 5000.

(** A resolver that knows [peer]. *)
Definition resolve_peer (s : string) : TCPAddr + error :=
  if decide (s = dotted_String peer) then inl peer else inr (errLibrary "no such host").

Definition dotted_net : Net := mkNet dotted_String resolve_peer.

Definition peer_mac : list byte := [x02; x00; x00; x00; x00; x02].
Definition local_mac : list byte := [x02; x00; x00; x00; x00; x01].

Definition peer_eth : Ethernet.t := Ethernet.mk 2048 peer_mac local_mac.
Definition peer_ip : IPv4.t := IPv4.mk (IP peer) (IP local) 6 4 99 0 55.

Definition segment (sq ak : Z) (fin syn rst psh : bool) (payload : list byte) : Packet :=
  mkPacket (Some peer_eth) None (Some peer_ip) None
           (TCP.mk 4000 5000 sq ak fin syn rst psh true 512 payload).

(** SYN+ACK, a data segment, a bare FIN, and a FIN that carries data. *)
Definition synack : Packet := segment 1000 2000 false true false false [].
Definition ping : Packet := segment 1001 2000 false false false true [x70; x69; x6e; x67].
Definition fin : Packet := segment 1005 2000 true false false false [].
Definition finpsh : Packet := segment 1005 2000 true false false true [x62; x79; x65].

(** A dialed connection on handle 7, and one whose socket fails to
    close. *)
Definition dialed : World := new_conn false (mkSocket true true None) local [7].
Definition dialed_bad : World :=
  new_conn false (mkSocket true true (Some (errLibrary "close failed"))) local [7].

(** After the handshake, and after the first data segment. *)
Definition established : World := fst (capture_packet (net := dotted_net) 7 synack dialed).
Definition received : World := fst (capture_packet (net := dotted_net) 7 ping established).

(** The entry of [peer] once established. *)
Definition peer_flow : tcpFlow :=
  mkFlow (Some 7) 1 2000 1001
    (Some (LinkEthernet (Ethernet.mk 2048 local_mac peer_mac)))
    (Some (NetIPv4 (IPv4.mk (IP local) (IP peer) 6 4 99 IPv4DontFragment 64))).

(** Three calls of [WriteTo], with payloads of 4, 0 and 2 bytes; on
    [established] they go out with the sequence numbers 2000, 2004 and
    2004. *)
Definition three_writes : list (list byte * select_case * option error) :=
  [([x70; x69; x6e; x67], CaseReady, None);
   ([], CaseReady, None);
   ([x6f; x6b], CaseReady, None)].

(** A second peer, its SYN, and the connection once both have been
    heard. *)
Definition other : TCPAddr := mkTCPAddr [x0a; x00; x00; x03] 4000.

Definition other_syn : Packet :=
  mkPacket (Some peer_eth) None (Some (IPv4.mk (IP other) (IP local) 6 4 7 0 55)) None
           (TCP.mk 4000 5000 500 0 false true false false false 512 []).

Definition two_peers : World := fst (capture_packet (net := dotted_net) 7 other_syn established).

(** The entry of [other] in [two_peers]. *)
Definition other_flow : tcpFlow :=
  mkFlow (Some 7) 2 0 501
    (Some (LinkEthernet (Ethernet.mk 2048 local_mac peer_mac)))
    (Some (NetIPv4 (IPv4.mk (IP local) (IP other) 6 4 7 IPv4DontFragment 64))).

(** A second data segment of [peer], and a reply to [synack] made of the
    templates of [synack]. *)
Definition pong : Packet := segment 1005 2004 false false false true [x70; x6f; x6e; x67].

Definition reply : Packet :=
  mkPacket (Some (Ethernet.mk 2048 local_mac peer_mac)) None
           (Some (IPv4.mk (IP local) (IP peer) 6 4 99 IPv4DontFragment 64)) None
           (TCP.mk 5000 4000 2000 1001 false false false true true 12580 [x6f; x6b]).

(** ** A concrete host

    Two interfaces, a small table of names, and a listener that can bind
    port 5000 only. *)
Definition lo0 : Interface := mkInterface "lo0" [[x7f; x00; x00; x01]].
Definition eth0 : Interface := mkInterface "eth0" [IP local].

Definition dotted_IP (ip : list byte) : string :=
  String.concat "." (map (fun b => pretty (Byte.to_N b)) ip).

Definition names : list (string * TCPAddr) :=
  [(dotted_String peer, peer); (dotted_String local, local);
   (":5000", mkTCPAddr [] 5000); (":6000", mkTCPAddr [] 6000);
   ("10.0.0.1:5000", local);
   ("10.0.0.9:5000", mkTCPAddr [x0a; x00; x00; x09] 5000)].

Definition resolve_names (s : string) : TCPAddr + error :=
  match list_find (fun entry => fst entry = s) names with
  | Some (_, (_, a)) => inl a
  | None => inr (errLibrary "no such host")
  end.

(** The scratch socket towards [peer] gets the address [local]; towards
    anything else an address no interface has. *)
Definition route (address : string) : TCPAddr + error :=
  if decide (address = dotted_String peer) then inl local
  else inl (mkTCPAddr [x0a; x00; x00; x08] 5000).

Definition open_live (name : string) : Handle + error :=
  if decide (name = "eth0") then inl 7
  else if decide (name = "lo0") then inl 8
  else inr (errLibrary "no such device").

Definition listen_tcp (laddr : TCPAddr) : (Socket * TCPAddr) + error :=
  if decide (Port laddr = 5000%Z) then inl (mkSocket false true None, laddr)
  else inr (errLibrary "address already in use").

Definition small_host : Host :=
  mkHost (fun _ s => resolve_names s) route dotted_String (inl [lo0; eth0]) open_live
         (fun _ _ => None)
         (fun _ laddr _ => inl (mkSocket true true None, laddr))
         (fun _ laddr => listen_tcp laddr)
         (fun a b => bool_decide (map Byte.to_N a = map Byte.to_N b))
         (fun ip => forallb (fun b => N.eqb (Byte.to_N b) 0) ip)
         dotted_IP.

(** What [Listen] on port 5000 of every interface and [Dial] to [peer]
    give on this host. *)
Definition listening : World :=
  new_conn true (mkSocket false true None) (mkTCPAddr [] 5000) [8; 7].

Definition listening_log : list setup_event :=
  [SuOpenLive "lo0" 8; SuSetBPFFilter 8 "tcp and dst port 5000";
   SuOpenLive "eth0" 7; SuSetBPFFilter 7 "tcp and dst port 5000";
   SuListenTCP (mkTCPAddr [] 5000); SuCapture 8; SuCapture 7; SuAccept].

Definition dialed_log : list setup_event :=
  [SuDialUDP local; SuOpenLive "eth0" 7; SuCloseUDP;
   SuSetBPFFilter 7
     "tcp and dst host 10.0.0.1 and dst port 5000 and src host 10.0.0.2 and src port 4000";
   SuDialTCP local peer; SuCapture 7; SuSetTTL 0; SuDiscard].

(** A data segment of [other], and the listening connection with both
    capture loops parked: the one of handle 8 with the data of [peer],
    the one of handle 7 with the data of [other]. *)
Definition other_data : Packet :=
  mkPacket (Some peer_eth) None (Some (IPv4.mk (IP other) (IP local) 6 4 8 0 55)) None
           (TCP.mk 4000 5000 501 0 false false false true true 512 [x68; x69]).

Definition two_parked : World :=
  fst (capture_packet (net := dotted_net) 7 other_data
         (fst (capture_packet (net := dotted_net) 8 ping listening))).

(** * Properties *)

Section Properties.
Context `{net : Net}.

(** ** The flow table *)

Lemma visit_old key w e :
  flows (conn w) !! key = Some e -> visit key w = (e, w).
Proof. intros H. unfold visit. now rewrite H. Qed.

Lemma visit_new key w :
  flows (conn w) !! key = None ->
  visit key w = (mkFlow None (nextChan w) 0 0 None None, snd (make_chan w)).
Proof. intros H. unfold visit. now rewrite H. Qed.

Lemma closes_app c tr1 tr2 : closes c (tr1 ++ tr2) = closes c tr1 + closes c tr2.
Proof. unfold closes. now rewrite List.filter_app, List.length_app. Qed.

Lemma closes_close c c' : closes c [EvCloseChan c'] = if bool_decide (c' = c) then 1 else 0.
Proof. unfold closes. simpl. now destruct (bool_decide (c' = c)). Qed.

Lemma new_conn_wf srv sock laddr hs : wf (new_conn srv sock laddr hs).
Proof.
  constructor; simpl; intros; try (rewrite lookup_empty in *; discriminate).
  - lia.
  - set_solver.
  - unfold closes. simpl. rewrite bool_decide_eq_false_2; [reflexivity | set_solver].
  - set_solver.
  - discriminate.
Qed.

Lemma visit_wf key w e w1 :
  wf w -> visit key w = (e, w1) ->
  wf w1 /\ visiting key e w1 /\ conn w1 = conn w /\ closed w1 = closed w /\
  trace w1 = trace w /\ sendq w1 = sendq w /\
  (flows (conn w) !! key = Some e \/
   flows (conn w) !! key = None /\ ready e ∉ closed w).
Proof.
  intros Hwf Hv. unfold visit in Hv.
  destruct (flows (conn w) !! key) as [e0|] eqn:Hk.
  - inversion Hv; subst.
    destruct (wf_ready _ Hwf _ _ Hk) as [Hlt Hne].
    unfold visiting. split_and!; auto.
    + intros k2 e2 H2 Heq. exact (wf_inj _ Hwf _ _ _ _ H2 Hk Heq).
    + intros Hc. exact (wf_populated _ Hwf _ _ Hk Hc).
  - simpl in Hv. inversion Hv; subst; clear Hv. simpl.
    assert (Hfresh : nextChan w ∉ closed w).
    { intros Hc. apply (wf_closed _ Hwf) in Hc. lia. }
    unfold visiting. simpl. split_and!; auto.
    + constructor; simpl.
      * pose proof (wf_die _ Hwf). lia.
      * intros c Hc. apply (wf_closed _ Hwf) in Hc. lia.
      * intros k e He. destruct (wf_ready _ Hwf _ _ He). split; [lia | assumption].
      * exact (wf_inj _ Hwf).
      * exact (wf_populated _ Hwf).
      * exact (wf_once _ Hwf).
      * exact (wf_die_open _ Hwf).
      * exact (wf_die_closed _ Hwf).
    + pose proof (wf_die _ Hwf). lia.
    + intros k2 e2 H2 Heq. destruct (wf_ready _ Hwf _ _ H2). lia.
    + intros Hc. contradiction.
Qed.

Lemma write_back_wf key e e' w :
  wf w -> visiting key e w -> ready e' = ready e ->
  (ready e ∈ closed w -> populated e') ->
  wf (set_flows (<[key := e']> (flows (conn w))) w).
Proof.
  intros Hwf (Hlt & Hne & Hinj & Hpop) Hr Hp.
  constructor; simpl.
  - exact (wf_die _ Hwf).
  - exact (wf_closed _ Hwf).
  - intros k e0. rewrite lookup_insert. case_decide.
    + intros [= <-]. rewrite Hr. now split.
    + exact (wf_ready _ Hwf k e0).
  - intros k1 k2 e1 e2. rewrite !lookup_insert. repeat case_decide; subst.
    + reflexivity.
    + intros [= <-] H2 Heq. symmetry. apply (Hinj _ _ H2). congruence.
    + intros H1 [= <-] Heq. apply (Hinj _ _ H1). congruence.
    + exact (wf_inj _ Hwf k1 k2 e1 e2).
  - intros k e0. rewrite lookup_insert. case_decide.
    + intros [= <-]. rewrite Hr. exact Hp.
    + exact (wf_populated _ Hwf k e0).
  - exact (wf_once _ Hwf).
  - exact (wf_die_open _ Hwf).
  - exact (wf_die_closed _ Hwf).
Qed.

Lemma write_back_close_wf key e e' w :
  wf w -> visiting key e w -> ready e' = ready e ->
  ready e ∉ closed w -> populated e' ->
  wf (set_flows (<[key := e']> (flows (conn (close_chan (ready e) w))))
                (close_chan (ready e) w)).
Proof.
  intros Hwf (Hlt & Hne & Hinj & Hpop) Hr Hnc Hp.
  constructor; simpl.
  - exact (wf_die _ Hwf).
  - intros c Hc. apply elem_of_union in Hc as [Hc|Hc].
    + apply elem_of_singleton in Hc. now subst.
    + exact (wf_closed _ Hwf c Hc).
  - intros k e0. rewrite lookup_insert. case_decide.
    + intros [= <-]. rewrite Hr. now split.
    + exact (wf_ready _ Hwf k e0).
  - intros k1 k2 e1 e2. rewrite !lookup_insert. repeat case_decide; subst.
    + reflexivity.
    + intros [= <-] H2 Heq. symmetry. apply (Hinj _ _ H2). congruence.
    + intros H1 [= <-] Heq. apply (Hinj _ _ H1). congruence.
    + exact (wf_inj _ Hwf k1 k2 e1 e2).
  - intros k e0. rewrite lookup_insert. case_decide.
    + intros [= <-] _. exact Hp.
    + intros H0 Hc. apply elem_of_union in Hc as [Hc|Hc].
      * apply elem_of_singleton in Hc. exfalso. apply H. symmetry. now apply (Hinj _ _ H0).
      * exact (wf_populated _ Hwf k e0 H0 Hc).
  - intros c. rewrite closes_app, closes_close, (wf_once _ Hwf).
    destruct (decide (ready e = c)) as [Hd|Hd].
    + subst c.
      rewrite (bool_decide_eq_true_2 (ready e = ready e)) by reflexivity.
      rewrite (bool_decide_eq_false_2 (ready e ∈ closed w)) by assumption.
      rewrite (bool_decide_eq_true_2 (ready e ∈ {[ready e]} ∪ closed w)) by set_solver.
      reflexivity.
    + rewrite (bool_decide_eq_false_2 (ready e = c)) by assumption.
      destruct (decide (c ∈ closed w)).
      * rewrite (bool_decide_eq_true_2 (c ∈ closed w)) by assumption.
        rewrite (bool_decide_eq_true_2 (c ∈ {[ready e]} ∪ closed w)) by set_solver.
        reflexivity.
      * rewrite (bool_decide_eq_false_2 (c ∈ closed w)) by assumption.
        rewrite (bool_decide_eq_false_2 (c ∈ {[ready e]} ∪ closed w))
          by (intros [Hx|Hx]%elem_of_union;
              [apply elem_of_singleton in Hx; congruence | contradiction]).
        reflexivity.
  - intros Hd Hc. apply elem_of_union in Hc as [Hc|Hc].
    + apply elem_of_singleton in Hc. now apply Hne.
    + exact (wf_die_open _ Hwf Hd Hc).
  - intros Hd. apply elem_of_union_r. exact (wf_die_closed _ Hwf Hd).
Qed.

Lemma same_templates_refl e : same_templates e e.
Proof. now unfold same_templates. Qed.

Lemma same_templates_populated e e' : same_templates e e' -> populated e -> populated e'.
Proof. unfold same_templates, populated. intros (_ & -> & -> & ->). auto. Qed.

Lemma ack_add_gentle n : gentle (ack_add n).
Proof. intros e w. unfold ack_add. apply gentle_keep; [reflexivity|]. now unfold same_templates. Qed.

Lemma seq_add_gentle n : gentle (seq_add n).
Proof. intros e w. unfold seq_add. apply gentle_keep; [reflexivity|]. now unfold same_templates. Qed.

Lemma get_ready_gentle : gentle get_ready.
Proof. intros e w. unfold get_ready. apply gentle_keep; [reflexivity|]. now unfold same_templates. Qed.

Lemma get_flow_gentle : gentle get_flow.
Proof. intros e w. unfold get_flow. apply gentle_keep; [reflexivity|]. now unfold same_templates. Qed.

Lemma follow_gentle h packet : gentle (follow h packet).
Proof.
  intros e w. unfold follow, is_closed. simpl.
  destruct (decide (ready e ∈ closed w)) as [Hc|Hc].
  - rewrite bool_decide_eq_true_2 by assumption.
    apply gentle_keep; [reflexivity|]. now unfold same_templates.
  - rewrite bool_decide_eq_false_2 by assumption.
    destruct (link_template packet) as [l|].
    + destruct (network_template packet) as [n|].
      * apply gentle_signal; [reflexivity | assumption |].
        unfold populated. simpl. eauto.
      * apply gentle_keep; [reflexivity | intros; contradiction].
    + apply gentle_keep; [reflexivity | intros; contradiction].
Qed.

(** ** [lockflow] keeps states well-formed *)

Lemma lockflow_wf {A : Type} a (f : tcpFlow -> World -> A * tcpFlow * World) w :
  gentle f -> wf w -> wf (snd (lockflow a f w)).
Proof.
  intros Hg Hwf. unfold lockflow.
  destruct (visit (TCPAddr_String a) w) as [e w1] eqn:Hv.
  destruct (visit_wf _ _ _ _ Hwf Hv) as (Hwf1 & Hvis & _).
  specialize (Hg e w1). inversion Hg as [r e' Hr Hs Heq | r e' Hr Hnc Hp Heq]; simpl.
  - apply write_back_wf with (e := e); try assumption.
    intros Hc. apply (same_templates_populated e); [now apply Hs|].
    destruct Hvis as (_ & _ & _ & Hpop). now apply Hpop.
  - now apply write_back_close_wf.
Qed.

(** A latch that is closed stays closed. *)
Lemma lockflow_closed_mono {A : Type} a (f : tcpFlow -> World -> A * tcpFlow * World) w :
  gentle f -> closed w ⊆ closed (snd (lockflow a f w)).
Proof.
  intros Hg. unfold lockflow.
  destruct (visit (TCPAddr_String a) w) as [e w1] eqn:Hv.
  assert (Hc : closed w1 = closed w).
  { unfold visit in Hv. destruct (flows (conn w) !! TCPAddr_String a); inversion Hv; reflexivity. }
  specialize (Hg e w1).
  inversion Hg; simpl; rewrite Hc; first [reflexivity | apply union_subseteq_r].
Qed.

(** [lockflow] never removes an entry, and an entry whose latch is closed
    keeps its latch, handle and templates. *)
Lemma lockflow_stable {A : Type} a (f : tcpFlow -> World -> A * tcpFlow * World) w k e :
  gentle f ->
  flows (conn w) !! k = Some e -> ready e ∈ closed w ->
  exists e', flows (conn (snd (lockflow a f w))) !! k = Some e' /\ same_templates e e'.
Proof.
  intros Hg Hk Hc. unfold lockflow.
  destruct (visit (TCPAddr_String a) w) as [e0 w1] eqn:Hv.
  assert (Hw1 : flows (conn w1) = flows (conn w) /\ closed w1 = closed w).
  { unfold visit in Hv. destruct (flows (conn w) !! TCPAddr_String a); inversion Hv; auto. }
  destruct Hw1 as [Hfl Hcl].
  destruct (decide (k = TCPAddr_String a)) as [->|Hne].
  - assert (e0 = e) as ->.
    { unfold visit in Hv. rewrite Hk in Hv. now inversion Hv. }
    specialize (Hg e w1).
    inversion Hg as [r e' Hr Hs Heq | r e' Hr Hnc Hp Heq]; simpl.
    + exists e'. rewrite lookup_insert_eq. split; [reflexivity|]. apply Hs. now rewrite Hcl.
    + exfalso. apply Hnc. now rewrite Hcl.
  - exists e. split; [|apply same_templates_refl].
    specialize (Hg e0 w1). inversion Hg; simpl;
      rewrite lookup_insert_ne by congruence; now rewrite Hfl.
Qed.

(** ** The other steps *)

Lemma deleteflow_wf a w : wf w -> wf (deleteflow a w).
Proof.
  intros Hwf. unfold deleteflow. constructor; simpl.
  - exact (wf_die _ Hwf).
  - exact (wf_closed _ Hwf).
  - intros k e. rewrite lookup_delete. case_decide; [discriminate|].
    exact (wf_ready _ Hwf k e).
  - intros k1 k2 e1 e2. rewrite !lookup_delete. repeat case_decide; try discriminate.
    exact (wf_inj _ Hwf k1 k2 e1 e2).
  - intros k e. rewrite lookup_delete. case_decide; [discriminate|].
    exact (wf_populated _ Hwf k e).
  - exact (wf_once _ Hwf).
  - exact (wf_die_open _ Hwf).
  - exact (wf_die_closed _ Hwf).
Qed.

Lemma set_sendq_wf q w : wf w -> wf (set_sendq q w).
Proof. intros [H1 H2 H3 H4 H5 H6 H7 H8]. constructor; assumption. Qed.

Lemma push_wf m w : wf w -> wf (fst (push m w)).
Proof.
  intros Hwf. unfold push. destruct (is_closed (die (conn w)) w); simpl;
    [assumption | now apply set_sendq_wf].
Qed.

Lemma ReadFrom_wf p w : wf w -> wf (snd (ReadFrom p w)).
Proof.
  intros Hwf. unfold ReadFrom. destruct (is_closed (die (conn w)) w); simpl; [assumption|].
  destruct (sendq w); simpl; [assumption | now apply set_sendq_wf].
Qed.

Lemma emit_wf ev w : (forall c, is_close_of c ev = false) -> wf w -> wf (emit ev w).
Proof.
  intros Hev [H1 H2 H3 H4 H5 H6 H7 H8]. constructor; simpl; try assumption.
  intros c. rewrite closes_app, H6. unfold closes. simpl. rewrite Hev. simpl. lia.
Qed.

Lemma emit_handles hs w :
  fold_left (fun w h => emit (EvHandleClose h) w) hs w =
  mkWorld (conn w) (closed w) (nextChan w) (sendq w) (trace w ++ map EvHandleClose hs).
Proof.
  revert w. induction hs as [|h hs IH]; intros w; simpl.
  - rewrite app_nil_r. now destruct w.
  - rewrite IH. simpl. now rewrite <- app_assoc.
Qed.

Lemma Close_again w : dieOnce (conn w) = true -> Close w = (None, w).
Proof. intros H. unfold Close. now rewrite H. Qed.

Lemma Close_first w :
  dieOnce (conn w) = false ->
  Close w =
  (closeResult (socket (conn w)),
   set_dieOnce (mkWorld (conn w) ({[die (conn w)]} ∪ closed w) (nextChan w) (sendq w)
                        (trace w ++ EvCloseChan (die (conn w)) :: shutdown_events (conn w)))).
Proof.
  intros H. unfold Close. rewrite H. rewrite emit_handles. simpl.
  unfold shutdown_events, ttl_events, setttl.
  destruct (isTCPConn (socket (conn w))), (localIs4 (socket (conn w))); simpl;
    unfold set_dieOnce, emit; simpl;
    rewrite <- ?app_assoc; simpl; reflexivity.
Qed.

Lemma closes_shutdown c cn : closes c (shutdown_events cn) = 0.
Proof.
  unfold shutdown_events. rewrite !closes_app.
  assert (closes c (map EvHandleClose (handles cn)) = 0) as ->.
  { induction (handles cn) as [|h hs IH]; [reflexivity | exact IH]. }
  unfold ttl_events. destruct (isTCPConn (socket cn)), (localIs4 (socket cn)); reflexivity.
Qed.

Lemma Close_wf w : wf w -> wf (snd (Close w)).
Proof.
  intros Hwf. destruct (dieOnce (conn w)) eqn:Hd.
  - now rewrite Close_again.
  - rewrite Close_first by assumption. simpl.
    pose proof (wf_die_open _ Hwf Hd) as Hopen.
    constructor; simpl.
    + exact (wf_die _ Hwf).
    + intros c Hc. apply elem_of_union in Hc as [Hc|Hc].
      * apply elem_of_singleton in Hc. subst. exact (wf_die _ Hwf).
      * exact (wf_closed _ Hwf c Hc).
    + exact (wf_ready _ Hwf).
    + exact (wf_inj _ Hwf).
    + intros k e Hk Hc. apply elem_of_union in Hc as [Hc|Hc].
      * apply elem_of_singleton in Hc. destruct (wf_ready _ Hwf _ _ Hk). contradiction.
      * exact (wf_populated _ Hwf k e Hk Hc).
    + intros c.
      change (trace w ++ EvCloseChan (die (conn w)) :: shutdown_events (conn w))
        with (trace w ++ [EvCloseChan (die (conn w))] ++ shutdown_events (conn w)).
      rewrite !closes_app, closes_close, closes_shutdown, (wf_once _ Hwf).
      destruct (decide (die (conn w) = c)) as [Hdc|Hdc].
      * subst c.
        rewrite (bool_decide_eq_true_2 (die (conn w) = die (conn w))) by reflexivity.
        rewrite (bool_decide_eq_false_2 (die (conn w) ∈ closed w)) by assumption.
        rewrite (bool_decide_eq_true_2 (die (conn w) ∈ {[die (conn w)]} ∪ closed w))
          by set_solver.
        reflexivity.
      * rewrite (bool_decide_eq_false_2 (die (conn w) = c)) by assumption.
        destruct (decide (c ∈ closed w)).
        -- rewrite (bool_decide_eq_true_2 (c ∈ closed w)) by assumption.
           rewrite (bool_decide_eq_true_2 (c ∈ {[die (conn w)]} ∪ closed w)) by set_solver.
           reflexivity.
        -- rewrite (bool_decide_eq_false_2 (c ∈ closed w)) by assumption.
           rewrite (bool_decide_eq_false_2 (c ∈ {[die (conn w)]} ∪ closed w))
             by (intros [Hx|Hx]%elem_of_union;
                 [apply elem_of_singleton in Hx; congruence | contradiction]).
           reflexivity.
    + discriminate.
    + intros _. apply elem_of_union_l, elem_of_singleton. reflexivity.
Qed.

(** ** Every reachable state is well-formed *)

Lemma step_wf w w' : step w w' -> wf w -> wf w'.
Proof.
  intros Hs Hwf. destruct Hs.
  - apply lockflow_wf; [apply follow_gentle | assumption].
  - apply lockflow_wf; [apply ack_add_gentle | assumption].
  - now apply push_wf.
  - now apply deleteflow_wf.
  - apply lockflow_wf; [apply get_ready_gentle | assumption].
  - apply lockflow_wf; [apply get_flow_gentle | assumption].
  - apply emit_wf; [reflexivity | assumption].
  - apply lockflow_wf; [apply seq_add_gentle | assumption].
  - now apply ReadFrom_wf.
  - now apply Close_wf.
Qed.

Lemma steps_wf w w' : rtc step w w' -> wf w -> wf w'.
Proof. induction 1; eauto using step_wf. Qed.

Lemma reachable_wf w : reachable w -> wf w.
Proof.
  intros (srv & sock & laddr & hs & Hr).
  apply (steps_wf _ _ Hr). apply new_conn_wf.
Qed.

(** ** What a step does to a ready entry *)

Lemma step_closed_mono w w' : step w w' -> closed w ⊆ closed w'.
Proof.
  intros Hs. destruct Hs.
  - apply lockflow_closed_mono, follow_gentle.
  - apply lockflow_closed_mono, ack_add_gentle.
  - unfold push. destruct (is_closed _ _); simpl; set_solver.
  - unfold deleteflow. simpl. set_solver.
  - apply lockflow_closed_mono, get_ready_gentle.
  - apply lockflow_closed_mono, get_flow_gentle.
  - simpl. set_solver.
  - apply lockflow_closed_mono, seq_add_gentle.
  - unfold ReadFrom. destruct (is_closed _ _); simpl; [set_solver|].
    destruct (sendq w); simpl; set_solver.
  - destruct (dieOnce (conn w)) eqn:Hd.
    + rewrite Close_again by assumption. set_solver.
    + rewrite Close_first by assumption. simpl. set_solver.
Qed.

Lemma steps_closed_mono w w' : rtc step w w' -> closed w ⊆ closed w'.
Proof.
  induction 1 as [|x y z Hxy _ IH]; [set_solver|].
  apply step_closed_mono in Hxy. set_solver.
Qed.

Lemma Close_flows w : flows (conn (snd (Close w))) = flows (conn w).
Proof.
  destruct (dieOnce (conn w)) eqn:Hd.
  - now rewrite Close_again.
  - now rewrite Close_first.
Qed.

Lemma ReadFrom_conn p w : conn (snd (ReadFrom p w)) = conn w.
Proof.
  unfold ReadFrom. destruct (is_closed _ _); simpl; [reflexivity|].
  now destruct (sendq w).
Qed.

Lemma push_conn m w : conn (fst (push m w)) = conn w.
Proof. unfold push. now destruct (is_closed _ _). Qed.

(** A step deletes a ready entry or leaves its latch, handle and
    templates as they are. *)
Lemma step_stable w w' k e :
  step w w' -> flows (conn w) !! k = Some e -> ready e ∈ closed w ->
  flows (conn w') !! k = None \/
  exists e', flows (conn w') !! k = Some e' /\ same_templates e e'.
Proof.
  intros Hs Hk Hc.
  assert (Hsame : forall w2, flows (conn w2) = flows (conn w) ->
            flows (conn w2) !! k = None \/
            exists e', flows (conn w2) !! k = Some e' /\ same_templates e e').
  { intros w2 ->. right. exists e. split; [assumption | apply same_templates_refl]. }
  destruct Hs.
  - right. apply lockflow_stable; [apply follow_gentle | assumption..].
  - right. apply lockflow_stable; [apply ack_add_gentle | assumption..].
  - apply Hsame. now rewrite push_conn.
  - unfold deleteflow. simpl. rewrite lookup_delete. case_decide; [now left|].
    right. exists e. split; [assumption | apply same_templates_refl].
  - right. apply lockflow_stable; [apply get_ready_gentle | assumption..].
  - right. apply lockflow_stable; [apply get_flow_gentle | assumption..].
  - apply Hsame. reflexivity.
  - right. apply lockflow_stable; [apply seq_add_gentle | assumption..].
  - apply Hsame. now rewrite ReadFrom_conn.
  - apply Hsame. apply Close_flows.
Qed.

Lemma lockflow_absent {A : Type} a (f : tcpFlow -> World -> A * tcpFlow * World) w r :
  gentle f -> latch_absent r w -> latch_absent r (snd (lockflow a f w)).
Proof.
  intros Hg [Hlt Habs]. unfold lockflow.
  destruct (visit (TCPAddr_String a) w) as [e0 w1] eqn:Hv.
  assert (H1 : flows (conn w1) = flows (conn w) /\ r < nextChan w1 /\ ready e0 <> r).
  { unfold visit in Hv. destruct (flows (conn w) !! TCPAddr_String a) eqn:Hk.
    - inversion Hv; subst. eauto.
    - inversion Hv; subst. simpl. split_and!; [reflexivity | lia | lia]. }
  destruct H1 as (Hfl & Hlt1 & Hr0).
  specialize (Hg e0 w1).
  inversion Hg as [x e' Hr Hs Heq | x e' Hr Hnc Hp Heq]; unfold latch_absent; simpl.
  - split; [assumption|]. intros k e. rewrite lookup_insert. case_decide.
    + intros [= <-]. congruence.
    + rewrite Hfl. apply Habs.
  - split; [assumption|]. intros k e. rewrite lookup_insert. case_decide.
    + intros [= <-]. congruence.
    + rewrite Hfl. apply Habs.
Qed.

Lemma Close_nextChan w : nextChan (snd (Close w)) = nextChan w.
Proof.
  destruct (dieOnce (conn w)) eqn:Hd.
  - now rewrite Close_again.
  - now rewrite Close_first.
Qed.

Lemma step_absent w w' r : step w w' -> latch_absent r w -> latch_absent r w'.
Proof.
  intros Hs Habs. destruct Hs.
  - apply lockflow_absent; [apply follow_gentle | assumption].
  - apply lockflow_absent; [apply ack_add_gentle | assumption].
  - unfold push. destruct (is_closed _ _); simpl; assumption.
  - destruct Habs as [Hlt Habs]. split; [assumption|].
    unfold deleteflow. simpl. intros k e. rewrite lookup_delete.
    case_decide; [discriminate | apply Habs].
  - apply lockflow_absent; [apply get_ready_gentle | assumption].
  - apply lockflow_absent; [apply get_flow_gentle | assumption].
  - assumption.
  - apply lockflow_absent; [apply seq_add_gentle | assumption].
  - unfold ReadFrom. destruct (is_closed _ _); simpl; [assumption|].
    destruct (sendq w); simpl; assumption.
  - destruct Habs as [Hlt Habs]. split.
    + now rewrite Close_nextChan.
    + now rewrite Close_flows.
Qed.

(** One step on a ready entry: it keeps its latch, handle and templates,
    or its latch leaves the table. *)
Lemma step_keep_or_drop w w' k e :
  wf w -> step w w' ->
  flows (conn w) !! k = Some e -> ready e ∈ closed w ->
  (exists e', flows (conn w') !! k = Some e' /\ same_templates e e') \/
  latch_absent (ready e) w'.
Proof.
  intros Hwf Hs Hk Hc.
  assert (Hsame : forall w2, flows (conn w2) = flows (conn w) ->
            (exists e', flows (conn w2) !! k = Some e' /\ same_templates e e') \/
            latch_absent (ready e) w2).
  { intros w2 ->. left. exists e. split; [assumption | apply same_templates_refl]. }
  destruct Hs.
  - left. apply lockflow_stable; [apply follow_gentle | assumption..].
  - left. apply lockflow_stable; [apply ack_add_gentle | assumption..].
  - apply Hsame. now rewrite push_conn.
  - destruct (decide (k = TCPAddr_String a)) as [Heq|Hne].
    + right. destruct (wf_ready _ Hwf _ _ Hk) as [Hlt _].
      unfold latch_absent, deleteflow. simpl. split; [assumption|].
      intros k2 e2. rewrite lookup_delete. case_decide as Hd; [discriminate|].
      intros Hk2 Hr. apply Hd. rewrite <- Heq.
      symmetry. exact (wf_inj _ Hwf _ _ _ _ Hk2 Hk Hr).
    + left. exists e. split; [|apply same_templates_refl].
      unfold deleteflow. simpl. rewrite lookup_delete_ne by congruence. assumption.
  - left. apply lockflow_stable; [apply get_ready_gentle | assumption..].
  - left. apply lockflow_stable; [apply get_flow_gentle | assumption..].
  - apply Hsame. reflexivity.
  - left. apply lockflow_stable; [apply seq_add_gentle | assumption..].
  - apply Hsame. now rewrite ReadFrom_conn.
  - apply Hsame. apply Close_flows.
Qed.

(** Over any number of steps: the entry keeps its latch, handle and
    templates, or its latch has left the table for good. *)
Lemma lifetime w w' k e :
  wf w -> rtc step w w' ->
  flows (conn w) !! k = Some e -> ready e ∈ closed w ->
  (exists e', flows (conn w') !! k = Some e' /\ same_templates e e') \/
  latch_absent (ready e) w'.
Proof.
  intros Hwf Hr Hk Hc. revert w' Hr.
  apply (rtc_ind_r (fun w' =>
    (exists e', flows (conn w') !! k = Some e' /\ same_templates e e') \/
    latch_absent (ready e) w')); [|intros y z Hwy Hyz IH].
  - left. exists e. split; [assumption | apply same_templates_refl].
  - pose proof (steps_wf _ _ Hwy Hwf) as Hwfy.
    destruct IH as [(e1 & Hk1 & Hs1) | Habs].
    + assert (Hc1 : ready e1 ∈ closed y).
      { destruct Hs1 as [-> _]. apply (steps_closed_mono _ _ Hwy). assumption. }
      destruct (step_keep_or_drop _ _ _ _ Hwfy Hyz Hk1 Hc1) as [(e2 & Hk2 & Hs2) | Habs].
      * left. exists e2. split; [assumption|].
        unfold same_templates in *.
        destruct Hs1 as (? & ? & ? & ?), Hs2 as (? & ? & ? & ?).
        split_and!; congruence.
      * right. destruct Hs1 as [<- _]. assumption.
    + right. now apply (step_absent _ _ _ Hyz).
Qed.

(** ** The operations are sequences of steps *)

Lemma capture_follow_steps h packet w : rtc step w (capture_follow h packet w).
Proof.
  unfold capture_follow.
  destruct (negb (TCP.FIN (TransportLayer packet)) && negb (TCP.RST (TransportLayer packet))).
  - apply rtc_once, step_follow.
  - apply rtc_refl.
Qed.

Lemma capture_deliver_steps packet w : rtc step w (fst (capture_deliver packet w)).
Proof.
  unfold capture_deliver.
  destruct (TCP.SYN (TransportLayer packet)); simpl.
  { apply rtc_once, step_ack. }
  destruct (TCP.PSH (TransportLayer packet)); simpl.
  { eapply rtc_l; [apply step_ack | apply rtc_once, step_push]. }
  destruct (TCP.FIN (TransportLayer packet) || TCP.RST (TransportLayer packet)); simpl.
  - apply rtc_once, step_delete.
  - apply rtc_refl.
Qed.

Lemma capture_packet_steps h packet w : rtc step w (fst (capture_packet h packet w)).
Proof.
  unfold capture_packet.
  eapply rtc_trans; [apply capture_follow_steps | apply capture_deliver_steps].
Qed.

Lemma captureFlow_steps h packets w : rtc step w (captureFlow h packets w).
Proof.
  revert w. induction packets as [|packet rest IH]; intros w; simpl; [apply rtc_refl|].
  pose proof (capture_packet_steps h packet w) as Hs.
  destruct (capture_packet h packet w) as [w1 [| |]]; simpl in Hs; [|exact Hs..].
  exact (rtc_trans _ _ _ Hs (IH w1)).
Qed.

Lemma WriteTo_ready_steps p a werr w : rtc step w (snd (WriteTo_ready p a werr w)).
Proof.
  unfold WriteTo_ready.
  destruct (ResolveTCPAddr (TCPAddr_String a)) as [tcpaddr|err]; [|apply rtc_refl].
  destruct (lockflow a get_flow w) as [flow w1] eqn:Hl.
  assert (Hs : step w w1) by (replace w1 with (snd (lockflow a get_flow w)) by (now rewrite Hl);
                              apply step_get_flow).
  destruct (networkLayer flow); [|now apply rtc_once].
  destruct (linkLayer flow); [|now apply rtc_once].
  destruct (handle flow); [|now apply rtc_once].
  destruct werr; simpl.
  - eapply rtc_l; [exact Hs | apply rtc_once, step_write].
  - eapply rtc_l; [exact Hs|]. eapply rtc_l; [apply step_write | apply rtc_once, step_seq].
Qed.

Lemma WriteTo_steps p a pick werr w : rtc step w (snd (WriteTo p a pick werr w)).
Proof.
  unfold WriteTo.
  destruct (lockflow a get_ready w) as [rdy w1] eqn:Hl.
  assert (Hs : step w w1) by (replace w1 with (snd (lockflow a get_ready w)) by (now rewrite Hl);
                              apply step_get_ready).
  unfold WriteTo_wait.
  destruct (select_die_ready pick rdy w1) as [[|]|]; simpl; try (now apply rtc_once).
  eapply rtc_l; [exact Hs | apply WriteTo_ready_steps].
Qed.

Lemma reachable_steps w w' : reachable w -> rtc step w w' -> reachable w'.
Proof.
  intros (srv & sock & laddr & hs & Hr) Hs.
  exists srv, sock, laddr, hs. exact (rtc_trans _ _ _ Hr Hs).
Qed.

(** ** The ready latch and the templates (C6) *)

Lemma is_closed_true c w : is_closed c w = true <-> c ∈ closed w.
Proof. unfold is_closed. apply bool_decide_eq_true. Qed.

Lemma is_closed_false c w : is_closed c w = false <-> c ∉ closed w.
Proof. unfold is_closed. apply bool_decide_eq_false. Qed.

(** C6.  In every state a connection can reach, and over every run from
    it: no channel, so no ready latch, is closed more than once; a closed
    latch stays closed; an entry whose latch is closed has its handle and
    both templates set; one step either deletes that entry or leaves its
    latch, handle and templates as they are; and as long as the table
    holds an entry with that latch, it is under the same peer and has the
    same handle and templates. *)
Theorem ready_once_templates_fixed (w w' : World) :
  reachable w -> rtc step w w' ->
  (forall c, closes c (trace w') <= 1) /\
  (forall c, is_closed c w = true -> is_closed c w' = true) /\
  (forall k e, flows (conn w) !! k = Some e -> is_closed (ready e) w = true ->
     populated e /\
     (forall w1, step w w1 ->
        flows (conn w1) !! k = None \/
        exists e1, flows (conn w1) !! k = Some e1 /\ same_templates e e1) /\
     (forall k' e', flows (conn w') !! k' = Some e' -> ready e' = ready e ->
        k' = k /\ same_templates e e' /\ populated e')).
Proof.
  intros Hreach Hrun.
  pose proof (reachable_wf _ Hreach) as Hwf.
  pose proof (steps_wf _ _ Hrun Hwf) as Hwf'.
  split_and!.
  - intros c. rewrite (wf_once _ Hwf'). destruct (bool_decide _); lia.
  - intros c Hc. apply is_closed_true. apply is_closed_true in Hc.
    now apply (steps_closed_mono _ _ Hrun).
  - intros k e Hk Hc. apply is_closed_true in Hc.
    pose proof (wf_populated _ Hwf _ _ Hk Hc) as Hpop.
    split_and!.
    + exact Hpop.
    + intros w1 Hs. exact (step_stable _ _ _ _ Hs Hk Hc).
    + intros k' e' Hk' Hr.
      destruct (lifetime _ _ _ _ Hwf Hrun Hk Hc) as [(e1 & Hk1 & Hs1) | [_ Habs]].
      * assert (k' = k) as ->.
        { apply (wf_inj _ Hwf' _ _ _ _ Hk' Hk1). destruct Hs1 as [-> _]. assumption. }
        assert (e' = e1) as -> by congruence.
        split_and!; [reflexivity | assumption |].
        now apply (same_templates_populated e).
      * exfalso. exact (Habs _ _ Hk' Hr).
Qed.

(** ** What [lockflow] leaves alone *)

Lemma visit_frame key w :
  conn (snd (visit key w)) = conn w /\ closed (snd (visit key w)) = closed w /\
  sendq (snd (visit key w)) = sendq w /\ trace (snd (visit key w)) = trace w.
Proof. unfold visit. destruct (flows (conn w) !! key); simpl; auto. Qed.

Lemma lockflow_unfold {A : Type} a (f : tcpFlow -> World -> A * tcpFlow * World) w e w1 r e' w2 :
  visit (TCPAddr_String a) w = (e, w1) -> f e w1 = (r, e', w2) ->
  lockflow a f w = (r, set_flows (<[TCPAddr_String a := e']> (flows (conn w2))) w2).
Proof. intros Hv Hf. unfold lockflow. now rewrite Hv, Hf. Qed.

Lemma lockflow_frame {A : Type} a (f : tcpFlow -> World -> A * tcpFlow * World) w :
  gentle f ->
  let w' := snd (lockflow a f w) in
  sendq w' = sendq w /\ die (conn w') = die (conn w) /\
  dieOnce (conn w') = dieOnce (conn w) /\ localAddr (conn w') = localAddr (conn w) /\
  handles (conn w') = handles (conn w) /\ socket (conn w') = socket (conn w).
Proof.
  intros Hg. unfold lockflow.
  destruct (visit (TCPAddr_String a) w) as [e w1] eqn:Hv.
  pose proof (visit_frame (TCPAddr_String a) w) as (Hc & _ & Hq & _).
  rewrite Hv in Hc, Hq. simpl in Hc, Hq.
  specialize (Hg e w1). inversion Hg; simpl; rewrite Hc, Hq; auto 10.
Qed.

(** A closure that only changes fields of the entry. *)
Lemma lockflow_pure {A : Type} a (g : tcpFlow -> A) (u : tcpFlow -> tcpFlow) w :
  let e := fst (visit (TCPAddr_String a) w) in
  let w1 := snd (visit (TCPAddr_String a) w) in
  lockflow a (fun e w => (g e, u e, w)) w =
  (g e, set_flows (<[TCPAddr_String a := u e]> (flows (conn w1))) w1).
Proof.
  simpl. unfold lockflow. now destruct (visit (TCPAddr_String a) w) as [e w1].
Qed.


Lemma lockflow_lookup {A : Type} a (f : tcpFlow -> World -> A * tcpFlow * World) w :
  let e := fst (visit (TCPAddr_String a) w) in
  let w1 := snd (visit (TCPAddr_String a) w) in
  flows (conn (snd (lockflow a f w))) !! TCPAddr_String a = Some (snd (fst (f e w1))).
Proof.
  simpl. unfold lockflow. destruct (visit (TCPAddr_String a) w) as [e w1]. simpl.
  destruct (f e w1) as [[r e'] w2]. simpl. apply lookup_insert_eq.
Qed.

(** ** The capture loop (C5) *)


(** ** FIN and RST (C2) *)

(** C2.  The code at a FIN or RST segment that also carries SYN or PSH:
    line 169 is not reached, and at the end of the loop body the table
    has an entry for the peer (the one it had, or one that line 160 or
    162 has just created).  The entry is deleted when the segment has
    neither SYN nor PSH. *)
Theorem fin_rst_deletes_only_without_syn_psh (h : Handle) (packet : Packet) (w : World) :
  let t := TransportLayer packet in
  let key := TCPAddr_String (packet_addr packet) in
  let w' := fst (capture_packet h packet w) in
  TCP.FIN t = true \/ TCP.RST t = true ->
  (TCP.SYN t = true \/ TCP.PSH t = true -> is_Some (flows (conn w') !! key)) /\
  (TCP.SYN t = false -> TCP.PSH t = false -> flows (conn w') !! key = None).
Proof.
  intros t key w' Hfr. subst w'.
  assert (Hf : capture_follow h packet w = w).
  { unfold capture_follow. fold t. destruct Hfr as [-> | ->]; [reflexivity|].
    now rewrite andb_false_r. }
  unfold capture_packet. rewrite Hf. unfold capture_deliver. fold t. split.
  - intros Hsp. destruct (TCP.SYN t) eqn:Hsyn; simpl.
    + eexists. apply lockflow_lookup.
    + destruct Hsp as [Hsp|Hpsh]; [discriminate|]. rewrite Hpsh. simpl.
      rewrite push_conn. eexists. apply lockflow_lookup.
  - intros -> ->.
    assert (TCP.FIN t || TCP.RST t = true) as ->.
    { destruct Hfr as [-> | ->]; [reflexivity | apply orb_true_r]. }
    simpl. apply lookup_delete_eq.
Qed.

(** ** [WriteTo] on an entry that is there *)

Lemma set_flows_id w : set_flows (flows (conn w)) w = w.
Proof. destruct w as [[] ? ? ? ?]. reflexivity. Qed.

Lemma lockflow_pure_old {A : Type} a (g : tcpFlow -> A) (u : tcpFlow -> tcpFlow) w e :
  flows (conn w) !! TCPAddr_String a = Some e ->
  lockflow a (fun e w => (g e, u e, w)) w =
  (g e, set_flows (<[TCPAddr_String a := u e]> (flows (conn w))) w).
Proof. intros Hk. unfold lockflow. now rewrite (visit_old _ _ _ Hk). Qed.

Lemma lockflow_get_ready_old a w e :
  flows (conn w) !! TCPAddr_String a = Some e -> lockflow a get_ready w = (ready e, w).
Proof.
  intros Hk. unfold get_ready.
  rewrite (lockflow_pure_old a ready (fun e => e) w e Hk).
  now rewrite (insert_id _ _ _ Hk), set_flows_id.
Qed.

Lemma lockflow_get_flow_old a w e :
  flows (conn w) !! TCPAddr_String a = Some e -> lockflow a get_flow w = (e, w).
Proof.
  intros Hk. unfold get_flow.
  rewrite (lockflow_pure_old a (fun e => e) (fun e => e) w e Hk).
  now rewrite (insert_id _ _ _ Hk), set_flows_id.
Qed.

(** ** A FIN between the two [lockflow]s of [WriteTo] (C1) *)

(** C1.  The code on the interleaving of the claim: the entry of peer [a]
    is ready, [WriteTo] fetches its latch (line 189), the capture loop
    then handles a FIN or RST segment of the peer and deletes the entry,
    and [WriteTo] goes on from its [select].  The latch it holds is
    closed, so the [ready] case runs; the second [lockflow] (line 208)
    finds no entry and creates the default one, and the type assertion on
    its nil [networkLayer] (line 220) panics.  The call neither succeeds
    with the earlier templates nor blocks. *)
Theorem WriteTo_reads_default_entry_after_delete
    (p : list byte) (a : TCPAddr) (pick : select_case) (werr : option error)
    (h : Handle) (fin : Packet) (w : World) (e : tcpFlow) (tcpaddr : TCPAddr) :
  let key := TCPAddr_String a in
  let t := TransportLayer fin in
  flows (conn w) !! key = Some e ->
  is_closed (ready e) w = true ->
  populated e ->
  is_closed (die (conn w)) w = false ->
  ResolveTCPAddr key = inl tcpaddr ->
  packet_addr fin = a ->
  TCP.FIN t = true \/ TCP.RST t = true ->
  TCP.SYN t = false -> TCP.PSH t = false ->
  let rdy := fst (lockflow a get_ready w) in
  let w1 := snd (lockflow a get_ready w) in
  let w2 := fst (capture_packet h fin w1) in
  let w3 := snd (WriteTo_wait p a pick werr rdy w2) in
  rdy = ready e /\
  flows (conn w2) !! key = None /\
  select_die_ready pick rdy w2 = Some CaseReady /\
  fst (lockflow a get_flow w2) = mkFlow None (nextChan w2) 0 0 None None /\
  fst (WriteTo_wait p a pick werr rdy w2) = Panics /\
  flows (conn w3) !! key = Some (mkFlow None (nextChan w2) 0 0 None None) /\
  trace w3 = trace w.
Proof.
  intros key t Hk Hc Hpop Hd Hres Ha Hfr Hsyn Hpsh rdy w1 w2 w3.
  subst rdy w1 w3 w2. rewrite (lockflow_get_ready_old _ _ _ Hk). simpl.
  assert (Hw2 : fst (capture_packet h fin w) = deleteflow a w).
  { unfold capture_packet.
    assert (capture_follow h fin w = w) as ->.
    { unfold capture_follow. fold t. destruct Hfr as [-> | ->]; [reflexivity|].
      now rewrite andb_false_r. }
    unfold capture_deliver. fold t. rewrite Hsyn, Hpsh, Ha.
    assert (TCP.FIN t || TCP.RST t = true) as ->.
    { destruct Hfr as [-> | ->]; [reflexivity | apply orb_true_r]. }
    reflexivity. }
  rewrite Hw2.
  assert (Hnone : flows (conn (deleteflow a w)) !! key = None).
  { unfold deleteflow. simpl. apply lookup_delete_eq. }
  assert (Hsel : select_die_ready pick (ready e) (deleteflow a w) = Some CaseReady).
  { unfold select_die_ready, is_closed in *. simpl. now rewrite Hd, Hc. }
  assert (Hget : lockflow a get_flow (deleteflow a w) =
                 (mkFlow None (nextChan w) 0 0 None None,
                  set_flows (<[key := mkFlow None (nextChan w) 0 0 None None]>
                               (flows (conn (deleteflow a w))))
                            (snd (make_chan (deleteflow a w))))).
  { unfold get_flow, lockflow. fold key. now rewrite (visit_new _ _ Hnone). }
  split_and!.
  - reflexivity.
  - exact Hnone.
  - exact Hsel.
  - now rewrite Hget.
  - unfold WriteTo_wait. rewrite Hsel. unfold WriteTo_ready. fold key.
    rewrite Hres, Hget. reflexivity.
  - unfold WriteTo_wait. rewrite Hsel. unfold WriteTo_ready. fold key.
    rewrite Hres, Hget. simpl. apply lookup_insert_eq.
  - unfold WriteTo_wait. rewrite Hsel. unfold WriteTo_ready. fold key.
    rewrite Hres, Hget. reflexivity.
Qed.

(** ** [Close] (C3) *)

Lemma handle_closes_app h tr1 tr2 :
  handle_closes h (tr1 ++ tr2) = handle_closes h tr1 + handle_closes h tr2.
Proof. unfold handle_closes. now rewrite List.filter_app, List.length_app. Qed.

Lemma socket_closes_app tr1 tr2 :
  socket_closes (tr1 ++ tr2) = socket_closes tr1 + socket_closes tr2.
Proof. unfold socket_closes. now rewrite List.filter_app, List.length_app. Qed.

Lemma handle_closes_handles h hs :
  handle_closes h (map EvHandleClose hs) = count_occ Nat.eq_dec hs h.
Proof.
  unfold handle_closes. induction hs as [|h' hs IH]; simpl; [reflexivity|].
  destruct (Nat.eq_dec h' h) as [->|Hne].
  - rewrite bool_decide_eq_true_2 by reflexivity. simpl. now rewrite IH.
  - rewrite bool_decide_eq_false_2 by assumption. exact IH.
Qed.

Lemma socket_closes_handles hs : socket_closes (map EvHandleClose hs) = 0.
Proof. unfold socket_closes. induction hs; simpl; auto. Qed.

Lemma handle_closes_shutdown h c :
  handle_closes h (EvCloseChan (die c) :: shutdown_events c) = count_occ Nat.eq_dec (handles c) h.
Proof.
  unfold shutdown_events.
  change (handle_closes h (EvCloseChan (die c) ::
            map EvHandleClose (handles c) ++ ttl_events (socket c) ++ [EvSocketClose]))
    with (handle_closes h (map EvHandleClose (handles c) ++ ttl_events (socket c) ++ [EvSocketClose])).
  rewrite !handle_closes_app, handle_closes_handles.
  unfold ttl_events, handle_closes.
  destruct (isTCPConn (socket c)), (localIs4 (socket c)); simpl; lia.
Qed.

Lemma socket_closes_shutdown c :
  socket_closes (EvCloseChan (die c) :: shutdown_events c) = 1.
Proof.
  unfold shutdown_events.
  change (socket_closes (EvCloseChan (die c) ::
            map EvHandleClose (handles c) ++ ttl_events (socket c) ++ [EvSocketClose]))
    with (socket_closes (map EvHandleClose (handles c) ++ ttl_events (socket c) ++ [EvSocketClose])).
  rewrite !socket_closes_app, socket_closes_handles.
  unfold ttl_events. destruct (isTCPConn (socket c)), (localIs4 (socket c)); reflexivity.
Qed.

Lemma Close_times_again n w :
  dieOnce (conn w) = true -> Close_times n w = (replicate n None, w).
Proof.
  intros Hd. induction n as [|n IH]; simpl; [reflexivity|].
  now rewrite (Close_again _ Hd), IH.
Qed.

(** C3, as the code has it.  On a connection that has not been closed,
    [Close] called [n+1] times in a row: the first call returns what
    closing the socket returned, every later call returns nil.  All the
    calls together do what the first call does, in this order: [die] is
    closed; every handle of [conn.handles] is closed, in their order; on
    a socket that is a [*net.TCPConn], which is what [Dial] stores, the
    TTL is set to 64, or the hop limit when the local address is not
    IPv4, and on a listener nothing is set; the socket is closed.  So
    over all the calls each handle is closed as often as it is listed in
    [conn.handles] (once) and the socket is closed once.  The later calls
    leave the state as the first call left it, the flow table and the
    waiting messages untouched by all; [die] is closed; and one more call
    changes nothing. *)
Theorem Close_runs_once (n : nat) (w : World) :
  dieOnce (conn w) = false ->
  let rs := fst (Close_times (S n) w) in
  let w' := snd (Close_times (S n) w) in
  rs = closeResult (socket (conn w)) :: replicate n None /\
  trace w' =
    trace w ++ [EvCloseChan (die (conn w))] ++ map EvHandleClose (handles (conn w))
    ++ (if isTCPConn (socket (conn w))
        then [if localIs4 (socket (conn w)) then EvSetTTL 64 else EvSetHopLimit 64]
        else [])
    ++ [EvSocketClose] /\
  w' = snd (Close w) /\
  flows (conn w') = flows (conn w) /\ sendq w' = sendq w /\
  (forall h, handle_closes h (trace w') =
             handle_closes h (trace w) + count_occ Nat.eq_dec (handles (conn w)) h) /\
  socket_closes (trace w') = socket_closes (trace w) + 1 /\
  is_closed (die (conn w')) w' = true /\
  Close w' = (None, w').
Proof.
  intros Hd. simpl. rewrite (Close_first _ Hd).
  set (w1 := set_dieOnce _).
  assert (Hd1 : dieOnce (conn w1) = true) by reflexivity.
  rewrite (Close_times_again n w1 Hd1). simpl. split_and!.
  - reflexivity.
  - reflexivity.
  - reflexivity.
  - reflexivity.
  - reflexivity.
  - intros h. rewrite handle_closes_app. f_equal. apply handle_closes_shutdown.
  - rewrite socket_closes_app. f_equal. apply socket_closes_shutdown.
  - apply is_closed_true. simpl. apply elem_of_union_l, elem_of_singleton. reflexivity.
  - apply Close_again. reflexivity.
Qed.

(** ** [ReadFrom] (C10) *)

(** C10.  When shutdown is not latched and [packet] is the message
    [ReadFrom] takes from the channel: it returns [n], the smaller of the
    two lengths, the peer address and no error; the buffer holds the
    first [n] bytes of the payload followed by what it held beyond [n];
    its length is unchanged; and the message has left the channel, so
    the bytes of the payload beyond [n] are gone. *)
Theorem ReadFrom_copies_prefix (p : list byte) (w : World) (packet : message) (q : list message) :
  is_closed (die (conn w)) w = false ->
  sendq w = packet :: q ->
  let n := Nat.min (length p) (length (bts packet)) in
  let p' := firstn n (bts packet) ++ skipn n p in
  ReadFrom p w = (Returns (n, Some (addr packet), None, p'), set_sendq q w) /\
  firstn n p' = firstn n (bts packet) /\
  skipn n p' = skipn n p /\
  length p' = length p /\
  sendq (snd (ReadFrom p w)) = q.
Proof.
  intros Hd Hq n p'. unfold ReadFrom. rewrite Hd, Hq. simpl. fold n. fold p'.
  assert (Hn : length (firstn n (bts packet)) = n).
  { rewrite List.length_firstn. subst n. lia. }
  split_and!.
  - reflexivity.
  - subst p'. rewrite List.firstn_app, Hn, Nat.sub_diag. simpl.
    rewrite app_nil_r. rewrite List.firstn_firstn. f_equal. lia.
  - subst p'. rewrite List.skipn_app, Hn, Nat.sub_diag. simpl.
    rewrite List.skipn_all2; [reflexivity | lia].
  - subst p'. rewrite List.length_app, Hn, List.length_skipn. subst n. lia.
  - reflexivity.
Qed.

(** ** After [Close] (C9) *)

Lemma step_die w w' : step w w' -> die (conn w') = die (conn w).
Proof.
  intros Hs. destruct Hs.
  - apply (lockflow_frame _ _ _ (follow_gentle h packet)).
  - apply (lockflow_frame _ _ _ (ack_add_gentle n)).
  - now rewrite push_conn.
  - reflexivity.
  - apply (lockflow_frame _ _ _ get_ready_gentle).
  - apply (lockflow_frame _ _ _ get_flow_gentle).
  - reflexivity.
  - apply (lockflow_frame _ _ _ (seq_add_gentle n)).
  - now rewrite ReadFrom_conn.
  - destruct (dieOnce (conn w)) eqn:Hd.
    + now rewrite Close_again.
    + now rewrite Close_first.
Qed.

Lemma steps_die w w' : rtc step w w' -> die (conn w') = die (conn w).
Proof.
  induction 1 as [|x y z Hxy _ IH]; [reflexivity|].
  rewrite IH. now apply step_die.
Qed.

Lemma Close_latches w : dieOnce (conn (snd (Close w))) = true.
Proof.
  destruct (dieOnce (conn w)) eqn:Hd.
  - now rewrite Close_again.
  - now rewrite Close_first.
Qed.

(** C9.  In every state the connection is in once [Close] has been
    called: [die] is closed; [ReadFrom] returns [0, nil, io.EOF] and
    leaves the buffer and the state alone, so a call that was blocked
    returns as well; and a [WriteTo] waiting in its [select] on a latch
    that is not closed returns [0, io.EOF]. *)
Theorem after_Close_reads_and_waiting_writes_end (w w' : World) :
  reachable w -> rtc step (snd (Close w)) w' ->
  is_closed (die (conn w')) w' = true /\
  (forall p, ReadFrom p w' = (Returns (0, None, Some io_EOF, p), w')) /\
  (forall p a pick werr rdy, is_closed rdy w' = false ->
     WriteTo_wait p a pick werr rdy w' = (Returns (0%Z, Some io_EOF), w')).
Proof.
  intros Hreach Hrun.
  assert (Hd : is_closed (die (conn w')) w' = true).
  { apply is_closed_true. rewrite (steps_die _ _ Hrun).
    apply (steps_closed_mono _ _ Hrun).
    apply wf_die_closed; [|apply Close_latches].
    apply Close_wf, reachable_wf, Hreach. }
  split_and!.
  - exact Hd.
  - intros p. unfold ReadFrom. now rewrite Hd.
  - intros p a pick werr rdy Hr. unfold WriteTo_wait, select_die_ready.
    now rewrite Hd, Hr.
Qed.

(** ** [WriteTo] when the table has the entry *)

Lemma WriteTo_ready_old p a werr w e :
  flows (conn w) !! TCPAddr_String a = Some e ->
  WriteTo_ready p a werr w =
  match ResolveTCPAddr (TCPAddr_String a) with
  | inr err => (Returns (0%Z, Some err), w)
  | inl tcpaddr =>
      match networkLayer e, linkLayer e, handle e with
      | Some n, Some l, Some h =>
          let ev := EvWritePacketData h (mkFrame l n (tcp_header (conn w) tcpaddr e) p) werr in
          match werr with
          | Some err => (Returns (0%Z, Some err), emit ev w)
          | None =>
              (Returns (Z.of_nat (length p), None),
               set_flows (<[TCPAddr_String a := advanced (Z.of_nat (length p)) e]>
                            (flows (conn w))) (emit ev w))
          end
      | _, _, _ => (Panics, w)
      end
  end.
Proof.
  intros Hk. unfold WriteTo_ready.
  destruct (ResolveTCPAddr (TCPAddr_String a)) as [tcpaddr|err]; [|reflexivity].
  rewrite (lockflow_get_flow_old _ _ _ Hk).
  destruct (networkLayer e) as [n|]; [|reflexivity].
  destruct (linkLayer e) as [l|]; [|reflexivity].
  destruct (handle e) as [h|]; [|reflexivity].
  destruct werr as [err|]; [reflexivity|]. simpl.
  unfold seq_add.
  rewrite (lockflow_pure_old a (fun _ => tt) (advanced (Z.of_nat (length p))) _ e) by exact Hk.
  reflexivity.
Qed.

Lemma WriteTo_old p a pick werr w e :
  flows (conn w) !! TCPAddr_String a = Some e ->
  WriteTo_result p a werr w e (WriteTo p a pick werr w).
Proof.
  intros Hk. unfold WriteTo. rewrite (lockflow_get_ready_old _ _ _ Hk).
  unfold WriteTo_wait, select_die_ready.
  destruct (is_closed (ready e) w) eqn:Hr.
  - assert (Hgo : WriteTo_result p a werr w e (WriteTo_ready p a werr w)).
    { rewrite (WriteTo_ready_old _ _ _ _ _ Hk).
      destruct (ResolveTCPAddr (TCPAddr_String a)) as [tcpaddr|err] eqn:Hres;
        [|apply WriteTo_no_frame; congruence].
      destruct (networkLayer e) as [n|] eqn:Hn; [|apply WriteTo_no_frame; congruence].
      destruct (linkLayer e) as [l|] eqn:Hl; [|apply WriteTo_no_frame; congruence].
      destruct (handle e) as [h|] eqn:Hh; [|apply WriteTo_no_frame; congruence].
      destruct werr as [err|] eqn:Hw; simpl.
      - now eapply WriteTo_failed.
      - now eapply WriteTo_written. }
    destruct (is_closed (die (conn w)) w); [|exact Hgo].
    destruct pick; [apply WriteTo_no_frame; congruence | exact Hgo].
  - destruct (is_closed (die (conn w)) w); apply WriteTo_no_frame; congruence.
Qed.

Lemma app_one_neq {A : Type} (l : list A) (x : A) : l <> l ++ [x].
Proof.
  intros H. apply (f_equal (@length A)) in H. rewrite List.length_app in H. simpl in H. lia.
Qed.

(** ** A failed injection (C8) *)

(** C8.  [WriteTo] on an existing entry whose [WritePacketData] is called
    with frame [f] and fails with [err]: the call returns [0, err]; the
    state differs from the one before only by the log entry, so the flow
    table and the entry with its [seq] are as they were; the frame
    carried the entry's [seq]; and the frame of a second [WriteTo] to the
    peer from that state carries the same [seq]. *)
Theorem WriteTo_inject_failure (p : list byte) (a : TCPAddr) (pick : select_case)
    (err : error) (w : World) (e : tcpFlow) (h : Handle) (f : Frame) :
  flows (conn w) !! TCPAddr_String a = Some e ->
  trace (snd (WriteTo p a pick (Some err) w)) =
    trace w ++ [EvWritePacketData h f (Some err)] ->
  let w' := snd (WriteTo p a pick (Some err) w) in
  fst (WriteTo p a pick (Some err) w) = Returns (0%Z, Some err) /\
  w' = emit (EvWritePacketData h f (Some err)) w /\
  flows (conn w') = flows (conn w) /\
  flows (conn w') !! TCPAddr_String a = Some e /\
  TCP.Seq (frameTCP f) = seq e /\
  (forall p2 pick2 werr2 h2 f2,
     trace (snd (WriteTo p2 a pick2 werr2 w')) = trace w' ++ [EvWritePacketData h2 f2 werr2] ->
     TCP.Seq (frameTCP f2) = TCP.Seq (frameTCP f)).
Proof.
  intros Hk Htr w'.
  assert (Hseq : forall q pk we v e0 h0 f0,
            flows (conn v) !! TCPAddr_String a = Some e0 ->
            trace (snd (WriteTo q a pk we v)) = trace v ++ [EvWritePacketData h0 f0 we] ->
            TCP.Seq (frameTCP f0) = seq e0).
  { intros q pk we v e0 h0 f0 Hv Ht.
    destruct (WriteTo_old q a pk we v e0 Hv); simpl in Ht.
    - exfalso. exact (app_one_neq _ _ Ht).
    - apply app_inv_head in Ht. inversion Ht; subst. reflexivity.
    - rewrite <- app_assoc in Ht || idtac. apply app_inv_head in Ht.
      inversion Ht; subst. reflexivity. }
  assert (Hw' : WriteTo p a pick (Some err) w =
                (Returns (0%Z, Some err), emit (EvWritePacketData h f (Some err)) w)).
  { destruct (WriteTo_old p a pick (Some err) w e Hk) as [r Hr | ? ? ? ? err0 He | ? ? ? ? He];
      simpl in Htr.
    - exfalso. exact (app_one_neq _ _ Htr).
    - apply app_inv_head in Htr. inversion Htr; subst. inversion He; subst. reflexivity.
    - discriminate. }
  subst w'. rewrite Hw'. simpl. split_and!; try reflexivity.
  - exact Hk.
  - apply (Hseq p pick (Some err) w e h f Hk Htr).
  - intros p2 pick2 werr2 h2 f2 Ht2.
    rewrite (Hseq p pick (Some err) w e h f Hk Htr).
    apply (Hseq p2 pick2 werr2 (emit (EvWritePacketData h f (Some err)) w) e h2 f2); assumption.
Qed.

(** ** The frame [WriteTo] writes (C7) *)

Lemma lockflow_pure_trace {A : Type} a (g : tcpFlow -> A) (u : tcpFlow -> tcpFlow) w :
  trace (snd (lockflow a (fun e w => (g e, u e, w)) w)) = trace w.
Proof.
  rewrite lockflow_pure. simpl. apply (visit_frame (TCPAddr_String a) w).
Qed.

(** C7.  [WriteTo] from its [select] on, in any state [w]: it writes no
    frame or one.  The one it writes is built from [flow], the copy of
    the entry that line 208 takes: it goes out on the handle of [flow],
    between the templates of [flow] and the payload; its TCP header has
    the [uint16] of the local port as source port and of the resolved
    peer port as destination port (the ports themselves when they are in
    range), window 12580, PSH and ACK set, no other flag, and [seq] and
    [ack] of [flow].  [WriteTo] is this after fetching the latch. *)
Theorem WriteTo_frame_header (p : list byte) (a : TCPAddr) (pick : select_case)
    (werr : option error) (rdy : chan) (w : World) :
  let flow := fst (lockflow a get_flow w) in
  let w' := snd (WriteTo_wait p a pick werr rdy w) in
  let lport := Port (localAddr (conn w)) in
  WriteTo p a pick werr w =
    WriteTo_wait p a pick werr (fst (lockflow a get_ready w)) (snd (lockflow a get_ready w)) /\
  (trace w' = trace w \/
   exists h f tcpaddr,
     trace w' = trace w ++ [EvWritePacketData h f werr] /\
     ResolveTCPAddr (TCPAddr_String a) = inl tcpaddr /\
     handle flow = Some h /\
     linkLayer flow = Some (frameLink f) /\
     networkLayer flow = Some (frameNetwork f) /\
     framePayload f = p /\
     frameTCP f = TCP.mk (uint16 lport) (uint16 (Port tcpaddr)) (seq flow) (ack flow)
                         false false false true true 12580 [] /\
     ((0 <= lport < 65536)%Z -> TCP.SrcPort (frameTCP f) = lport) /\
     ((0 <= Port tcpaddr < 65536)%Z -> TCP.DstPort (frameTCP f) = Port tcpaddr)).
Proof.
  intros flow w' lport. split.
  { unfold WriteTo. now destruct (lockflow a get_ready w). }
  subst w'. unfold WriteTo_wait.
  destruct (select_die_ready pick rdy w) as [[|]|]; simpl; try (now left).
  unfold WriteTo_ready.
  destruct (ResolveTCPAddr (TCPAddr_String a)) as [tcpaddr|err] eqn:Hres; [|now left].
  assert (Ht : trace (snd (lockflow a get_flow w)) = trace w)
    by (unfold get_flow; apply (lockflow_pure_trace a (fun e => e) (fun e => e))).
  pose proof (lockflow_frame a get_flow w get_flow_gentle) as (_ & _ & _ & Hla & _).
  simpl in Hla. subst flow.
  destruct (lockflow a get_flow w) as [flow w1]. simpl in *.
  destruct (networkLayer flow) as [n|] eqn:Hn; [|left; exact Ht].
  destruct (linkLayer flow) as [l|] eqn:Hl; [|left; exact Ht].
  destruct (handle flow) as [h|] eqn:Hh; [|left; exact Ht].
  right. exists h, (mkFrame l n (tcp_header (conn w1) tcpaddr flow) p), tcpaddr.
  assert (Htr : trace (snd (match werr with
            | Some err =>
                (Returns (0%Z, Some err),
                 emit (EvWritePacketData h
                         (mkFrame l n (tcp_header (conn w1) tcpaddr flow) p) werr) w1)
            | None =>
                (Returns (Z.of_nat (length p), None),
                 snd (lockflow a (seq_add (Z.of_nat (length p)))
                        (emit (EvWritePacketData h
                                 (mkFrame l n (tcp_header (conn w1) tcpaddr flow) p) werr) w1)))
            end)) =
          trace w ++ [EvWritePacketData h
                        (mkFrame l n (tcp_header (conn w1) tcpaddr flow) p) werr]).
  { destruct werr as [err|]; simpl; [now rewrite Ht|].
    unfold seq_add.
    rewrite (lockflow_pure_trace a (fun _ => tt)
               (fun e => mkFlow (handle e) (ready e)
                           (uint32 (seq e + uint32 (Z.of_nat (length p))))
                           (ack e) (linkLayer e) (networkLayer e))).
    simpl. now rewrite Ht. }
  unfold tcp_header in *. simpl. rewrite Hla. fold lport.
  split_and!; try reflexivity.
  - rewrite Hla in Htr. exact Htr.
  - intros Hr. unfold uint16. now apply Z.mod_small.
  - intros Hr. unfold uint16. now apply Z.mod_small.
Qed.

(** ** Sequence numbers of consecutive writes (C4) *)

Lemma uint32_range z : (0 <= uint32 z < 2 ^ 32)%Z.
Proof. unfold uint32. apply Z.mod_pos_bound. lia. Qed.

Lemma uint32_small z : (0 <= z < 2 ^ 32)%Z -> uint32 z = z.
Proof. intros H. unfold uint32. now apply Z.mod_small. Qed.

Lemma uint32_add_add z n t : uint32 (uint32 (z + uint32 n) + t) = uint32 (z + (n + t)).
Proof.
  unfold uint32.
  rewrite Z.add_mod_idemp_l by lia. rewrite <- Z.add_assoc.
  rewrite <- (Z.add_mod_idemp_r z (n mod 2 ^ 32 + t)) by lia.
  rewrite Z.add_mod_idemp_l by lia.
  rewrite Z.add_mod_idemp_r by lia. reflexivity.
Qed.

Lemma frames_app tr1 tr2 : frames (tr1 ++ tr2) = frames tr1 ++ frames tr2.
Proof. unfold frames. apply omap_app. Qed.

Lemma total_len_take_S ps i p :
  ps !! i = Some p ->
  total_len (take (S i) ps) = (total_len (take i ps) + Z.of_nat (length p))%Z.
Proof.
  revert i. induction ps as [|q ps IH]; intros i Hi; [discriminate|].
  destruct i as [|i]; simpl in *.
  - inversion Hi; subst. lia.
  - rewrite (IH i Hi). simpl. lia.
Qed.

Lemma WriteTo_each_seq calls a w e :
  flows (conn w) !! TCPAddr_String a = Some e ->
  (0 <= seq e < 2 ^ 32)%Z ->
  Forall2 wrote_all calls (fst (WriteTo_each calls a w)) ->
  exists fs,
    frames (trace (snd (WriteTo_each calls a w))) = frames (trace w) ++ fs /\
    length fs = length calls /\
    (forall i f, fs !! i = Some f ->
       TCP.Seq (frameTCP f) = uint32 (seq e + total_len (take i (payloads calls))) /\
       payloads calls !! i = Some (framePayload f)) /\
    (exists e', flows (conn (snd (WriteTo_each calls a w))) !! TCPAddr_String a = Some e' /\
                seq e' = uint32 (seq e + total_len (payloads calls))).
Proof.
  revert w e. induction calls as [|[[p pick] werr] rest IH]; intros w e Hk Hrange Hall.
  - simpl. exists []. rewrite app_nil_r. split_and!; try reflexivity.
    + intros i f Hi. discriminate.
    + exists e. split; [exact Hk|]. rewrite Z.add_0_r. symmetry. now apply uint32_small.
  - simpl in *.
    destruct (WriteTo p a pick werr w) as [r w1] eqn:HW.
    destruct (WriteTo_each rest a w1) as [rs w2] eqn:HE. simpl in *.
    apply Forall2_cons in Hall as [Hr Hall]. unfold wrote_all in Hr. simpl in Hr.
    pose proof (WriteTo_old p a pick werr w e Hk) as Hres. rewrite HW in Hres.
    inversion Hres as [r0 Hno | h l n tcpaddr err | h l n tcpaddr He Hrd Hrs Hh Hl Hn];
      subst.
    + exfalso. now apply (Hno (Z.of_nat (length p))).
    + discriminate.
    + set (e1 := advanced (Z.of_nat (length p)) e) in *.
      set (f := mkFrame l n (tcp_header (conn w) tcpaddr e) p) in *.
      match type of HE with WriteTo_each rest a ?v = _ => set (w1 := v) in * end.
      assert (Hk1 : flows (conn w1) !! TCPAddr_String a = Some e1)
        by (subst w1; simpl; apply lookup_insert_eq).
      assert (Hrange1 : (0 <= seq e1 < 2 ^ 32)%Z) by (subst e1; simpl; apply uint32_range).
      specialize (IH w1 e1 Hk1 Hrange1). rewrite HE in IH. simpl in IH.
      destruct (IH Hall) as (fs & Hfs & Hlen & Hidx & e' & He' & Hseq').
      exists (f :: fs). split_and!.
      * rewrite Hfs. subst w1. simpl. rewrite frames_app. simpl.
        now rewrite <- app_assoc.
      * simpl. now rewrite Hlen.
      * intros [|i] f0 Hi; simpl in Hi.
        -- inversion Hi; subst f0. simpl. split; [|reflexivity].
           rewrite Z.add_0_r. symmetry. now apply uint32_small.
        -- destruct (Hidx i f0 Hi) as [Hs Hp]. split; [|exact Hp].
           rewrite Hs. subst e1. simpl. apply uint32_add_add.
      * exists e'. split; [exact He'|]. rewrite Hseq'. subst e1. simpl.
        apply uint32_add_add.
Qed.

(** The calls one after the other and nothing in between: each frame
    and the entry at the end. *)
Lemma WriteTo_each_seq_numbers (calls : list (list byte * select_case * option error))
    (a : TCPAddr) (w : World) (e : tcpFlow) :
  flows (conn w) !! TCPAddr_String a = Some e ->
  (0 <= seq e < 2 ^ 32)%Z ->
  Forall2 wrote_all calls (fst (WriteTo_each calls a w)) ->
  let ps := payloads calls in
  let w' := snd (WriteTo_each calls a w) in
  exists fs,
    frames (trace w') = frames (trace w) ++ fs /\
    length fs = length calls /\
    (forall i f, fs !! i = Some f ->
       TCP.Seq (frameTCP f) = uint32 (seq e + total_len (take i ps)) /\
       ps !! i = Some (framePayload f)) /\
    (exists e', flows (conn w') !! TCPAddr_String a = Some e' /\
                seq e' = uint32 (seq e + total_len ps)) /\
    (forall i f f', ps !! i = Some [] -> fs !! i = Some f -> fs !! S i = Some f' ->
       TCP.Seq (frameTCP f') = TCP.Seq (frameTCP f)).
Proof.
  intros Hk Hrange Hall ps w'.
  destruct (WriteTo_each_seq calls a w e Hk Hrange Hall) as (fs & Hfs & Hlen & Hidx & Hend).
  exists fs. split_and!; try assumption.
  intros i f f' Hp Hi HSi.
  destruct (Hidx i f Hi) as [-> _]. destruct (Hidx (S i) f' HSi) as [-> _].
  fold ps. rewrite (total_len_take_S ps i [] Hp). simpl. now rewrite Z.add_0_r.
Qed.

(** *** Calls in turn, among other goroutines *)

Lemma asides_lookup a w w' :
  rtc (aside a) w w' ->
  flows (conn w') !! TCPAddr_String a = flows (conn w) !! TCPAddr_String a.
Proof.
  induction 1 as [|x y z [_ Hxy] _ IH]; [reflexivity|]. now rewrite IH.
Qed.

Lemma asides_steps a w w' : rtc (aside a) w w' -> rtc step w w'.
Proof.
  induction 1 as [|x y z [Hxy _] _ IH]; [apply rtc_refl|]. exact (rtc_l _ _ _ _ Hxy IH).
Qed.

(** What one call among other goroutines writes and leaves. *)
Lemma WriteTo_among_entry p a f w w' e :
  flows (conn w) !! TCPAddr_String a = Some e ->
  WriteTo_among p a f w w' ->
  TCP.Seq (frameTCP f) = seq e /\ framePayload f = p /\
  flows (conn w') !! TCPAddr_String a = Some (advanced (Z.of_nat (length p)) e).
Proof.
  intros Hk Hrun.
  destruct Hrun as [w rdy w1 w1' tcpaddr flow w2 w2' h w3' Hrdy Ha1 Hc Hres Hflow Ha2 Hout Ha3].
  rewrite (lockflow_get_ready_old _ _ _ Hk) in Hrdy. injection Hrdy as <- <-.
  assert (Hk1 : flows (conn w1') !! TCPAddr_String a = Some e)
    by (rewrite (asides_lookup _ _ _ Ha1); exact Hk).
  rewrite (lockflow_get_flow_old _ _ _ Hk1) in Hflow. injection Hflow as <- <-.
  assert (Hk2 : flows (conn w2') !! TCPAddr_String a = Some e)
    by (rewrite (asides_lookup _ _ _ Ha2); exact Hk1).
  assert (Hk3 : flows (conn w3') !! TCPAddr_String a = Some e)
    by (rewrite (asides_lookup _ _ _ Ha3); exact Hk2).
  unfold outgoing in Hout.
  destruct (networkLayer e) as [n|]; [|discriminate].
  destruct (linkLayer e) as [l|]; [|discriminate].
  destruct (handle e) as [h0|]; [|discriminate].
  injection Hout as <- <-.
  split_and!; [reflexivity | reflexivity |].
  assert (Hl : lockflow a (seq_add (Z.of_nat (length p))) w3' =
               (tt, set_flows (<[TCPAddr_String a := advanced (Z.of_nat (length p)) e]>
                                 (flows (conn w3'))) w3'))
    by exact (lockflow_pure_old a (fun _ => tt) (advanced (Z.of_nat (length p))) w3' e Hk3).
  rewrite Hl. simpl. apply lookup_insert_eq.
Qed.

Lemma WriteTo_in_turn_seq a ps fs w w' :
  WriteTo_in_turn a ps fs w w' ->
  forall e,
  flows (conn w) !! TCPAddr_String a = Some e ->
  (0 <= seq e < 2 ^ 32)%Z ->
  length fs = length ps /\
  (forall i f, fs !! i = Some f ->
     TCP.Seq (frameTCP f) = uint32 (seq e + total_len (take i ps)) /\
     ps !! i = Some (framePayload f)) /\
  (exists e', flows (conn w') !! TCPAddr_String a = Some e' /\
              seq e' = uint32 (seq e + total_len ps)).
Proof.
  induction 1 as [w w' Ha | p ps f fs w w1 w2 w' Ha Hcall Hrest IH]; intros e Hk Hrange.
  - split_and!; [reflexivity | intros i f Hi; discriminate |].
    exists e. split; [rewrite (asides_lookup _ _ _ Ha); exact Hk|].
    simpl. rewrite Z.add_0_r. symmetry. now apply uint32_small.
  - assert (Hk1 : flows (conn w1) !! TCPAddr_String a = Some e)
      by (rewrite (asides_lookup _ _ _ Ha); exact Hk).
    destruct (WriteTo_among_entry p a f w1 w2 e Hk1 Hcall) as (Hseq & Hp & Hk2).
    set (e1 := advanced (Z.of_nat (length p)) e) in *.
    assert (Hrange1 : (0 <= seq e1 < 2 ^ 32)%Z) by (subst e1; simpl; apply uint32_range).
    destruct (IH e1 Hk2 Hrange1) as (Hlen & Hidx & e' & He' & Hseq').
    split_and!.
    + simpl. now rewrite Hlen.
    + intros [|i] f0 Hi; simpl in Hi.
      * inversion Hi; subst f0. simpl. split; [|now rewrite Hp].
        rewrite Hseq, Z.add_0_r. symmetry. now apply uint32_small.
      * destruct (Hidx i f0 Hi) as [Hs Hpi]. split; [|exact Hpi].
        rewrite Hs. subst e1. simpl. apply uint32_add_add.
    + exists e'. split; [exact He'|]. rewrite Hseq'. subst e1. simpl.
      apply uint32_add_add.
Qed.

(** A call of [WriteTo] that returns [len(p), nil] with nothing in
    between its steps is a call among other goroutines. *)
Lemma WriteTo_alone p a pick werr w w' :
  is_Some (flows (conn w) !! TCPAddr_String a) ->
  WriteTo p a pick werr w = (Returns (Z.of_nat (length p), None), w') ->
  exists f, WriteTo_among p a f w w'.
Proof.
  intros [e Hk] HW.
  pose proof (WriteTo_old p a pick werr w e Hk) as Hres. rewrite HW in Hres.
  inversion Hres as [r0 Hno | h l n tcpaddr err | h l n tcpaddr He Hrd Hrs Hh Hl Hn]; subst.
  - exfalso. now apply (Hno (Z.of_nat (length p))).
  - set (f := mkFrame l n (tcp_header (conn w) tcpaddr e) p).
    exists f.
    assert (Hk1 : flows (conn (emit (EvWritePacketData h f None) w)) !! TCPAddr_String a
                  = Some e) by exact Hk.
    replace (set_flows _ _)
      with (snd (lockflow a (seq_add (Z.of_nat (length p)))
                   (emit (EvWritePacketData h f None) w))).
    2:{ assert (Hadv : lockflow a (seq_add (Z.of_nat (length p)))
                              (emit (EvWritePacketData h f None) w) =
                     (tt, set_flows (<[TCPAddr_String a := advanced (Z.of_nat (length p)) e]>
                                       (flows (conn (emit (EvWritePacketData h f None) w))))
                            (emit (EvWritePacketData h f None) w)))
          by exact (lockflow_pure_old a (fun _ => tt) (advanced (Z.of_nat (length p)))
                      _ e Hk1).
        now rewrite Hadv. }
    eapply (WriteTo_stages p a f w (ready e) w w tcpaddr e w w h).
    + apply (lockflow_get_ready_old _ _ _ Hk).
    + apply rtc_refl.
    + exact Hrd.
    + exact Hrs.
    + apply (lockflow_get_flow_old _ _ _ Hk).
    + apply rtc_refl.
    + unfold outgoing. now rewrite Hn, Hl, Hh.
    + apply rtc_refl.
Qed.

(** C4, as the code has it.  Calls of [WriteTo] to one peer that do not
    overlap, each returning [len(p), nil] before the next one starts, on
    an entry with sequence number [seq e], while nothing else changes the
    entry of the peer: other goroutines may take any steps before,
    between, within and after the calls, but for an inbound packet of the
    peer.  Each call writes one frame; the [i]-th frame carries the
    [i]-th payload and the sequence number [seq e] plus the lengths of
    the payloads before it, modulo [2^32]; the entry ends with [seq e]
    plus all the lengths; and the frame after an empty payload has the
    sequence number of the frame with the empty payload. *)
Theorem WriteTo_seq_numbers (ps : list (list byte)) (fs : list Frame) (a : TCPAddr)
    (w w' : World) (e : tcpFlow) :
  flows (conn w) !! TCPAddr_String a = Some e ->
  (0 <= seq e < 2 ^ 32)%Z ->
  WriteTo_in_turn a ps fs w w' ->
  length fs = length ps /\
  (forall i f, fs !! i = Some f ->
     TCP.Seq (frameTCP f) = uint32 (seq e + total_len (take i ps)) /\
     ps !! i = Some (framePayload f)) /\
  (exists e', flows (conn w') !! TCPAddr_String a = Some e' /\
              seq e' = uint32 (seq e + total_len ps)) /\
  (forall i f f', ps !! i = Some [] -> fs !! i = Some f -> fs !! S i = Some f' ->
     TCP.Seq (frameTCP f') = TCP.Seq (frameTCP f)) /\
  rtc step w w'.
Proof.
  intros Hk Hrange Hrun.
  destruct (WriteTo_in_turn_seq a ps fs w w' Hrun e Hk Hrange) as (Hlen & Hidx & Hend).
  split_and!; try assumption.
  - intros i f f' Hp Hi HSi.
    destruct (Hidx i f Hi) as [-> _]. destruct (Hidx (S i) f' HSi) as [-> _].
    rewrite (total_len_take_S ps i [] Hp). simpl. now rewrite Z.add_0_r.
  - clear Hk Hrange Hlen Hidx Hend.
    induction Hrun as [w w' Ha | p ps f fs w w1 w2 w' Ha Hcall Hrest IH].
    + exact (asides_steps _ _ _ Ha).
    + eapply rtc_trans; [exact (asides_steps _ _ _ Ha)|].
      eapply rtc_trans; [|exact IH].
      destruct Hcall as [w1 rdy w1a w1b tcpaddr flow w2a w2b h w3b Hrdy Ha1 Hc Hres Hflow
                           Ha2 Hout Ha3].
      eapply rtc_l; [apply (step_get_ready a)|]. rewrite Hrdy. simpl.
      eapply rtc_trans; [exact (asides_steps _ _ _ Ha1)|].
      eapply rtc_l; [apply (step_get_flow a)|]. rewrite Hflow. simpl.
      eapply rtc_trans; [exact (asides_steps _ _ _ Ha2)|].
      eapply rtc_l; [apply (step_write h f None)|].
      eapply rtc_trans; [exact (asides_steps _ _ _ Ha3)|].
      apply rtc_once, step_seq.
Qed.

End Properties.

(** * More of the code

    Properties of the flow table, the capture loop, [ReadFrom], [WriteTo]
    and [Close] beyond the ones above. *)

Section More.
Context `{net : Net}.

(** ** What [lockflow] does to the other entries and to the channels *)

Lemma lockflow_other {A : Type} a (f : tcpFlow -> World -> A * tcpFlow * World) w k :
  gentle f -> k <> TCPAddr_String a ->
  flows (conn (snd (lockflow a f w))) !! k = flows (conn w) !! k.
Proof.
  intros Hg Hne. unfold lockflow.
  destruct (visit (TCPAddr_String a) w) as [e0 w1] eqn:Hv.
  pose proof (visit_frame (TCPAddr_String a) w) as (Hc & _).
  rewrite Hv in Hc. simpl in Hc.
  specialize (Hg e0 w1). inversion Hg; simpl;
    rewrite lookup_insert_ne by congruence; now rewrite Hc.
Qed.

(** A closure that only changes fields of the entry closes nothing. *)
(** The loop body on a packet of another peer takes steps aside. *)
Lemma capture_packet_asides h packet a w :
  TCPAddr_String (packet_addr packet) <> TCPAddr_String a ->
  rtc (aside a) w (fst (capture_packet h packet w)).
Proof.
  intros Hne.
  assert (Hne' : TCPAddr_String a <> TCPAddr_String (packet_addr packet)) by congruence.
  unfold capture_packet. apply (rtc_trans _ (capture_follow h packet w)).
  - unfold capture_follow.
    destruct (negb (TCP.FIN (TransportLayer packet)) && negb (TCP.RST (TransportLayer packet)));
      [|apply rtc_refl].
    apply rtc_once. split; [apply step_follow|].
    apply lockflow_other; [apply follow_gentle | exact Hne'].
  - set (w1 := capture_follow h packet w). unfold capture_deliver.
    destruct (TCP.SYN (TransportLayer packet)); simpl.
    { apply rtc_once. split; [apply step_ack|].
      apply lockflow_other; [apply ack_add_gentle | exact Hne']. }
    destruct (TCP.PSH (TransportLayer packet)); simpl.
    { set (n := Z.of_nat (length (TCP.Payload (TransportLayer packet)))).
      apply (rtc_l _ _ (snd (lockflow (packet_addr packet) (ack_add n) w1))).
      - split; [apply step_ack|].
        apply lockflow_other; [apply ack_add_gentle | exact Hne'].
      - apply rtc_once. split; [apply step_push|]. now rewrite push_conn. }
    destruct (TCP.FIN (TransportLayer packet) || TCP.RST (TransportLayer packet)); simpl.
    + apply rtc_once. split; [apply step_delete|].
      unfold deleteflow. simpl. now apply lookup_delete_ne.
    + apply rtc_refl.
Qed.

Lemma lockflow_pure_closed {A : Type} a (g : tcpFlow -> A) (u : tcpFlow -> tcpFlow) w :
  closed (snd (lockflow a (fun e w => (g e, u e, w)) w)) = closed w.
Proof.
  rewrite lockflow_pure. simpl. apply (visit_frame (TCPAddr_String a) w).
Qed.

(** The latch of an entry under another key is not the one [lockflow]
    may close. *)
Lemma lockflow_closed_other {A : Type} a (f : tcpFlow -> World -> A * tcpFlow * World) w k e :
  wf w -> gentle f ->
  flows (conn w) !! k = Some e -> k <> TCPAddr_String a ->
  is_closed (ready e) (snd (lockflow a f w)) = is_closed (ready e) w.
Proof.
  intros Hwf Hg Hk Hne. unfold lockflow.
  destruct (visit (TCPAddr_String a) w) as [e0 w1] eqn:Hv.
  destruct (visit_wf _ _ _ _ Hwf Hv) as (_ & (_ & _ & Hinj & _) & Hc & Hcl & _).
  specialize (Hg e0 w1). inversion Hg as [r e' Hr Hs Heq | r e' Hr Hnc Hp Heq];
    unfold is_closed; simpl.
  - now rewrite Hcl.
  - rewrite Hcl. apply bool_decide_ext. split.
    + intros [Hx|Hx]%elem_of_union; [|exact Hx].
      apply elem_of_singleton in Hx. exfalso. apply Hne.
      apply (Hinj k e); [now rewrite Hc | exact Hx].
    + apply elem_of_union_r.
Qed.

Lemma capture_follow_wf h packet w : wf w -> wf (capture_follow h packet w).
Proof. intros Hwf. exact (steps_wf _ _ (capture_follow_steps h packet w) Hwf). Qed.

Lemma capture_packet_wf h packet w : wf w -> wf (fst (capture_packet h packet w)).
Proof. intros Hwf. exact (steps_wf _ _ (capture_packet_steps h packet w) Hwf). Qed.

Lemma push_closed m w : closed (fst (push m w)) = closed w.
Proof. unfold push. now destruct (is_closed _ _). Qed.

Lemma WriteTo_ready_closed p a werr w : closed (snd (WriteTo_ready p a werr w)) = closed w.
Proof.
  unfold WriteTo_ready.
  destruct (ResolveTCPAddr (TCPAddr_String a)) as [tcpaddr|err]; [|reflexivity].
  assert (Hc : closed (snd (lockflow a get_flow w)) = closed w)
    by (unfold get_flow; apply (lockflow_pure_closed a (fun e => e) (fun e => e))).
  destruct (lockflow a get_flow w) as [flow w1]. simpl in Hc.
  destruct (networkLayer flow); [|exact Hc].
  destruct (linkLayer flow); [|exact Hc].
  destruct (handle flow); [|exact Hc].
  destruct werr; simpl; [exact Hc|].
  unfold seq_add.
  rewrite (lockflow_pure_closed a (fun _ => tt)
             (fun e => mkFlow (handle e) (ready e)
                         (uint32 (seq e + uint32 (Z.of_nat (length p))))
                         (ack e) (linkLayer e) (networkLayer e))).
  exact Hc.
Qed.

Lemma WriteTo_closed p a pick werr w : closed (snd (WriteTo p a pick werr w)) = closed w.
Proof.
  unfold WriteTo.
  assert (Hc : closed (snd (lockflow a get_ready w)) = closed w)
    by (unfold get_ready; apply (lockflow_pure_closed a ready (fun e => e))).
  destruct (lockflow a get_ready w) as [rdy w1]. simpl in Hc.
  unfold WriteTo_wait. destruct (select_die_ready pick rdy w1) as [[|]|]; simpl; try exact Hc.
  now rewrite WriteTo_ready_closed.
Qed.

Lemma WriteTo_ready_other p a werr w k :
  k <> TCPAddr_String a ->
  flows (conn (snd (WriteTo_ready p a werr w))) !! k = flows (conn w) !! k.
Proof.
  intros Hne. unfold WriteTo_ready.
  destruct (ResolveTCPAddr (TCPAddr_String a)) as [tcpaddr|err]; [|reflexivity].
  pose proof (lockflow_other a get_flow w k get_flow_gentle Hne) as Hf.
  destruct (lockflow a get_flow w) as [flow w1]. simpl in Hf.
  destruct (networkLayer flow); [|exact Hf].
  destruct (linkLayer flow); [|exact Hf].
  destruct (handle flow); [|exact Hf].
  destruct werr; simpl; [exact Hf|].
  rewrite (lockflow_other a _ _ k (seq_add_gentle _) Hne). exact Hf.
Qed.

(** ** One peer's traffic leaves the other peers alone (X1) *)

(** X1.  The entries under other keys are the same before and after the
    capture loop handles a packet, and before and after a call of
    [WriteTo]; [WriteTo] closes no channel; and in a state the connection
    can reach, a packet of one peer does not change whether the latch of
    another peer's entry is closed. *)
Theorem other_flows_untouched (h : Handle) (packet : Packet) (p : list byte) (a : TCPAddr)
    (pick : select_case) (werr : option error) (w : World) (k : string) :
  reachable w ->
  (k <> TCPAddr_String (packet_addr packet) ->
     flows (conn (fst (capture_packet h packet w))) !! k = flows (conn w) !! k /\
     forall e, flows (conn w) !! k = Some e ->
       is_closed (ready e) (fst (capture_packet h packet w)) = is_closed (ready e) w) /\
  (k <> TCPAddr_String a ->
     flows (conn (snd (WriteTo p a pick werr w))) !! k = flows (conn w) !! k) /\
  closed (snd (WriteTo p a pick werr w)) = closed w.
Proof.
  intros Hreach. pose proof (reachable_wf _ Hreach) as Hwf. split_and!.
  - intros Hne.
    assert (Hf1 : flows (conn (capture_follow h packet w)) !! k = flows (conn w) !! k).
    { unfold capture_follow. destruct (_ && _); [|reflexivity].
      now apply lockflow_other; [apply follow_gentle|]. }
    assert (Hc1 : forall e, flows (conn w) !! k = Some e ->
              is_closed (ready e) (capture_follow h packet w) = is_closed (ready e) w).
    { intros e He. unfold capture_follow. destruct (_ && _); [|reflexivity].
      apply (lockflow_closed_other _ _ w k e);
        [assumption | apply follow_gentle | assumption | assumption]. }
    pose proof (capture_follow_wf h packet w Hwf) as Hwf1.
    unfold capture_packet. set (w1 := capture_follow h packet w) in *.
    unfold capture_deliver.
    set (a0 := packet_addr packet) in *.
    destruct (TCP.SYN (TransportLayer packet)); simpl.
    { split.
      - now rewrite (lockflow_other a0 _ w1 k (ack_add_gentle _) Hne).
      - intros e He. rewrite <- (Hc1 e He).
        apply (lockflow_closed_other a0 _ w1 k e);
          [assumption | apply ack_add_gentle | | assumption].
        now rewrite Hf1. }
    destruct (TCP.PSH (TransportLayer packet)); simpl.
    { split.
      - rewrite push_conn. now rewrite (lockflow_other a0 _ w1 k (ack_add_gentle _) Hne).
      - intros e He. rewrite <- (Hc1 e He). unfold is_closed. rewrite push_closed.
        apply (lockflow_closed_other a0 _ w1 k e);
          [assumption | apply ack_add_gentle | | assumption].
        now rewrite Hf1. }
    destruct (TCP.FIN (TransportLayer packet) || TCP.RST (TransportLayer packet)); simpl.
    + split.
      * unfold deleteflow. simpl. now rewrite lookup_delete_ne by congruence.
      * intros e He. now rewrite <- (Hc1 e He).
    + split; [exact Hf1 | exact Hc1].
  - intros Hne. unfold WriteTo.
    pose proof (lockflow_other a get_ready w k get_ready_gentle Hne) as Hf.
    destruct (lockflow a get_ready w) as [rdy w1]. simpl in Hf.
    unfold WriteTo_wait. destruct (select_die_ready pick rdy w1) as [[|]|]; simpl;
      try exact Hf.
    now rewrite WriteTo_ready_other.
  - apply WriteTo_closed.
Qed.

(** ** A peer that has not been heard (X2) *)

Lemma open_die_not_latched w : wf w -> is_closed (die (conn w)) w = false -> dieOnce (conn w) = false.
Proof.
  intros Hwf Hd. destruct (dieOnce (conn w)) eqn:Ho; [|reflexivity].
  apply is_closed_false in Hd. exfalso. apply Hd. now apply wf_die_closed.
Qed.

Lemma fresh_chan_open w : wf w -> is_closed (nextChan w) w = false.
Proof.
  intros Hwf. apply is_closed_false. intros Hc. apply (wf_closed _ Hwf) in Hc. lia.
Qed.

(** X2.  In a state the connection can reach, with shutdown not latched,
    [WriteTo] to a peer the table has no entry for blocks: it returns
    nothing, writes no frame, and leaves in the table the entry
    [lockflow] has created, with a newly made latch that is open, no
    handle and no templates. *)
Theorem WriteTo_unknown_peer_blocks (p : list byte) (a : TCPAddr) (pick : select_case)
    (werr : option error) (w : World) :
  reachable w ->
  is_closed (die (conn w)) w = false ->
  flows (conn w) !! TCPAddr_String a = None ->
  let r := WriteTo p a pick werr w in
  fst r = Blocks /\
  trace (snd r) = trace w /\
  flows (conn (snd r)) =
    <[TCPAddr_String a := mkFlow None (nextChan w) 0 0 None None]> (flows (conn w)) /\
  is_closed (nextChan w) (snd r) = false /\
  nextChan (snd r) = S (nextChan w).
Proof.
  intros Hreach Hd Hk. pose proof (reachable_wf _ Hreach) as Hwf.
  pose proof (fresh_chan_open w Hwf) as Hfresh.
  assert (Hl : lockflow a get_ready w =
               (nextChan w,
                set_flows (<[TCPAddr_String a := mkFlow None (nextChan w) 0 0 None None]>
                             (flows (conn w))) (snd (make_chan w)))).
  { unfold lockflow, get_ready. now rewrite (visit_new _ _ Hk). }
  simpl. unfold WriteTo. rewrite Hl. unfold WriteTo_wait, select_die_ready.
  unfold is_closed in *. simpl. rewrite Hd, Hfresh. simpl.
  split_and!; try reflexivity. exact Hfresh.
Qed.

(** ** The first packet of a peer (X3) *)

Lemma follow_open h packet e w :
  is_closed (ready e) w = false ->
  follow h packet e w =
  match link_template packet with
  | None =>
      (tt, mkFlow (Some h) (ready e) (TCP.Ack (TransportLayer packet))
                  (TCP.Seq (TransportLayer packet)) (linkLayer e) (networkLayer e), w)
  | Some l =>
      match network_template packet with
      | None =>
          (tt, mkFlow (Some h) (ready e) (TCP.Ack (TransportLayer packet))
                      (TCP.Seq (TransportLayer packet)) (Some l) (networkLayer e), w)
      | Some n =>
          (tt, mkFlow (Some h) (ready e) (TCP.Ack (TransportLayer packet))
                      (TCP.Seq (TransportLayer packet)) (Some l) (Some n),
           close_chan (ready e) w)
      end
  end.
Proof.
  intros Ho. unfold follow. simpl. rewrite Ho.
  destruct (link_template packet); [|reflexivity].
  destruct (network_template packet); reflexivity.
Qed.

(** The entry [lockflow] hands to its closure has an open latch when the
    table has no entry, or one with an open latch. *)
Lemma visit_open key w :
  wf w ->
  (forall e, flows (conn w) !! key = Some e -> is_closed (ready e) w = false) ->
  is_closed (ready (fst (visit key w))) (snd (visit key w)) = false.
Proof.
  intros Hwf Ho. unfold visit. destruct (flows (conn w) !! key) as [e|] eqn:Hk; simpl.
  - now apply Ho.
  - apply (fresh_chan_open w Hwf).
Qed.

(** X3.  A packet with neither FIN nor RST from a peer whose entry is
    missing or not yet ready, in a state the connection can reach.  After
    lines 107-157 the entry has the handle the packet came in on, [seq]
    the packet's acknowledgment number and [ack] its sequence number.
    Its latch is closed exactly when the packet has a link layer
    (Ethernet or loopback) and a network layer (IPv4 or IPv6), and then
    the entry holds the two templates.  With a link layer only, the link
    template is stored and the network template is left as it was; with
    no link layer both are left as they were. *)
Theorem first_packet_populates (h : Handle) (packet : Packet) (w : World) :
  let t := TransportLayer packet in
  let key := TCPAddr_String (packet_addr packet) in
  let e0 := fst (visit key w) in
  let w1 := capture_follow h packet w in
  reachable w ->
  TCP.FIN t = false -> TCP.RST t = false ->
  (forall e, flows (conn w) !! key = Some e -> is_closed (ready e) w = false) ->
  exists e1,
    flows (conn w1) !! key = Some e1 /\
    ready e1 = ready e0 /\
    handle e1 = Some h /\ seq e1 = TCP.Ack t /\ ack e1 = TCP.Seq t /\
    (is_closed (ready e1) w1 = true <->
       is_Some (link_template packet) /\ is_Some (network_template packet)) /\
    (forall l n, link_template packet = Some l -> network_template packet = Some n ->
       linkLayer e1 = Some l /\ networkLayer e1 = Some n) /\
    (forall l, link_template packet = Some l -> network_template packet = None ->
       linkLayer e1 = Some l /\ networkLayer e1 = networkLayer e0) /\
    (link_template packet = None ->
       linkLayer e1 = linkLayer e0 /\ networkLayer e1 = networkLayer e0).
Proof.
  intros t key e0 w1 Hreach Hfin Hrst Ho.
  pose proof (reachable_wf _ Hreach) as Hwf.
  pose proof (visit_open key w Hwf Ho) as Hopen.
  pose proof (visit_frame key w) as (_ & Hcl & _).
  subst w1. unfold capture_follow. fold t. rewrite Hfin, Hrst. simpl.
  pose proof (lockflow_lookup (packet_addr packet) (follow h packet) w) as Hl.
  simpl in Hl. fold key in Hl. fold e0 in Hl, Hopen.
  set (wv := snd (visit key w)) in *.
  eexists. split; [exact Hl|].
  assert (Hcw : closed (snd (lockflow (packet_addr packet) (follow h packet) w)) =
                closed (snd (follow h packet e0 wv))).
  { unfold lockflow. fold key. subst e0 wv. destruct (visit key w) as [e w']. simpl.
    now destruct (follow h packet e w') as [[r e'] w2]. }
  unfold is_closed at 1. rewrite Hcw.
  rewrite (follow_open h packet e0 wv Hopen).
  apply is_closed_false in Hopen.
  destruct (link_template packet) as [l|]; [destruct (network_template packet) as [n|]|];
    simpl; split_and!; try reflexivity; try (intros; discriminate).
  - split; [intros _; split; eauto|]. intros _. apply bool_decide_eq_true.
    apply elem_of_union_l, elem_of_singleton. reflexivity.
  - intros l0 n0 [= <-] [= <-]. now split.
  - split; [|intros [_ [x Hx]]; discriminate].
    intros Hc. apply bool_decide_eq_true in Hc. contradiction.
  - intros l0 [= <-] _. now split.
  - split; [|intros [[x Hx] _]; discriminate].
    intros Hc. apply bool_decide_eq_true in Hc. contradiction.
  - intros _. now split.
Qed.

(** ** The capture loop on an entry that is there *)

Lemma set_flows_set_flows m1 m2 w : set_flows m2 (set_flows m1 w) = set_flows m2 w.
Proof. reflexivity. Qed.

Lemma insert_same_entry key (e : tcpFlow) w :
  flows (conn w) !! key = Some e -> set_flows (<[key := e]> (flows (conn w))) w = w.
Proof. intros Hk. now rewrite (insert_id _ _ _ Hk), set_flows_id. Qed.

(** Lines 107-157 on a ready entry: only [seq] changes. *)
Lemma capture_follow_ready h packet w e :
  flows (conn w) !! TCPAddr_String (packet_addr packet) = Some e ->
  is_closed (ready e) w = true ->
  TCP.FIN (TransportLayer packet) = false -> TCP.RST (TransportLayer packet) = false ->
  capture_follow h packet w =
  set_flows (<[TCPAddr_String (packet_addr packet) :=
                 mkFlow (handle e) (ready e) (TCP.Ack (TransportLayer packet)) (ack e)
                        (linkLayer e) (networkLayer e)]> (flows (conn w))) w.
Proof.
  intros Hk Hc Hfin Hrst. unfold capture_follow. rewrite Hfin, Hrst. simpl.
  erewrite lockflow_unfold; [reflexivity | apply (visit_old _ _ _ Hk) |].
  unfold follow. simpl. now rewrite Hc.
Qed.

(** Lines 159-170 on a packet with neither FIN nor RST, when the table
    has the entry. *)
Lemma capture_deliver_old packet w e :
  flows (conn w) !! TCPAddr_String (packet_addr packet) = Some e ->
  TCP.FIN (TransportLayer packet) = false -> TCP.RST (TransportLayer packet) = false ->
  let w' := set_flows (<[TCPAddr_String (packet_addr packet) :=
                           mkFlow (handle e) (ready e) (seq e) (ack_after packet (ack e))
                                  (linkLayer e) (networkLayer e)]> (flows (conn w))) w in
  capture_deliver packet w =
  match delivery packet with
  | Some m => push m w'
  | None => (w', Continue)
  end.
Proof.
  intros Hk Hfin Hrst. simpl. unfold capture_deliver, delivery, ack_after.
  rewrite Hfin, Hrst. simpl.
  destruct (TCP.SYN (TransportLayer packet)); simpl.
  { unfold ack_add. erewrite lockflow_pure_old by exact Hk. reflexivity. }
  destruct (TCP.PSH (TransportLayer packet)); simpl.
  { unfold ack_add. erewrite lockflow_pure_old by exact Hk. reflexivity. }
  f_equal. symmetry. destruct e. apply insert_same_entry. exact Hk.
Qed.

(** The loop body on a ready entry, for a packet with neither FIN nor
    RST. *)
Lemma capture_packet_ready h packet w e :
  flows (conn w) !! TCPAddr_String (packet_addr packet) = Some e ->
  is_closed (ready e) w = true ->
  TCP.FIN (TransportLayer packet) = false -> TCP.RST (TransportLayer packet) = false ->
  let w' := set_flows (<[TCPAddr_String (packet_addr packet) := heard packet e]>
                         (flows (conn w))) w in
  capture_packet h packet w =
  match delivery packet with
  | Some m => push m w'
  | None => (w', Continue)
  end.
Proof.
  intros Hk Hc Hfin Hrst. simpl. unfold capture_packet.
  rewrite (capture_follow_ready h packet w e Hk Hc Hfin Hrst).
  erewrite capture_deliver_old; [| simpl; apply lookup_insert_eq | assumption..].
  simpl. rewrite insert_insert_eq. reflexivity.
Qed.

(** ** A stream of packets from a ready peer (X4) *)

Lemma ack_after_gain packet a0 :
  (0 <= a0 < 2 ^ 32)%Z -> ack_after packet a0 = uint32 (a0 + ack_gain packet).
Proof.
  intros Hr. unfold ack_after, ack_gain.
  destruct (TCP.SYN (TransportLayer packet)); [reflexivity|].
  destruct (TCP.PSH (TransportLayer packet)).
  - unfold uint32. now rewrite Z.add_mod_idemp_r by lia.
  - rewrite Z.add_0_r. symmetry. now apply uint32_small.
Qed.

Lemma heard_all_ack packets e :
  (0 <= ack e < 2 ^ 32)%Z ->
  ack (heard_all packets e) = uint32 (ack e + total_gain packets).
Proof.
  revert e. induction packets as [|packet rest IH]; intros e Hr; simpl.
  - rewrite Z.add_0_r. symmetry. now apply uint32_small.
  - rewrite IH; simpl.
    + rewrite (ack_after_gain _ _ Hr). unfold uint32.
      rewrite Z.add_mod_idemp_l by lia. f_equal. lia.
    + rewrite (ack_after_gain _ _ Hr). apply uint32_range.
Qed.

Lemma heard_all_templates packets e : same_templates e (heard_all packets e).
Proof.
  revert e. induction packets as [|packet rest IH]; intros e; simpl.
  - apply same_templates_refl.
  - specialize (IH (heard packet e)). unfold same_templates in *. simpl in IH. exact IH.
Qed.

Lemma last_cons_default {A : Type} (x d : A) (l : list A) :
  List.last (x :: l) d = List.last l x.
Proof.
  revert x d. induction l as [|y l IH]; intros x d; [reflexivity|].
  change (List.last (x :: y :: l) d) with (List.last (y :: l) d).
  now rewrite (IH y d), (IH y x).
Qed.

Lemma heard_all_seq packets e :
  seq (heard_all packets e) =
  List.last (map (fun packet => TCP.Ack (TransportLayer packet)) packets) (seq e).
Proof.
  revert e. induction packets as [|packet rest IH]; intros e; [reflexivity|].
  change (heard_all (packet :: rest) e) with (heard_all rest (heard packet e)).
  rewrite IH. simpl seq. symmetry. apply last_cons_default.
Qed.

Lemma push_open m w :
  is_closed (die (conn w)) w = false -> push m w = (set_sendq (sendq w ++ [m]) w, Park).
Proof. intros Hd. unfold push. now rewrite Hd. Qed.

Lemma deliveries_cons packet rest :
  deliveries (packet :: rest) =
  match delivery packet with
  | Some m => m :: deliveries rest
  | None => deliveries rest
  end.
Proof. unfold deliveries. simpl. now destruct (delivery packet). Qed.

(** The runner, case by case. *)
Lemma among_continue h packet rest others w w1 :
  capture_packet h packet w = (w1, Continue) ->
  captureFlow_among h (packet :: rest) others w = captureFlow_among h rest others w1.
Proof. intros H. cbn [captureFlow_among]. now rewrite H. Qed.

Lemma among_parked h packet rest w w1 :
  capture_packet h packet w = (w1, Park) ->
  captureFlow_among h (packet :: rest) [] w = ([], w1, rest).
Proof. intros H. cbn [captureFlow_among]. now rewrite H. Qed.

Lemma among_closed h packet rest others w w1 :
  capture_packet h packet w = (w1, Park) ->
  captureFlow_among h (packet :: rest) (Closes :: others) w = ([], snd (Close w1), rest).
Proof. intros H. cbn [captureFlow_among]. now rewrite H. Qed.

Lemma among_read h packet rest p others w w1 r w2 :
  capture_packet h packet w = (w1, Park) ->
  ReadFrom p w1 = (r, w2) ->
  sendq w2 = [] ->
  captureFlow_among h (packet :: rest) (Reads p :: others) w =
  (r :: fst (fst (captureFlow_among h rest others w2)),
   snd (fst (captureFlow_among h rest others w2)),
   snd (captureFlow_among h rest others w2)).
Proof.
  intros H Hr Hq. cbn [captureFlow_among]. rewrite H, Hr, Hq.
  now destruct (captureFlow_among h rest others w2) as [[rs w3] untaken].
Qed.

(** [ReadFrom] at a parked loop whose message is the only one waiting. *)
Lemma ReadFrom_parked p m w :
  is_closed (die (conn w)) w = false ->
  sendq w = [m] ->
  ReadFrom p w = (received_into p m, set_sendq [] w).
Proof. intros Hd Hq. unfold ReadFrom, received_into. now rewrite Hd, Hq. Qed.

Lemma set_sendq_back m w : sendq w = [] -> set_sendq [] (set_sendq (sendq w ++ [m]) w) = w.
Proof. intros Hq. destruct w. simpl in *. now subst. Qed.

Lemma captureFlow_among_ready h packets bufs a w e :
  flows (conn w) !! TCPAddr_String a = Some e ->
  is_closed (ready e) w = true ->
  is_closed (die (conn w)) w = false ->
  sendq w = [] ->
  Forall (from_peer a) packets ->
  length (deliveries packets) <= length bufs ->
  captureFlow_among h packets (map Reads bufs) w =
  (zip_with received_into bufs (deliveries packets),
   set_flows (<[TCPAddr_String a := heard_all packets e]> (flows (conn w))) w,
   []).
Proof.
  revert bufs w e. induction packets as [|packet rest IH]; intros bufs w e Hk Hc Hd Hq Hall Hlen.
  - simpl. rewrite (insert_same_entry _ _ _ Hk).
    replace (set_flows (flows (conn w)) w) with w by (now destruct w as [[]]).
    now destruct bufs.
  - apply Forall_cons in Hall as [(Ha & Hfin & Hrst) Hall].
    rewrite <- Ha in Hk.
    pose proof (capture_packet_ready h packet w e Hk Hc Hfin Hrst) as Hcp. simpl in Hcp.
    rewrite Ha in *.
    set (w' := set_flows (<[TCPAddr_String a := heard packet e]> (flows (conn w))) w) in *.
    assert (Hk' : flows (conn w') !! TCPAddr_String a = Some (heard packet e))
      by (simpl; apply lookup_insert_eq).
    assert (Hq' : sendq w' = []) by exact Hq.
    assert (Hend : set_flows (<[TCPAddr_String a := heard_all rest (heard packet e)]>
                                (flows (conn w'))) w' =
                   set_flows (<[TCPAddr_String a := heard_all (packet :: rest) e]>
                                (flows (conn w))) w).
    { subst w'. unfold set_flows. simpl. now rewrite insert_insert_eq. }
    rewrite deliveries_cons in *.
    destruct (delivery packet) as [m|]; simpl in Hlen.
    + rewrite (push_open m w') in Hcp by exact Hd.
      destruct bufs as [|p bufs]; simpl in Hlen; [lia|].
      assert (Hr : ReadFrom p (set_sendq (sendq w' ++ [m]) w') =
                   (received_into p m, set_sendq [] (set_sendq (sendq w' ++ [m]) w')))
        by (apply ReadFrom_parked; [exact Hd | unfold set_sendq; cbn [sendq]; now rewrite Hq']).
      simpl map. rewrite (among_read _ _ _ _ _ _ _ _ _ Hcp Hr eq_refl).
      rewrite (set_sendq_back m w' Hq').
      rewrite (IH bufs w' (heard packet e) Hk' Hc Hd Hq' Hall ltac:(lia)).
      cbn [fst snd zip_with]. now rewrite Hend.
    + rewrite (among_continue _ _ _ _ _ _ Hcp).
      rewrite (IH bufs w' (heard packet e) Hk' Hc Hd Hq' Hall Hlen).
      now rewrite Hend.
Qed.

(** X4.  Packets of one peer, none with FIN or RST, through the capture
    loop, on an entry that is ready and with shutdown not latched, while
    a reader takes each message the loop sends: no other message is
    waiting, and there is a call of [ReadFrom] for every message.  The
    loop takes all the packets.  The entry keeps its latch, handle and
    templates; its [seq] is the acknowledgment number of the last packet;
    its [ack] has grown by one for every SYN and by the payload length
    for every PSH without SYN, modulo [2^32], duplicates included; the
    calls of [ReadFrom] get the payloads of the PSH segments without SYN
    in arrival order; and nothing else changes: no message is left
    waiting, no channel is closed, nothing is written. *)
Theorem captureFlow_ack_accumulates (h : Handle) (packets : list Packet)
    (bufs : list (list byte)) (a : TCPAddr) (w : World) (e : tcpFlow) :
  flows (conn w) !! TCPAddr_String a = Some e ->
  is_closed (ready e) w = true ->
  is_closed (die (conn w)) w = false ->
  sendq w = [] ->
  (0 <= ack e < 2 ^ 32)%Z ->
  Forall (from_peer a) packets ->
  length (deliveries packets) <= length bufs ->
  exists e',
    captureFlow_among h packets (map Reads bufs) w =
      (zip_with received_into bufs (deliveries packets),
       set_flows (<[TCPAddr_String a := e']> (flows (conn w))) w,
       []) /\
    same_templates e e' /\
    ack e' = uint32 (ack e + total_gain packets) /\
    seq e' = List.last (map (fun packet => TCP.Ack (TransportLayer packet)) packets) (seq e).
Proof.
  intros Hk Hc Hd Hq Hr Hall Hlen.
  exists (heard_all packets e). split_and!.
  - now apply captureFlow_among_ready.
  - apply heard_all_templates.
  - now apply heard_all_ack.
  - apply heard_all_seq.
Qed.

(** ** What reaches the reader (X5) *)

Lemma capture_follow_frame h packet w :
  sendq (capture_follow h packet w) = sendq w /\
  dieOnce (conn (capture_follow h packet w)) = dieOnce (conn w) /\
  die (conn (capture_follow h packet w)) = die (conn w).
Proof.
  unfold capture_follow. destruct (_ && _); [|auto].
  pose proof (lockflow_frame (packet_addr packet) (follow h packet) w (follow_gentle h packet))
    as (? & ? & ? & _).
  auto.
Qed.

(** The loop body while shutdown is not latched: with a message the loop
    parks, the message last in the channel; without one it goes on. *)
Lemma capture_packet_open h packet w :
  wf w -> dieOnce (conn w) = false ->
  snd (capture_packet h packet w) =
    match delivery packet with Some _ => Park | None => Continue end /\
  sendq (fst (capture_packet h packet w)) =
    sendq w ++ match delivery packet with Some m => [m] | None => [] end /\
  dieOnce (conn (fst (capture_packet h packet w))) = false.
Proof.
  intros Hwf Ho.
  pose proof (capture_follow_frame h packet w) as (Hq1 & Ho1 & _).
  pose proof (capture_follow_wf h packet w Hwf) as Hwf1.
  unfold capture_packet. set (w1 := capture_follow h packet w) in *.
  unfold capture_deliver, delivery.
  destruct (TCP.SYN (TransportLayer packet)); simpl.
  { pose proof (lockflow_frame (packet_addr packet) (ack_add 1) w1 (ack_add_gentle _))
      as (Hq & _ & Hd & _).
    rewrite app_nil_r. split_and!; [reflexivity | congruence | congruence]. }
  destruct (TCP.PSH (TransportLayer packet)); simpl.
  { set (n := Z.of_nat (length (TCP.Payload (TransportLayer packet)))).
    pose proof (lockflow_frame (packet_addr packet) (ack_add n) w1 (ack_add_gentle _))
      as (Hq & _ & Hd & _).
    assert (Hwf2 : wf (snd (lockflow (packet_addr packet) (ack_add n) w1)))
      by (apply lockflow_wf; [apply ack_add_gentle | assumption]).
    set (w2 := snd (lockflow (packet_addr packet) (ack_add n) w1)) in *.
    assert (Ho2 : dieOnce (conn w2) = false) by congruence.
    assert (Hopen : is_closed (die (conn w2)) w2 = false)
      by (apply is_closed_false; now apply wf_die_open).
    rewrite (push_open _ w2 Hopen). simpl.
    split_and!; [reflexivity | congruence | exact Ho2]. }
  rewrite app_nil_r.
  destruct (TCP.FIN (TransportLayer packet) || TCP.RST (TransportLayer packet)); simpl;
    split_and!; try reflexivity; congruence.
Qed.

Lemma Close_closes_die w :
  dieOnce (conn w) = false ->
  is_closed (die (conn (snd (Close w)))) (snd (Close w)) = true.
Proof.
  intros Ho. rewrite (Close_first _ Ho). simpl.
  apply is_closed_true. simpl. apply elem_of_union_l, elem_of_singleton. reflexivity.
Qed.

Lemma ReadFrom_closed p w :
  is_closed (die (conn w)) w = true -> ReadFrom p w = (Returns (0, None, Some io_EOF, p), w).
Proof. intros Hd. unfold ReadFrom. now rewrite Hd. Qed.

Lemma captureFlow_among_reads h packets :
  forall bufs w,
  wf w -> dieOnce (conn w) = false -> sendq w = [] ->
  exists w',
    captureFlow_among h packets (map Reads bufs) w =
      (zip_with received_into bufs (deliveries packets), w',
       unhandled (length bufs) packets) /\
    sendq w' = take 1 (drop (length bufs) (deliveries packets)) /\
    wf w' /\ dieOnce (conn w') = false /\
    rtc step w w' /\
    (length bufs < length (deliveries packets) ->
       captureFlow_among h packets (map Reads bufs ++ [Closes]) w =
         (zip_with received_into bufs (deliveries packets), snd (Close w'),
          unhandled (length bufs) packets)).
Proof.
  induction packets as [|packet rest IH]; intros bufs w Hwf Ho Hq.
  - exists w. unfold deliveries. simpl. rewrite drop_nil.
    split_and!; try assumption; try reflexivity.
    + now destruct bufs.
    + intros Hlt. lia.
  - destruct (capture_packet_open h packet w Hwf Ho) as (Hctl & Hq1 & Ho1).
    pose proof (capture_packet_wf h packet w Hwf) as Hwf1.
    pose proof (capture_packet_steps h packet w) as Hs1.
    destruct (capture_packet h packet w) as [w1 ctl] eqn:Hcp.
    simpl in Hctl, Hq1, Ho1, Hwf1, Hs1.
    rewrite Hq in Hq1. simpl in Hq1. rewrite deliveries_cons.
    destruct (delivery packet) as [m|] eqn:Hdl; subst ctl.
    + assert (Hd1 : is_closed (die (conn w1)) w1 = false)
        by (apply is_closed_false; now apply wf_die_open).
      destruct bufs as [|p bufs].
      * exists w1. cbn [map app length]. rewrite (among_parked _ _ _ _ _ Hcp).
        cbn [unhandled]. rewrite Hdl.
        split_and!; try assumption; try reflexivity.
        intros _. now rewrite (among_closed _ _ _ _ _ _ Hcp).
      * pose proof (ReadFrom_parked p m w1 Hd1 Hq1) as Hr.
        destruct (IH bufs (set_sendq [] w1) (set_sendq_wf _ _ Hwf1) Ho1 eq_refl)
          as (w' & Hrun & Hq' & Hwf' & Ho' & Hs' & Hclose).
        exists w'. cbn [map app length zip_with].
        rewrite (among_read _ _ _ _ _ _ _ _ _ Hcp Hr eq_refl), Hrun.
        cbn [fst snd unhandled drop]. rewrite Hdl.
        split_and!; try assumption; try reflexivity.
        -- eapply rtc_trans; [exact Hs1|].
           eapply rtc_l; [|exact Hs'].
           replace (set_sendq [] w1) with (snd (ReadFrom p w1)) by now rewrite Hr.
           apply step_receive.
        -- intros Hlt.
           rewrite (among_read _ _ _ _ _ _ _ _ _ Hcp Hr eq_refl).
           rewrite Hclose by (simpl in Hlt; lia). reflexivity.
    + destruct (IH bufs w1 Hwf1 Ho1 Hq1) as (w' & Hrun & Hq' & Hwf' & Ho' & Hs' & Hclose).
      exists w'. rewrite (among_continue _ _ _ _ _ _ Hcp), Hrun.
      cbn [unhandled]. rewrite Hdl.
      split_and!; try assumption; try reflexivity.
      * exact (rtc_trans _ _ _ Hs1 Hs').
      * intros Hlt. rewrite (among_continue _ _ _ _ _ _ Hcp). now apply Hclose.
Qed.

(** X5.  Any packets, of any peers and with any flags, through the
    capture loop in a state the connection can reach, with shutdown not
    latched and no message waiting, while a reader calls [ReadFrom] once
    with each of the buffers [bufs].  [chMessage] is unbuffered: at every
    segment that has PSH and not SYN, those with FIN or RST included, the
    loop parks until the reader has taken its payload.  So the calls of
    [ReadFrom] get these payloads with their peers, one each and in
    arrival order; the payload of a segment with SYN or without PSH goes
    nowhere.  When the calls run out, the loop stays parked at the next
    such segment with its message waiting, and takes none of the packets
    after it; a [Close] at that point makes the loop return, and the
    waiting message is never received: [ReadFrom] returns [io.EOF]. *)
Theorem captureFlow_delivers_psh_in_order (h : Handle) (packets : list Packet)
    (bufs : list (list byte)) (w : World) :
  reachable w ->
  is_closed (die (conn w)) w = false ->
  sendq w = [] ->
  exists w',
    captureFlow_among h packets (map Reads bufs) w =
      (zip_with received_into bufs (deliveries packets), w',
       unhandled (length bufs) packets) /\
    sendq w' = take 1 (drop (length bufs) (deliveries packets)) /\
    is_closed (die (conn w')) w' = false /\
    rtc step w w' /\
    (length bufs < length (deliveries packets) ->
       captureFlow_among h packets (map Reads bufs ++ [Closes]) w =
         (zip_with received_into bufs (deliveries packets), snd (Close w'),
          unhandled (length bufs) packets) /\
       forall p, ReadFrom p (snd (Close w')) =
                 (Returns (0, None, Some io_EOF, p), snd (Close w'))).
Proof.
  intros Hreach Hd Hq. pose proof (reachable_wf _ Hreach) as Hwf.
  pose proof (open_die_not_latched w Hwf Hd) as Ho.
  destruct (captureFlow_among_reads h packets bufs w Hwf Ho Hq)
    as (w' & Hrun & Hq' & Hwf' & Ho' & Hs & Hclose).
  exists w'. split_and!; try assumption.
  - apply is_closed_false. now apply wf_die_open.
  - intros Hlt. split; [now apply Hclose|].
    intros p. apply ReadFrom_closed. now apply Close_closes_die.
Qed.

(** ** Reading in order (X6) *)

Lemma set_sendq_id w : set_sendq (sendq w) w = w.
Proof. now destruct w. Qed.

(** X6.  With shutdown not latched and at least as many messages on the
    channel as there are buffers, consecutive calls of [ReadFrom] take
    the messages oldest first: call [i] returns what [ReadFrom] returns
    for message [i] and buffer [i], and the messages not read stay on
    the channel in their order. *)
Theorem ReadFrom_reads_in_order (bufs : list (list byte)) (w : World) :
  is_closed (die (conn w)) w = false ->
  length bufs <= length (sendq w) ->
  ReadFrom_each bufs w =
  (zip_with received_into bufs (sendq w), set_sendq (drop (length bufs) (sendq w)) w).
Proof.
  revert w. induction bufs as [|p rest IH]; intros w Hd Hlen; simpl.
  - now rewrite drop_0, set_sendq_id.
  - destruct (sendq w) as [|m q] eqn:Hq; simpl in Hlen; [lia|].
    unfold ReadFrom. rewrite Hd, Hq.
    rewrite (IH (set_sendq q w)); [| exact Hd | simpl; lia].
    reflexivity.
Qed.

(** ** The reply to a first packet (X7) *)

(** [WriteTo] on a populated entry when its [select] takes the [ready]
    case. *)
Lemma WriteTo_goes p a pick werr w e tcpaddr h l n :
  flows (conn w) !! TCPAddr_String a = Some e ->
  select_die_ready pick (ready e) w = Some CaseReady ->
  ResolveTCPAddr (TCPAddr_String a) = inl tcpaddr ->
  handle e = Some h -> linkLayer e = Some l -> networkLayer e = Some n ->
  fst (WriteTo p a pick werr w) = written p werr /\
  trace (snd (WriteTo p a pick werr w)) =
    trace w ++ [EvWritePacketData h (mkFrame l n (tcp_header (conn w) tcpaddr e) p) werr].
Proof.
  intros Hk Hsel Hres Hh Hl Hn. unfold WriteTo.
  rewrite (lockflow_get_ready_old _ _ _ Hk). unfold WriteTo_wait. rewrite Hsel.
  rewrite (WriteTo_ready_old _ _ _ _ _ Hk), Hres, Hh, Hl, Hn.
  destruct werr; simpl; split; reflexivity.
Qed.

Lemma network_template_dst packet n :
  network_template packet = Some n -> NetworkLayer_DstIP n = IP (packet_addr packet).
Proof.
  unfold network_template, packet_addr.
  destruct (layerIPv4 packet); [intros [= <-]; reflexivity|].
  destruct (layerIPv6 packet); [intros [= <-]; reflexivity | discriminate].
Qed.

(** X7.  The first packet of a peer and the reply to it.  In a state the
    connection can reach, shutdown not latched, a packet with neither FIN
    nor RST and with a link and a network layer arrives on handle [h]
    from a peer whose entry is missing or not ready; then [WriteTo] is
    called for that peer.  The call does not block: it hands one frame to
    handle [h], made of the two templates of the packet, a TCP header and
    the payload.  The network template is addressed to the IP of the
    peer address; the header quotes the packet's acknowledgment number as
    [seq] and as [ack] the packet's sequence number, plus one for a SYN
    or plus the payload length for a PSH without SYN. *)
Theorem reply_follows_first_packet (h : Handle) (packet : Packet) (p : list byte)
    (pick : select_case) (werr : option error) (w : World)
    (l : LinkLayer) (n : NetworkLayer) (tcpaddr : TCPAddr) :
  let t := TransportLayer packet in
  let a := packet_addr packet in
  reachable w ->
  is_closed (die (conn w)) w = false ->
  TCP.FIN t = false -> TCP.RST t = false ->
  (forall e, flows (conn w) !! TCPAddr_String a = Some e -> is_closed (ready e) w = false) ->
  link_template packet = Some l -> network_template packet = Some n ->
  ResolveTCPAddr (TCPAddr_String a) = inl tcpaddr ->
  let w1 := fst (capture_packet h packet w) in
  let header :=
    TCP.mk (uint16 (Port (localAddr (conn w)))) (uint16 (Port tcpaddr))
           (TCP.Ack t) (ack_after packet (TCP.Seq t))
           false false false true true 12580 [] in
  fst (WriteTo p a pick werr w1) = written p werr /\
  trace (snd (WriteTo p a pick werr w1)) =
    trace w1 ++ [EvWritePacketData h (mkFrame l n header p) werr] /\
  NetworkLayer_DstIP n = IP a.
Proof.
  intros t a Hreach Hd Hfin Hrst Ho Hl Hn Hres w1 header.
  pose proof (reachable_wf _ Hreach) as Hwf.
  set (key := TCPAddr_String a) in *.
  destruct (visit key w) as [e0 wv] eqn:Hv.
  destruct (visit_wf _ _ _ _ Hwf Hv) as (Hwfv & (_ & Hne & _ & _) & Hcv & Hclv & _).
  assert (He0 : is_closed (ready e0) wv = false).
  { pose proof (visit_open key w Hwf Ho) as H0. now rewrite Hv in H0. }
  (* lines 107-157 *)
  set (E1 := mkFlow (Some h) (ready e0) (TCP.Ack t) (TCP.Seq t) (Some l) (Some n)).
  assert (Hf : capture_follow h packet w =
               set_flows (<[key := E1]> (flows (conn wv))) (close_chan (ready e0) wv)).
  { unfold capture_follow. fold t. rewrite Hfin, Hrst. simpl.
    assert (HfE : follow h packet e0 wv = (tt, E1, close_chan (ready e0) wv))
      by (rewrite (follow_open h packet e0 wv He0), Hl, Hn; reflexivity).
    now rewrite (lockflow_unfold (packet_addr packet) (follow h packet) w e0 wv
                   tt E1 (close_chan (ready e0) wv) Hv HfE). }
  (* lines 159-170 *)
  set (E2 := mkFlow (Some h) (ready e0) (TCP.Ack t) (ack_after packet (TCP.Seq t))
                    (Some l) (Some n)).
  set (w2 := set_flows (<[key := E2]> (flows (conn wv))) (close_chan (ready e0) wv)).
  assert (Hd2 : is_closed (die (conn w2)) w2 = false).
  { apply is_closed_false. simpl. rewrite Hcv, Hclv.
    intros [Hx|Hx]%elem_of_union.
    - apply elem_of_singleton in Hx. apply Hne. now rewrite Hcv.
    - apply is_closed_false in Hd. contradiction. }
  assert (Hw1 : w1 = w2 \/ exists m, w1 = set_sendq (sendq w2 ++ [m]) w2).
  { subst w1. unfold capture_packet. rewrite Hf.
    erewrite capture_deliver_old; [| simpl; apply lookup_insert_eq | assumption..].
    simpl. rewrite insert_insert_eq.
    change (set_flows (<[key := E2]> (flows (conn wv)))
              (set_flows (<[key := E1]> (flows (conn wv))) (close_chan (ready e0) wv)))
      with w2.
    destruct (delivery packet) as [m|]; [|now left].
    right. exists m. rewrite push_open by exact Hd2. reflexivity. }
  assert (Hgo : flows (conn w1) !! key = Some E2 /\
                select_die_ready pick (ready E2) w1 = Some CaseReady /\
                trace w1 = trace w2 /\ localAddr (conn w1) = localAddr (conn w)).
  { assert (H2 : select_die_ready pick (ready E2) w2 = Some CaseReady).
    { unfold select_die_ready. rewrite Hd2.
      assert (is_closed (ready E2) w2 = true) as ->; [|reflexivity].
      apply is_closed_true. simpl. apply elem_of_union_l, elem_of_singleton. reflexivity. }
    assert (H3 : localAddr (conn w2) = localAddr (conn w)) by (simpl; now rewrite Hcv).
    destruct Hw1 as [-> | [m ->]]; (split_and!; [simpl; apply lookup_insert_eq | | |]);
      try exact H2; try exact H3; reflexivity. }
  destruct Hgo as (Hk & Hsel & Ht & Hla).
  destruct (WriteTo_goes p a pick werr w1 E2 tcpaddr h l n Hk Hsel Hres eq_refl eq_refl eq_refl)
    as [Hr Htr].
  split_and!.
  - exact Hr.
  - rewrite Htr. unfold tcp_header. rewrite Hla. reflexivity.
  - now apply network_template_dst.
Qed.

(** ** After [Close], again (X8, X9) *)

(** X8.  [Close] does not stop a [WriteTo] to a ready peer.  In the state
    the first [Close] leaves, a call whose [select] takes the [die] case
    returns [0, io.EOF] and changes nothing; a call whose [select] takes
    the [ready] case builds its frame as before and hands it to
    [WritePacketData], on a handle that [Close] has closed when it is one
    of the connection's handles. *)
Theorem WriteTo_after_Close (p : list byte) (a : TCPAddr) (werr : option error)
    (w : World) (e : tcpFlow) (tcpaddr : TCPAddr) :
  reachable w ->
  is_closed (die (conn w)) w = false ->
  flows (conn w) !! TCPAddr_String a = Some e ->
  is_closed (ready e) w = true ->
  ResolveTCPAddr (TCPAddr_String a) = inl tcpaddr ->
  let wc := snd (Close w) in
  WriteTo p a CaseDie werr wc = (Returns (0%Z, Some io_EOF), wc) /\
  exists h l n,
    handle e = Some h /\ linkLayer e = Some l /\ networkLayer e = Some n /\
    fst (WriteTo p a CaseReady werr wc) = written p werr /\
    trace (snd (WriteTo p a CaseReady werr wc)) =
      trace wc ++ [EvWritePacketData h (mkFrame l n (tcp_header (conn w) tcpaddr e) p) werr] /\
    (In h (handles (conn w)) -> 1 <= handle_closes h (trace wc)).
Proof.
  intros Hreach Hd Hk Hc Hres wc.
  pose proof (reachable_wf _ Hreach) as Hwf.
  pose proof (open_die_not_latched w Hwf Hd) as Ho.
  apply is_closed_true in Hc.
  destruct (wf_populated _ Hwf _ _ Hk Hc) as ([h Hh] & [l Hl] & [n Hn]).
  assert (Hkc : flows (conn wc) !! TCPAddr_String a = Some e)
    by (subst wc; now rewrite Close_flows).
  assert (Hcl : closed wc = {[die (conn w)]} ∪ closed w /\ die (conn wc) = die (conn w) /\
                localAddr (conn wc) = localAddr (conn w) /\
                trace wc = trace w ++ EvCloseChan (die (conn w)) :: shutdown_events (conn w)).
  { subst wc. rewrite (Close_first _ Ho). simpl. auto. }
  destruct Hcl as (Hcl & Hdie & Hla & Htr).
  assert (Hdc : is_closed (die (conn wc)) wc = true).
  { apply is_closed_true. rewrite Hcl, Hdie. apply elem_of_union_l, elem_of_singleton.
    reflexivity. }
  assert (Hrc : is_closed (ready e) wc = true).
  { apply is_closed_true. rewrite Hcl. now apply elem_of_union_r. }
  split.
  - unfold WriteTo. rewrite (lockflow_get_ready_old _ _ _ Hkc).
    unfold WriteTo_wait, select_die_ready. now rewrite Hdc, Hrc.
  - exists h, l, n.
    assert (Hsel : select_die_ready CaseReady (ready e) wc = Some CaseReady)
      by (unfold select_die_ready; now rewrite Hdc, Hrc).
    destruct (WriteTo_goes p a CaseReady werr wc e tcpaddr h l n Hkc Hsel Hres Hh Hl Hn)
      as [Hr Hw].
    split_and!; try assumption.
    + rewrite Hw. unfold tcp_header. now rewrite Hla.
    + intros Hin. rewrite Htr, handle_closes_app.
      rewrite handle_closes_shutdown.
      apply (count_occ_In Nat.eq_dec) in Hin. lia.
Qed.

Lemma capture_packet_silent h packet w :
  delivery packet = None ->
  snd (capture_packet h packet w) = Continue /\
  sendq (fst (capture_packet h packet w)) = sendq w.
Proof.
  intros Hdl. pose proof (capture_follow_frame h packet w) as (Hq1 & _).
  unfold capture_packet. set (w1 := capture_follow h packet w) in *.
  unfold capture_deliver. unfold delivery in Hdl.
  destruct (TCP.SYN (TransportLayer packet)); simpl in *.
  { pose proof (lockflow_frame (packet_addr packet) (ack_add 1) w1 (ack_add_gentle _))
      as (Hq & _).
    split; [reflexivity | congruence]. }
  destruct (TCP.PSH (TransportLayer packet)); [discriminate|].
  destruct (TCP.FIN (TransportLayer packet) || TCP.RST (TransportLayer packet)); simpl;
    split; try reflexivity; assumption.
Qed.

Lemma capture_packet_latched h packet w m :
  is_closed (die (conn w)) w = true ->
  delivery packet = Some m ->
  snd (capture_packet h packet w) = Return /\
  sendq (fst (capture_packet h packet w)) = sendq w.
Proof.
  intros Hd Hdl. pose proof (capture_follow_frame h packet w) as (Hq1 & _ & Hd1).
  pose proof (steps_closed_mono _ _ (capture_follow_steps h packet w)) as Hm1.
  unfold capture_packet. set (w1 := capture_follow h packet w) in *.
  unfold capture_deliver. unfold delivery in Hdl.
  destruct (TCP.SYN (TransportLayer packet)); [discriminate|].
  destruct (TCP.PSH (TransportLayer packet)); [|discriminate]. simpl.
  set (n := Z.of_nat (length (TCP.Payload (TransportLayer packet)))).
  pose proof (lockflow_frame (packet_addr packet) (ack_add n) w1 (ack_add_gentle _))
    as (Hq & Hd2 & _).
  pose proof (lockflow_closed_mono (packet_addr packet) (ack_add n) w1 (ack_add_gentle _))
    as Hm2.
  set (w2 := snd (lockflow (packet_addr packet) (ack_add n) w1)) in *.
  assert (Hc2 : is_closed (die (conn w2)) w2 = true).
  { apply is_closed_true. apply is_closed_true in Hd. rewrite Hd2, Hd1.
    apply Hm2, Hm1, Hd. }
  unfold push. rewrite Hc2. simpl. split; [reflexivity | congruence].
Qed.

(** X9.  The capture loop after shutdown is latched.  It goes on through
    the packets that have nothing to deliver, following [seq] and [ack]
    as before; at the first segment with PSH and without SYN it still
    adds the payload length to [ack], then returns: the payload is not
    delivered, and the packets after it are not handled. *)
Theorem captureFlow_after_Close_stops (h : Handle) (pre post : list Packet)
    (packet : Packet) (m : message) (w : World) :
  is_closed (die (conn w)) w = true ->
  deliveries pre = [] ->
  delivery packet = Some m ->
  captureFlow h (pre ++ packet :: post) w =
    fst (capture_packet h packet (captureFlow h pre w)) /\
  snd (capture_packet h packet (captureFlow h pre w)) = Return /\
  sendq (captureFlow h (pre ++ packet :: post) w) = sendq w.
Proof.
  revert w. induction pre as [|q pre IH]; intros w Hd Hpre Hdl.
  - simpl. destruct (capture_packet_latched h packet w m Hd Hdl) as [Hr Hq].
    destruct (capture_packet h packet w) as [w1 ctl]. simpl in *. subst ctl. auto.
  - unfold deliveries in Hpre. simpl in Hpre.
    destruct (delivery q) eqn:Hq0; [discriminate|].
    destruct (capture_packet_silent h q w Hq0) as [Hc Hq1].
    assert (Hd1 : is_closed (die (conn (fst (capture_packet h q w))))
                    (fst (capture_packet h q w)) = true).
    { apply is_closed_true. apply is_closed_true in Hd.
      rewrite (steps_die _ _ (capture_packet_steps h q w)).
      now apply (steps_closed_mono _ _ (capture_packet_steps h q w)). }
    simpl. destruct (capture_packet h q w) as [w1 ctl]. simpl in *. subst ctl.
    destruct (IH w1 Hd1 Hpre Hdl) as (H1 & H2 & H3).
    split_and!; [exact H1 | exact H2 | congruence].
Qed.

(** ** Two writers at once (X10) *)

(** The [ready] case of [WriteTo] in stages: the copy of the entry, the
    frame, the write, the advance of [seq]. *)
Lemma WriteTo_ready_stages p a werr w :
  WriteTo_ready p a werr w =
  match ResolveTCPAddr (TCPAddr_String a) with
  | inr err => (Returns (0%Z, Some err), w)
  | inl tcpaddr =>
      let '(flow, w1) := lockflow a get_flow w in
      match outgoing (conn w1) tcpaddr flow p with
      | None => (Panics, w1)
      | Some (h, f) =>
          let w2 := emit (EvWritePacketData h f werr) w1 in
          match werr with
          | Some err => (Returns (0%Z, Some err), w2)
          | None =>
              (Returns (Z.of_nat (length p), None),
               snd (lockflow a (seq_add (Z.of_nat (length p))) w2))
          end
      end
  end.
Proof.
  unfold WriteTo_ready, outgoing.
  destruct (ResolveTCPAddr (TCPAddr_String a)); [|reflexivity].
  destruct (lockflow a get_flow w) as [flow w1].
  destruct (networkLayer flow), (linkLayer flow), (handle flow); reflexivity.
Qed.

(** X10.  Two calls of [WriteTo] to a ready peer that overlap: when both
    have copied the entry before either has advanced [seq], both frames
    carry the same sequence number, the one the entry had, although the
    entry ends with [seq] advanced by both payload lengths.  The run is a
    run of the connection's atomic steps. *)
Theorem overlapping_writes_share_seq (p1 p2 : list byte) (a tcpaddr : TCPAddr)
    (w : World) (e : tcpFlow) (h : Handle) (l : LinkLayer) (n : NetworkLayer) :
  flows (conn w) !! TCPAddr_String a = Some e ->
  handle e = Some h -> linkLayer e = Some l -> networkLayer e = Some n ->
  exists w' f1 f2 e',
    WriteTo_twice_interleaved p1 p2 a tcpaddr w = Some w' /\
    rtc step w w' /\
    trace w' = trace w ++ [EvWritePacketData h f1 None; EvWritePacketData h f2 None] /\
    framePayload f1 = p1 /\ framePayload f2 = p2 /\
    TCP.Seq (frameTCP f1) = seq e /\ TCP.Seq (frameTCP f2) = seq e /\
    flows (conn w') !! TCPAddr_String a = Some e' /\
    seq e' = uint32 (uint32 (seq e + uint32 (Z.of_nat (length p1)))
                     + uint32 (Z.of_nat (length p2))).
Proof.
  intros Hk Hh Hl Hn.
  set (f1 := mkFrame l n (tcp_header (conn w) tcpaddr e) p1).
  set (f2 := mkFrame l n (tcp_header (conn w) tcpaddr e) p2).
  set (wa := emit (EvWritePacketData h f1 None) w).
  set (wb := emit (EvWritePacketData h f2 None) wa).
  set (e1 := advanced (Z.of_nat (length p1)) e).
  set (wc := set_flows (<[TCPAddr_String a := e1]> (flows (conn wb))) wb).
  set (e2 := advanced (Z.of_nat (length p2)) e1).
  set (wd := set_flows (<[TCPAddr_String a := e2]> (flows (conn wc))) wc).
  assert (Hc : lockflow a (seq_add (Z.of_nat (length p1))) wb = (tt, wc)).
  { unfold seq_add.
    now rewrite (lockflow_pure_old a (fun _ => tt) (advanced (Z.of_nat (length p1))) wb e). }
  assert (Hd : lockflow a (seq_add (Z.of_nat (length p2))) wc = (tt, wd)).
  { unfold seq_add.
    rewrite (lockflow_pure_old a (fun _ => tt) (advanced (Z.of_nat (length p2))) wc e1);
      [reflexivity | simpl; apply lookup_insert_eq]. }
  exists wd, f1, f2, e2. split_and!; try reflexivity.
  - unfold WriteTo_twice_interleaved.
    rewrite (lockflow_get_flow_old _ _ _ Hk), (lockflow_get_flow_old _ _ _ Hk).
    unfold outgoing. rewrite Hh, Hl, Hn. fold f1 f2 wa wb.
    rewrite Hc. cbn [snd]. rewrite Hd. reflexivity.
  - assert (H1 : step wb wc)
      by (replace wc with (snd (lockflow a (seq_add (Z.of_nat (length p1))) wb))
            by (now rewrite Hc); apply step_seq).
    assert (H2 : step wc wd)
      by (replace wd with (snd (lockflow a (seq_add (Z.of_nat (length p2))) wc))
            by (now rewrite Hd); apply step_seq).
    assert (H0 : step w w).
    { replace w with (snd (lockflow a get_flow w)) at 2
        by (now rewrite (lockflow_get_flow_old _ _ _ Hk)).
      apply step_get_flow. }
    eapply rtc_l; [exact H0|]. eapply rtc_l; [exact H0|].
    eapply rtc_l; [apply (step_write h f1 None)|].
    eapply rtc_l; [apply (step_write h f2 None)|].
    eapply rtc_l; [exact H1|]. apply rtc_once, H2.
  - simpl. now rewrite <- app_assoc.
  - simpl. apply lookup_insert_eq.
Qed.

(** ** Templates of a template (X11) *)

(** X11.  The templates point back.  When a packet [reply] carries as
    its link and network layers the templates built from [packet], the
    templates built from [reply] are [packet]'s own headers again: the
    Ethernet header with its addresses and type, the loopback header,
    and the IPv4 or IPv6 header with its addresses, protocol or next
    header, version and IP identification, but with TTL or hop limit 64
    and, for IPv4, the flags set to don't-fragment. *)
Theorem templates_point_back (packet reply : Packet) (l : LinkLayer) (n : NetworkLayer) :
  link_template packet = Some l ->
  network_template packet = Some n ->
  layerEthernet reply = match l with LinkEthernet x => Some x | LinkLoopback _ => None end ->
  layerLoopback reply = match l with LinkLoopback x => Some x | LinkEthernet _ => None end ->
  layerIPv4 reply = match n with NetIPv4 x => Some x | NetIPv6 _ => None end ->
  layerIPv6 reply = match n with NetIPv6 x => Some x | NetIPv4 _ => None end ->
  link_template reply =
    match layerEthernet packet, layerLoopback packet with
    | Some eth, _ => Some (LinkEthernet eth)
    | None, Some lo => Some (LinkLoopback lo)
    | None, None => None
    end /\
  network_template reply =
    match layerIPv4 packet, layerIPv6 packet with
    | Some ip, _ =>
        Some (NetIPv4 (IPv4.mk (IPv4.SrcIP ip) (IPv4.DstIP ip) (IPv4.Protocol ip)
                               (IPv4.Version ip) (IPv4.Id ip) IPv4DontFragment 64))
    | None, Some ip =>
        Some (NetIPv6 (IPv6.mk (IPv6.Version ip) (IPv6.NextHeader ip)
                               (IPv6.SrcIP ip) (IPv6.DstIP ip) 64))
    | None, None => None
    end.
Proof.
  unfold link_template, network_template. intros Hl Hn He Hlo H4 H6.
  rewrite He, Hlo, H4, H6. split.
  - destruct (layerEthernet packet) as [[ty s d]|].
    + inversion Hl; subst. reflexivity.
    + destruct (layerLoopback packet) as [[fam]|]; [|discriminate].
      inversion Hl; subst. reflexivity.
  - destruct (layerIPv4 packet) as [ip|].
    + inversion Hn; subst. reflexivity.
    + destruct (layerIPv6 packet) as [ip|]; [|discriminate].
      inversion Hn; subst. reflexivity.
Qed.

(** ** A peer whose address does not resolve, and a peer that has said FIN *)

Lemma WriteTo_absent p a pick werr w :
  wf w ->
  is_closed (die (conn w)) w = false ->
  flows (conn w) !! TCPAddr_String a = None ->
  fst (WriteTo p a pick werr w) = Blocks /\
  trace (snd (WriteTo p a pick werr w)) = trace w.
Proof.
  intros Hwf Hd Hk.
  pose proof (fresh_chan_open w Hwf) as Hfresh.
  assert (Hl : lockflow a get_ready w =
               (nextChan w,
                set_flows (<[TCPAddr_String a := mkFlow None (nextChan w) 0 0 None None]>
                             (flows (conn w))) (snd (make_chan w)))).
  { unfold lockflow, get_ready. now rewrite (visit_new _ _ Hk). }
  unfold WriteTo. rewrite Hl. unfold WriteTo_wait, select_die_ready.
  unfold is_closed in *. simpl. rewrite Hd, Hfresh. simpl. now split.
Qed.

(** X20.  [WriteTo] to a ready peer whose address text does not resolve,
    with shutdown not latched: the call returns [0] and the resolver's
    error whatever the payload, hands nothing to [WritePacketData], and
    leaves the connection as it was, [seq] included. *)
Theorem WriteTo_resolve_failure (p : list byte) (a : TCPAddr) (pick : select_case)
    (werr : option error) (w : World) (e : tcpFlow) (err : error) :
  flows (conn w) !! TCPAddr_String a = Some e ->
  is_closed (ready e) w = true ->
  is_closed (die (conn w)) w = false ->
  ResolveTCPAddr (TCPAddr_String a) = inr err ->
  WriteTo p a pick werr w = (Returns (0%Z, Some err), w).
Proof.
  intros Hk Hr Hd Hres. unfold WriteTo.
  rewrite (lockflow_get_ready_old _ _ _ Hk).
  unfold WriteTo_wait, select_die_ready. rewrite Hd, Hr.
  unfold WriteTo_ready. now rewrite Hres.
Qed.

(** X21.  After a segment with FIN or RST and neither SYN nor PSH, in a
    state the connection can reach and with shutdown not latched, the
    peer's entry is gone and the loop goes on; a [WriteTo] to that peer
    then does not fail: it blocks, with no frame written, as for a peer
    never heard of. *)
Theorem WriteTo_after_fin_blocks (h : Handle) (packet : Packet) (p : list byte)
    (a : TCPAddr) (pick : select_case) (werr : option error) (w : World) :
  let t := TransportLayer packet in
  let w1 := fst (capture_packet h packet w) in
  reachable w ->
  is_closed (die (conn w)) w = false ->
  TCP.FIN t || TCP.RST t = true -> TCP.SYN t = false -> TCP.PSH t = false ->
  TCPAddr_String a = TCPAddr_String (packet_addr packet) ->
  snd (capture_packet h packet w) = Continue /\
  flows (conn w1) = delete (TCPAddr_String a) (flows (conn w)) /\
  fst (WriteTo p a pick werr w1) = Blocks /\
  trace (snd (WriteTo p a pick werr w1)) = trace w.
Proof.
  intros t w1 Hreach Hd Hfr Hsyn Hpsh Hkey.
  assert (Hw1 : capture_packet h packet w = (deleteflow (packet_addr packet) w, Continue)).
  { unfold capture_packet, capture_follow, capture_deliver. fold t.
    rewrite Hsyn, Hpsh, Hfr.
    destruct (TCP.FIN t), (TCP.RST t); try discriminate; reflexivity. }
  subst w1. rewrite Hw1. cbn [fst snd].
  assert (Hwf : wf (deleteflow (packet_addr packet) w))
    by (apply deleteflow_wf, reachable_wf, Hreach).
  assert (Hnone : flows (conn (deleteflow (packet_addr packet) w)) !! TCPAddr_String a = None).
  { unfold deleteflow. simpl. rewrite Hkey. apply lookup_delete_eq. }
  destruct (WriteTo_absent p a pick werr _ Hwf Hd Hnone) as (Hb & Ht).
  split_and!; [reflexivity | unfold deleteflow; simpl; now rewrite Hkey | exact Hb | exact Ht].
Qed.

End More.

(** * [Dial] and [Listen] *)

Section SetupProperties.
Context `{host : Host} `{net : Net}.

(** ** Choosing the interface (X12) *)

Lemma find_in_iface_none (iface : Interface) (ip : list byte) (name : string) :
  (forall a, In a (Addresses iface) -> IP_Equal a ip = false) ->
  fold_left (fun ifaceName a => if IP_Equal a ip then Name iface else ifaceName)
            (Addresses iface) name = name.
Proof.
  induction (Addresses iface) as [|a l IH]; intros Hno; simpl; [reflexivity|].
  rewrite (Hno a) by (now left). apply IH. intros b Hb. apply Hno. now right.
Qed.

Lemma find_in_iface_some (iface : Interface) (ip : list byte) (name : string) :
  (exists a, In a (Addresses iface) /\ IP_Equal a ip = true) ->
  fold_left (fun ifaceName a => if IP_Equal a ip then Name iface else ifaceName)
            (Addresses iface) name = Name iface.
Proof.
  assert (Hstay : forall l,
            fold_left (fun ifaceName a => if IP_Equal a ip then Name iface else ifaceName)
                      l (Name iface) = Name iface).
  { induction l as [|a l IH]; simpl; [reflexivity|]. now destruct (IP_Equal a ip). }
  revert name. induction (Addresses iface) as [|a l IH]; intros name (b & Hb & Heq).
  - destruct Hb.
  - simpl. destruct (IP_Equal a ip) eqn:Ha; [apply Hstay|].
    apply IH. destruct Hb as [-> | Hb]; [congruence | eauto].
Qed.

Lemma find_iface_from ifaces ip name :
  (forall iface, In iface ifaces ->
     forall a, In a (Addresses iface) -> IP_Equal a ip = false) ->
  fold_left
    (fun ifaceName iface =>
       fold_left (fun ifaceName a => if IP_Equal a ip then Name iface else ifaceName)
                 (Addresses iface) ifaceName)
    ifaces name = name.
Proof.
  revert name. induction ifaces as [|iface rest IH]; intros name Hno; simpl; [reflexivity|].
  rewrite find_in_iface_none by (apply Hno; now left).
  apply IH. intros i Hi. apply Hno. now right.
Qed.

(** X12.  The interface [Dial] and [Listen] capture on: the empty name
    when no interface has an address equal to the IP, so that the call
    fails; otherwise the name of the last interface in the list that has
    one, also when an earlier interface has one too. *)
Theorem find_iface_last_match (ifaces : list Interface) (ip : list byte) :
  ((forall iface, In iface ifaces ->
      forall a, In a (Addresses iface) -> IP_Equal a ip = false) ->
   find_iface ifaces ip = "") /\
  (forall pre iface post,
     ifaces = pre ++ iface :: post ->
     (exists a, In a (Addresses iface) /\ IP_Equal a ip = true) ->
     (forall i, In i post -> forall a, In a (Addresses i) -> IP_Equal a ip = false) ->
     find_iface ifaces ip = Name iface).
Proof.
  split.
  - intros Hno. unfold find_iface. now apply find_iface_from.
  - intros pre iface post -> Hyes Hno. unfold find_iface.
    rewrite fold_left_app. simpl.
    rewrite (find_in_iface_some iface ip _ Hyes).
    now apply find_iface_from.
Qed.

(** ** The handles of a listener *)

Lemma opened_app l1 l2 : opened (l1 ++ l2) = opened l1 ++ opened l2.
Proof. apply omap_app. Qed.

Lemma filtered_app l1 l2 : filtered (l1 ++ l2) = filtered l1 ++ filtered l2.
Proof. apply omap_app. Qed.

Lemma captured_app l1 l2 : captured (l1 ++ l2) = captured l1 ++ captured l2.
Proof. apply omap_app. Qed.

Lemma captured_map hs : captured (map SuCapture hs) = hs.
Proof. induction hs as [|h hs IH]; simpl; [reflexivity|]. unfold captured in *. simpl. now rewrite IH. Qed.

Lemma opened_map hs : opened (map SuCapture hs) = [].
Proof. induction hs as [|h hs IH]; [reflexivity|]. exact IH. Qed.

Lemma filtered_map hs : filtered (map SuCapture hs) = [].
Proof. induction hs as [|h hs IH]; [reflexivity|]. exact IH. Qed.

(** Lines 359-372 when they come to their end: every interface that has
    an address and opens gives a handle, each with the filter. *)
Lemma open_all_done ifaces laddr hs log hs' log' :
  open_all ifaces laddr hs log = (inl hs', log') ->
  hs' = hs ++ openable ifaces /\
  opened log' = opened log ++ openable ifaces /\
  filtered log' = filtered log ++ map (fun h => (h, filter_listen_all laddr)) (openable ifaces) /\
  captured log' = captured log /\
  (forall h, In h (openable ifaces) -> SetBPFFilter h (filter_listen_all laddr) = None).
Proof.
  revert hs log. induction ifaces as [|iface rest IH]; intros hs log Ho; simpl in *.
  - inversion Ho; subst. rewrite !app_nil_r. split_and!; try reflexivity. intros h [].
  - unfold openable. simpl. fold (openable rest).
    destruct (Nat.ltb 0 (length (Addresses iface))).
    + destruct (pcap_OpenLive (Name iface)) as [handle|err].
      * destruct (SetBPFFilter handle (filter_listen_all laddr)) eqn:Hf; [discriminate|].
        destruct (IH _ _ Ho) as (H1 & H2 & H3 & H4 & H5).
        rewrite !opened_app, !filtered_app, !captured_app in *. simpl in *.
        rewrite !app_nil_r in *. rewrite <- !app_assoc in *. simpl in *.
        split_and!; try assumption.
        intros h [<- | Hin]; [exact Hf | now apply H5].
      * exact (IH _ _ Ho).
    + exact (IH _ _ Ho).
Qed.

(** Lines 359-372 when a filter fails: the handles opened so far stay in
    the log, the one whose filter failed among them. *)
Lemma open_all_failed ifaces laddr hs log err log' :
  open_all ifaces laddr hs log = (inr err, log') ->
  captured log' = captured log /\
  exists h e, In h (opened log') /\ err = from_library e /\
              SetBPFFilter h (filter_listen_all laddr) = Some e.
Proof.
  revert hs log. induction ifaces as [|iface rest IH]; intros hs log Ho; simpl in *.
  - discriminate.
  - destruct (Nat.ltb 0 (length (Addresses iface))).
    + destruct (pcap_OpenLive (Name iface)) as [handle|e0].
      * destruct (SetBPFFilter handle (filter_listen_all laddr)) as [e|] eqn:Hf.
        -- inversion Ho; subst. rewrite captured_app, opened_app. simpl.
           rewrite app_nil_r. split; [reflexivity|].
           exists handle, e. split_and!; try reflexivity; [|exact Hf].
           apply in_or_app. right. now left.
        -- destruct (IH _ _ Ho) as (H1 & H2).
           rewrite !captured_app in H1. simpl in H1. rewrite !app_nil_r in H1.
           split; assumption.
      * exact (IH _ _ Ho).
    + exact (IH _ _ Ho).
Qed.

Lemma open_all_none ifaces laddr hs log :
  openable ifaces = [] -> open_all ifaces laddr hs log = (inl hs, log).
Proof.
  revert hs log. induction ifaces as [|iface rest IH]; intros hs log Hno; simpl; [reflexivity|].
  unfold openable in Hno. simpl in Hno. fold (openable rest) in Hno.
  destruct (Nat.ltb 0 (length (Addresses iface))); [|now apply IH].
  destruct (pcap_OpenLive (Name iface)); [discriminate | now apply IH].
Qed.

(** What lines 357-400 leave when they succeed. *)
Lemma listen_handles_done ifaces laddr hs log :
  listen_handles ifaces laddr = (inl hs, log) ->
  hs <> [] /\ opened log = hs /\ map fst (filtered log) = hs /\ captured log = [] /\
  (forall h f, In (h, f) (filtered log) -> SetBPFFilter h f = None) /\
  log = flat_map (fun ev => match ev with
                            | SuOpenLive _ _ | SuSetBPFFilter _ _ => [ev]
                            | _ => []
                            end) log /\
  if bool_decide (IP laddr = []) || IP_IsUnspecified (IP laddr)
  then hs = openable ifaces /\
       filtered log = map (fun h => (h, filter_listen_all laddr)) hs
  else exists h, hs = [h] /\ pcap_OpenLive (find_iface ifaces (IP laddr)) = inl h /\
                 filtered log = [(h, filter_listen laddr)].
Proof.
  unfold listen_handles. intros Hl.
  destruct (bool_decide (IP laddr = []) || IP_IsUnspecified (IP laddr)).
  - destruct (open_all ifaces laddr [] []) as [[hs0|err0] log0] eqn:Ho; [|discriminate].
    destruct (Nat.eqb (length hs0) 0) eqn:Hlen; [discriminate|].
    inversion Hl; subst.
    assert (Hev : forall ifs hs1 l1 hs2 l2,
              open_all ifs laddr hs1 l1 = (inl hs2, l2) ->
              l1 = flat_map (fun ev => match ev with
                                       | SuOpenLive _ _ | SuSetBPFFilter _ _ => [ev]
                                       | _ => []
                                       end) l1 ->
              l2 = flat_map (fun ev => match ev with
                                       | SuOpenLive _ _ | SuSetBPFFilter _ _ => [ev]
                                       | _ => []
                                       end) l2).
    { induction ifs as [|iface rest IH]; intros hs1 l1 hs2 l2 Hoa Hl1; simpl in Hoa.
      - now inversion Hoa; subst.
      - destruct (Nat.ltb 0 (length (Addresses iface))); [|exact (IH _ _ _ _ Hoa Hl1)].
        destruct (pcap_OpenLive (Name iface)) as [handle|e0]; [|exact (IH _ _ _ _ Hoa Hl1)].
        destruct (SetBPFFilter handle (filter_listen_all laddr)); [discriminate|].
        apply (IH _ _ _ _ Hoa). rewrite !flat_map_app. simpl. now rewrite <- Hl1. }
    destruct (open_all_done _ _ _ _ _ _ Ho) as (H1 & H2 & H3 & H4 & H5).
    simpl in *. subst hs.
    split_and!.
    + intros E. rewrite E in Hlen. discriminate.
    + exact H2.
    + rewrite H3, map_map. simpl. apply map_id.
    + exact H4.
    + intros h f Hin. rewrite H3 in Hin. apply in_map_iff in Hin as (h' & E & Hin).
      inversion E; subst. now apply H5.
    + now apply (Hev _ _ _ _ _ Ho).
    + reflexivity.
    + exact H3.
  - destruct (bool_decide (find_iface ifaces (IP laddr) = "")); [discriminate|].
    destruct (pcap_OpenLive (find_iface ifaces (IP laddr))) as [handle|e0] eqn:Hop;
      [|discriminate].
    destruct (SetBPFFilter handle (filter_listen laddr)) eqn:Hf; [discriminate|].
    inversion Hl; subst. simpl.
    split_and!; try reflexivity; try discriminate.
    + intros h f [E | []]. now inversion E; subst.
    + exists handle. now split_and!.
Qed.

(** What lines 357-400 leave when they fail. *)
Lemma listen_handles_failed ifaces laddr err log :
  listen_handles ifaces laddr = (inr err, log) ->
  captured log = [] /\
  (forall msg, err = errors_New msg -> opened log = []) /\
  log = flat_map (fun ev => match ev with
                            | SuOpenLive _ _ | SuSetBPFFilter _ _ => [ev]
                            | _ => []
                            end) log.
Proof.
  unfold listen_handles. intros Hl.
  assert (Hev : forall ifs hs1 l1 r l2,
            open_all ifs laddr hs1 l1 = (r, l2) ->
            l1 = flat_map (fun ev => match ev with
                                     | SuOpenLive _ _ | SuSetBPFFilter _ _ => [ev]
                                     | _ => []
                                     end) l1 ->
            l2 = flat_map (fun ev => match ev with
                                     | SuOpenLive _ _ | SuSetBPFFilter _ _ => [ev]
                                     | _ => []
                                     end) l2).
  { induction ifs as [|iface rest IH]; intros hs1 l1 r l2 Hoa Hl1; simpl in Hoa.
    - now inversion Hoa; subst.
    - destruct (Nat.ltb 0 (length (Addresses iface))); [|exact (IH _ _ _ _ Hoa Hl1)].
      destruct (pcap_OpenLive (Name iface)) as [handle|e0]; [|exact (IH _ _ _ _ Hoa Hl1)].
      destruct (SetBPFFilter handle (filter_listen_all laddr)).
      + inversion Hoa; subst. rewrite flat_map_app. simpl. now rewrite <- Hl1.
      + apply (IH _ _ _ _ Hoa). rewrite !flat_map_app. simpl. now rewrite <- Hl1. }
  destruct (bool_decide (IP laddr = []) || IP_IsUnspecified (IP laddr)).
  - destruct (open_all ifaces laddr [] []) as [[hs0|err0] log0] eqn:Ho.
    + destruct (Nat.eqb (length hs0) 0) eqn:Hlen; [|discriminate].
      inversion Hl; subst.
      destruct (open_all_done _ _ _ _ _ _ Ho) as (H1 & H2 & H3 & H4 & H5).
      simpl in *. split_and!; [exact H4| |now apply (Hev _ _ _ _ _ Ho)].
      intros _ _. rewrite H2, <- H1. apply Nat.eqb_eq in Hlen. now destruct hs0.
    + inversion Hl; subst.
      destruct (open_all_failed _ _ _ _ _ _ Ho) as (H1 & h & e & _ & E & _).
      split_and!; [exact H1| |now apply (Hev _ _ _ _ _ Ho)].
      intros msg E'. congruence.
  - destruct (bool_decide (find_iface ifaces (IP laddr) = "")).
    { inversion Hl; subst. now split_and!. }
    destruct (pcap_OpenLive (find_iface ifaces (IP laddr))) as [handle|e0] eqn:Hop.
    + destruct (SetBPFFilter handle (filter_listen laddr)) eqn:Hf; [|discriminate].
      inversion Hl; subst. split_and!; try reflexivity. intros msg E. discriminate.
    + inversion Hl; subst. now split_and!.
Qed.

Lemma new_conn_reachable srv sock laddr hs : reachable (new_conn srv sock laddr hs).
Proof. exists srv, sock, laddr, hs. apply rtc_refl. Qed.

(** X13.  A [Listen] that succeeds returns a fresh server connection that
    owns at least one handle, and its handles are exactly the handles it
    opened, in that order: each one has its filter installed with success
    before the listener is created, and a capture loop runs on each one
    after.  With no IP or the unspecified IP they are the handles of all
    the interfaces that have an address and open, filtered on the port
    only; with an IP it is the one handle of the interface found for it,
    filtered on host and port. *)
Theorem Listen_captures_what_it_opens (network address : string) (w : World)
    (log : list setup_event) :
  Listen network address = (inl w, log) ->
  exists laddr ifaces l l_addr pre,
    net_ResolveTCPAddr network address = inl laddr /\
    pcap_FindAllDevs = inl ifaces /\
    net_ListenTCP network laddr = inl (l, l_addr) /\
    w = new_conn true (mkSocket false (localIs4 l) (closeResult l)) l_addr
                 (handles (conn w)) /\
    reachable w /\
    handles (conn w) <> [] /\
    log = pre ++ [SuListenTCP laddr] ++ map SuCapture (handles (conn w)) ++ [SuAccept] /\
    opened pre = handles (conn w) /\
    map fst (filtered pre) = handles (conn w) /\
    captured pre = [] /\
    opened log = handles (conn w) /\
    captured log = handles (conn w) /\
    (forall h f, In (h, f) (filtered log) -> SetBPFFilter h f = None) /\
    if bool_decide (IP laddr = []) || IP_IsUnspecified (IP laddr)
    then handles (conn w) = openable ifaces /\
         filtered log = map (fun h => (h, filter_listen_all laddr)) (handles (conn w))
    else exists h, handles (conn w) = [h] /\
                   pcap_OpenLive (find_iface ifaces (IP laddr)) = inl h /\
                   filtered log = [(h, filter_listen laddr)].
Proof.
  unfold Listen. intros HL.
  destruct (net_ResolveTCPAddr network address) as [laddr|e] eqn:Hres; [|discriminate].
  destruct pcap_FindAllDevs as [ifaces|e] eqn:Hdevs; [|discriminate].
  destruct (listen_handles ifaces laddr) as [[hs|e] pre] eqn:Hh; [|discriminate].
  destruct (net_ListenTCP network laddr) as [[l l_addr]|e] eqn:Hlis; [|discriminate].
  inversion HL; subst. clear HL.
  destruct (listen_handles_done _ _ _ _ Hh) as (H1 & H2 & H3 & H4 & H5 & _ & H6).
  assert (Hfl : filtered (pre ++ SuListenTCP laddr :: map SuCapture hs ++ [SuAccept])
                = filtered pre).
  { change (SuListenTCP laddr :: map SuCapture hs ++ [SuAccept]) with ([SuListenTCP laddr] ++ map SuCapture hs ++ [SuAccept]).
    rewrite !filtered_app, filtered_map. simpl. now rewrite app_nil_r. }
  assert (Hol : opened (pre ++ SuListenTCP laddr :: map SuCapture hs ++ [SuAccept]) = hs).
  { change (SuListenTCP laddr :: map SuCapture hs ++ [SuAccept]) with ([SuListenTCP laddr] ++ map SuCapture hs ++ [SuAccept]).
    rewrite !opened_app, opened_map. simpl. now rewrite app_nil_r. }
  assert (Hcl : captured (pre ++ SuListenTCP laddr :: map SuCapture hs ++ [SuAccept]) = hs).
  { change (SuListenTCP laddr :: map SuCapture hs ++ [SuAccept]) with ([SuListenTCP laddr] ++ map SuCapture hs ++ [SuAccept]).
    rewrite !captured_app, captured_map, H4. simpl. now rewrite app_nil_r. }
  exists laddr, ifaces, l, l_addr, pre. unfold new_conn. cbn [conn handles].
  rewrite Hfl, Hol, Hcl.
  split_and!; try reflexivity; try assumption.
  apply new_conn_reachable.
Qed.

(** X14.  A [Listen] that fails has started no capture loop, created no
    listener, and closed nothing: its log holds the handles it opened and
    the filters it installed, and nothing else.  When the error is one of
    its own ("cannot find ...") no handle was opened; when the listener
    could not be created, every handle that was to be captured on is
    left open. *)
Theorem Listen_failure_keeps_handles (network address : string) (err : setup_error)
    (log : list setup_event) :
  Listen network address = (inr err, log) ->
  captured log = [] /\
  log = flat_map (fun ev => match ev with
                            | SuOpenLive _ _ | SuSetBPFFilter _ _ => [ev]
                            | _ => []
                            end) log /\
  (forall msg, err = errors_New msg -> opened log = []) /\
  (forall laddr ifaces hs pre,
     net_ResolveTCPAddr network address = inl laddr ->
     pcap_FindAllDevs = inl ifaces ->
     listen_handles ifaces laddr = (inl hs, pre) ->
     log = pre /\ opened log = hs /\ hs <> [] /\
     exists e, err = from_library e /\ net_ListenTCP network laddr = inr e).
Proof.
  unfold Listen. intros HL.
  destruct (net_ResolveTCPAddr network address) as [laddr|e] eqn:Hres.
  2:{ inversion HL; subst. split_and!; try reflexivity; intros; congruence. }
  destruct pcap_FindAllDevs as [ifaces|e] eqn:Hdevs.
  2:{ inversion HL; subst. split_and!; try reflexivity; intros; congruence. }
  destruct (listen_handles ifaces laddr) as [[hs|e] pre] eqn:Hh.
  - destruct (net_ListenTCP network laddr) as [[l l_addr]|e] eqn:Hlis; [discriminate|].
    inversion HL; subst. clear HL.
    destruct (listen_handles_done _ _ _ _ Hh) as (H1 & H2 & H3 & H4 & H5 & H6 & _).
    split_and!; try assumption; [discriminate|].
    intros laddr' ifaces' hs' pre' E1 E2 E3.
    inversion E1; inversion E2; subst. rewrite Hh in E3. inversion E3; subst.
    split_and!; try reflexivity; try assumption.
    exists e. now rewrite Hlis.
  - inversion HL; subst. clear HL.
    destruct (listen_handles_failed _ _ _ _ Hh) as (H1 & H2 & H3).
    split_and!; try assumption.
    intros laddr' ifaces' hs' pre' E1 E2 E3.
    inversion E1; inversion E2; subst. rewrite Hh in E3. discriminate.
Qed.

(** X15.  The errors [Listen] makes itself.  With no IP or the
    unspecified IP, when no interface that has an address opens, it fails
    with "cannot find any interface", whatever the reason the interfaces
    did not open; with an IP that no interface has, it fails with "cannot
    find correct interface".  In both cases before anything is opened. *)
Theorem Listen_no_interface (network address : string) (laddr : TCPAddr)
    (ifaces : list Interface) :
  net_ResolveTCPAddr network address = inl laddr ->
  pcap_FindAllDevs = inl ifaces ->
  (bool_decide (IP laddr = []) || IP_IsUnspecified (IP laddr) = true ->
   openable ifaces = [] ->
   Listen network address = (inr (errors_New "cannot find any interface"), [])) /\
  (bool_decide (IP laddr = []) || IP_IsUnspecified (IP laddr) = false ->
   (forall iface, In iface ifaces ->
      forall a, In a (Addresses iface) -> IP_Equal a (IP laddr) = false) ->
   Listen network address = (inr (errors_New "cannot find correct interface"), [])).
Proof.
  intros Hres Hdevs. unfold Listen. rewrite Hres, Hdevs. unfold listen_handles. split.
  - intros -> Hno. now rewrite (open_all_none _ _ _ _ Hno).
  - intros -> Hno. unfold find_iface. rewrite (find_iface_from _ _ _ Hno). reflexivity.
Qed.

(** X16.  [Close] after [Listen]: the first [Close] closes [die], then
    every handle [Listen] opened, in the order they were opened, then the
    listener, and returns what closing the listener returns; it sets no
    TTL and no hop limit, the socket being the listener. *)
Theorem Listen_then_Close (network address : string) (w : World)
    (log : list setup_event) :
  Listen network address = (inl w, log) ->
  trace (snd (Close w)) =
    [EvCloseChan (die (conn w))] ++ map EvHandleClose (opened log) ++ [EvSocketClose] /\
  fst (Close w) = closeResult (socket (conn w)) /\
  is_closed (die (conn w)) (snd (Close w)) = true /\
  is_closed (die (conn w)) w = false.
Proof.
  unfold Listen. intros HL.
  destruct (net_ResolveTCPAddr network address) as [laddr|e] eqn:Hres; [|discriminate].
  destruct pcap_FindAllDevs as [ifaces|e] eqn:Hdevs; [|discriminate].
  destruct (listen_handles ifaces laddr) as [[hs|e] pre] eqn:Hh; [|discriminate].
  destruct (net_ListenTCP network laddr) as [[l l_addr]|e] eqn:Hlis; [|discriminate].
  inversion HL; subst. clear HL.
  destruct (listen_handles_done _ _ _ _ Hh) as (H1 & H2 & H3 & H4 & H5 & _ & H6).
  assert (Hol : opened (pre ++ SuListenTCP laddr :: map SuCapture hs ++ [SuAccept]) = hs).
  { change (SuListenTCP laddr :: map SuCapture hs ++ [SuAccept])
      with ([SuListenTCP laddr] ++ map SuCapture hs ++ [SuAccept]).
    rewrite !opened_app, opened_map, H2. simpl. now rewrite app_nil_r. }
  rewrite Hol. rewrite Close_first by reflexivity.
  unfold shutdown_events, ttl_events. cbn.
  split_and!; try reflexivity.
Qed.

(** X17.  A [Dial] that succeeds returns a fresh client connection with
    one handle: the handle opened on the interface that has the local
    address of the scratch UDP socket, filtered on the local and remote
    host and port of the connection, the local address being resolved
    from the scratch socket's.  The scratch socket is closed, a capture
    loop runs on the handle, the TTL (or hop limit) of the TCP socket is
    set to 0 after the connection is made, and what arrives on the
    socket is discarded. *)
Theorem Dial_connects (network address : string) (w : World) (log : list setup_event) :
  Dial network address = (inl w, log) ->
  exists raddr dummy ifaces handle laddr tcpconn tcpconn_addr,
    net_ResolveTCPAddr network address = inl raddr /\
    net_Dial_udp address = inl dummy /\
    pcap_FindAllDevs = inl ifaces /\
    find_iface ifaces (IP dummy) <> "" /\
    pcap_OpenLive (find_iface ifaces (IP dummy)) = inl handle /\
    net_ResolveTCPAddr network (UDPAddr_String dummy) = inl laddr /\
    SetBPFFilter handle (filter_dial laddr raddr) = None /\
    net_DialTCP network laddr raddr = inl (tcpconn, tcpconn_addr) /\
    w = new_conn false (mkSocket true (localIs4 tcpconn) (closeResult tcpconn))
                 tcpconn_addr [handle] /\
    reachable w /\
    log = [SuDialUDP dummy; SuOpenLive (find_iface ifaces (IP dummy)) handle; SuCloseUDP;
           SuSetBPFFilter handle (filter_dial laddr raddr); SuDialTCP laddr raddr;
           SuCapture handle;
           if localIs4 tcpconn then SuSetTTL 0 else SuSetHopLimit 0;
           SuDiscard] /\
    ~ scratch_open log.
Proof.
  unfold Dial. intros HD.
  destruct (net_ResolveTCPAddr network address) as [raddr|e] eqn:Hres; [|discriminate].
  destruct (net_Dial_udp address) as [dummy|e] eqn:Hudp; [|discriminate].
  destruct pcap_FindAllDevs as [ifaces|e] eqn:Hdevs; [|discriminate].
  destruct (bool_decide (find_iface ifaces (IP dummy) = "")) eqn:Hname; [discriminate|].
  destruct (pcap_OpenLive (find_iface ifaces (IP dummy))) as [handle|e] eqn:Hop;
    [|discriminate].
  destruct (net_ResolveTCPAddr network (UDPAddr_String dummy)) as [laddr|e] eqn:Hres2;
    [|discriminate].
  destruct (SetBPFFilter handle (filter_dial laddr raddr)) eqn:Hf; [discriminate|].
  destruct (net_DialTCP network laddr raddr) as [[tcpconn tcpconn_addr]|e] eqn:Hdial;
    [|discriminate].
  inversion HD; subst. clear HD.
  exists raddr, dummy, ifaces, handle, laddr, tcpconn, tcpconn_addr.
  split_and!; try reflexivity; try assumption.
  - now apply bool_decide_eq_false in Hname.
  - apply new_conn_reachable.
  - intros [_ Hno]. apply Hno. simpl. tauto.
Qed.

(** X18.  [Close] after [Dial]: the first [Close] closes [die], then the
    handle [Dial] opened, then sets back to 64 what [Dial] set to 0, the
    TTL of an IPv4 socket and the hop limit of an IPv6 one, then closes
    the socket and returns what that returns. *)
Theorem Dial_then_Close (network address : string) (w : World) (log : list setup_event) :
  Dial network address = (inl w, log) ->
  let v4 := localIs4 (socket (conn w)) in
  In (if v4 then SuSetTTL 0 else SuSetHopLimit 0) log /\
  trace (snd (Close w)) =
    [EvCloseChan (die (conn w))] ++ map EvHandleClose (opened log)
    ++ [if v4 then EvSetTTL 64 else EvSetHopLimit 64; EvSocketClose] /\
  fst (Close w) = closeResult (socket (conn w)) /\
  is_closed (die (conn w)) w = false /\
  is_closed (die (conn w)) (snd (Close w)) = true.
Proof.
  unfold Dial. intros HD.
  destruct (net_ResolveTCPAddr network address) as [raddr|e] eqn:Hres; [|discriminate].
  destruct (net_Dial_udp address) as [dummy|e] eqn:Hudp; [|discriminate].
  destruct pcap_FindAllDevs as [ifaces|e] eqn:Hdevs; [|discriminate].
  destruct (bool_decide (find_iface ifaces (IP dummy) = "")) eqn:Hname; [discriminate|].
  destruct (pcap_OpenLive (find_iface ifaces (IP dummy))) as [handle|e] eqn:Hop;
    [|discriminate].
  destruct (net_ResolveTCPAddr network (UDPAddr_String dummy)) as [laddr|e] eqn:Hres2;
    [|discriminate].
  destruct (SetBPFFilter handle (filter_dial laddr raddr)) eqn:Hf; [discriminate|].
  destruct (net_DialTCP network laddr raddr) as [[tcpconn tcpconn_addr]|e] eqn:Hdial;
    [|discriminate].
  inversion HD; subst. clear HD.
  rewrite Close_first by reflexivity.
  unfold shutdown_events, ttl_events, setup_setttl. cbn.
  destruct (localIs4 tcpconn); split_and!; try reflexivity; tauto.
Qed.

(** X19.  A [Dial] that fails has started no capture loop and made no
    TCP connection, and has closed no handle.  Once the scratch UDP
    socket exists, a failure leaves the scratch socket open or, after it
    was closed, the opened handle; a failure with the error [Dial] makes
    itself leaves the scratch socket open and no handle. *)
Theorem Dial_failure_keeps_resources (network address : string) (err : setup_error)
    (log : list setup_event) :
  Dial network address = (inr err, log) ->
  captured log = [] /\
  (forall laddr raddr, ~ In (SuDialTCP laddr raddr) log) /\
  (log <> [] -> scratch_open log \/ exists h, opened log = [h]) /\
  (In SuCloseUDP log -> exists h, opened log = [h]) /\
  (forall msg, err = errors_New msg -> scratch_open log /\ opened log = []).
Proof.
  unfold Dial. intros HD.
  destruct (net_ResolveTCPAddr network address) as [raddr|e] eqn:Hres.
  2:{ inversion HD; subst.
      split_and!; try reflexivity; try (intros; congruence);
        try (intros ? ? []); try (intros []). }
  destruct (net_Dial_udp address) as [dummy|e] eqn:Hudp.
  2:{ inversion HD; subst.
      split_and!; try reflexivity; try (intros; congruence);
        try (intros ? ? []); try (intros []). }
  assert (Hopen : forall l, ~ In SuCloseUDP l -> scratch_open (SuDialUDP dummy :: l)).
  { intros l Hl. split; [exists dummy; now left|]. intros [E|Hin]; [discriminate|tauto]. }
  destruct pcap_FindAllDevs as [ifaces|e] eqn:Hdevs.
  2:{ inversion HD; subst. split_and!; try reflexivity.
      - intros ? ? [E|[]]. discriminate.
      - intros _. left. apply Hopen. tauto.
      - intros [E|[]]. discriminate.
      - intros; congruence. }
  destruct (bool_decide (find_iface ifaces (IP dummy) = "")) eqn:Hname.
  { inversion HD; subst. split_and!; try reflexivity.
    - intros ? ? [E|[]]. discriminate.
    - intros _. left. apply Hopen. tauto.
    - intros [E|[]]. discriminate.
    - intros _ _. split; [apply Hopen; tauto | reflexivity]. }
  destruct (pcap_OpenLive (find_iface ifaces (IP dummy))) as [handle|e] eqn:Hop.
  2:{ inversion HD; subst. split_and!; try reflexivity.
      - intros ? ? [E|[]]. discriminate.
      - intros _. left. apply Hopen. tauto.
      - intros [E|[]]. discriminate.
      - intros; congruence. }
  destruct (net_ResolveTCPAddr network (UDPAddr_String dummy)) as [laddr|e] eqn:Hres2.
  2:{ inversion HD; subst. split_and!; try reflexivity.
      - intros ? ? [E|[E|[]]]; discriminate.
      - intros _. left. apply Hopen. intros [E|[]]. discriminate.
      - intros [E|[E|[]]]; discriminate.
      - intros; congruence. }
  destruct (SetBPFFilter handle (filter_dial laddr raddr)) eqn:Hf.
  { inversion HD; subst. split_and!; try reflexivity.
    - intros ? ? [E|[E|[E|[]]]]; discriminate.
    - intros _. right. now exists handle.
    - intros _. now exists handle.
    - intros; congruence. }
  destruct (net_DialTCP network laddr raddr) as [[tcpconn tcpconn_addr]|e] eqn:Hdial;
    [discriminate|].
  inversion HD; subst. split_and!; try reflexivity.
  - intros ? ? [E|[E|[E|[E|[]]]]]; discriminate.
  - intros _. right. now exists handle.
  - intros _. now exists handle.
  - intros; congruence.
Qed.

End SetupProperties.

(** * The concrete connection

    The statements above, applied to [established] and [received]. *)

#[local] Existing Instance dotted_net.

Lemma established_reachable : reachable established.
Proof. exists false, (mkSocket true true None), local, [7]. apply capture_packet_steps. Qed.

Lemma received_steps : rtc step established received.
Proof. apply capture_packet_steps. Qed.

Lemma established_flow : flows (conn established) !! TCPAddr_String peer = Some peer_flow.
Proof. vm_compute. reflexivity. Qed.

(** ** The statements on the concrete connection *)

(** C1 on [established]: a [WriteTo] to [peer] that has fetched the latch
    when the bare FIN arrives panics. *)
Lemma WriteTo_reads_default_entry_after_delete_witness :
  let rdy := fst (lockflow peer get_ready established) in
  let w2 := fst (capture_packet 7 fin (snd (lockflow peer get_ready established))) in
  flows (conn established) !! TCPAddr_String peer = Some peer_flow /\
  is_closed (ready peer_flow) established = true /\
  is_closed (die (conn established)) established = false /\
  flows (conn w2) !! TCPAddr_String peer = None /\
  fst (lockflow peer get_flow w2) = mkFlow None (nextChan w2) 0 0 None None /\
  fst (WriteTo_wait [x70] peer CaseReady None rdy w2) = Panics.
Proof.
  assert (Hk := established_flow).
  assert (Hc : is_closed (ready peer_flow) established = true) by (vm_compute; reflexivity).
  assert (Hd : is_closed (die (conn established)) established = false)
    by (vm_compute; reflexivity).
  assert (Hp : populated peer_flow) by (unfold populated; simpl; eauto).
  assert (Hr : ResolveTCPAddr (TCPAddr_String peer) = inl peer) by (vm_compute; reflexivity).
  destruct (WriteTo_reads_default_entry_after_delete [x70] peer CaseReady None 7 fin
              established peer_flow peer Hk Hc Hp Hd Hr eq_refl (or_introl eq_refl)
              eq_refl eq_refl) as (_ & Hnone & _ & Hdef & Hpanic & _).
  simpl. split_and!; assumption.
Defined.

(** C2 on [established]: the FIN that carries data leaves the entry of
    [peer] in the table. *)
Lemma fin_rst_deletes_only_without_syn_psh_witness :
  TCP.FIN (TransportLayer finpsh) = true /\
  TCP.PSH (TransportLayer finpsh) = true /\
  is_Some (flows (conn (fst (capture_packet 7 finpsh established)))
             !! TCPAddr_String (packet_addr finpsh)).
Proof.
  split_and!; [reflexivity | reflexivity |].
  apply (fin_rst_deletes_only_without_syn_psh 7 finpsh established (or_introl eq_refl)).
  right. reflexivity.
Defined.

(** C3, the claim as stated, fails on [dialed_bad]: the first [Close]
    returns the error of the socket, the second returns nil. *)
Lemma Close_second_result_differs :
  fst (Close (snd (Close dialed_bad))) <> fst (Close dialed_bad).
Proof. vm_compute. discriminate. Qed.

(** C3 as the code has it, on [dialed_bad] closed three times. *)
Lemma Close_runs_once_witness :
  dieOnce (conn dialed_bad) = false /\
  fst (Close_times 3 dialed_bad) = [Some (errLibrary "close failed"); None; None] /\
  trace (snd (Close_times 3 dialed_bad)) =
    [EvCloseChan 0; EvHandleClose 7; EvSetTTL 64; EvSocketClose] /\
  handle_closes 7 (trace (snd (Close_times 3 dialed_bad))) = 1 /\
  socket_closes (trace (snd (Close_times 3 dialed_bad))) = 1.
Proof.
  destruct (Close_runs_once 2 dialed_bad eq_refl) as (Hrs & Htr & _ & _ & _ & Hh & Hs & _).
  split_and!; [reflexivity | exact Hrs | exact Htr | exact (Hh 7) | exact Hs].
Defined.

(** C4, the claim as stated, fails on [established]: of two calls that
    overlap, with payloads of two bytes each and no packet of [peer] in
    between, both frames go out with sequence number 2000, where the
    claim has 2002 for the second. *)
Lemma WriteTo_overlapping_same_seq :
  (fun w' => map (fun f => (TCP.Seq (frameTCP f), framePayload f)) (frames (trace w')))
    <$> WriteTo_twice_interleaved [x70; x69] [x6e; x67] peer peer established
  = Some [(2000%Z, [x70; x69]); (2000%Z, [x6e; x67])] /\
  seq <$> flows (conn established) !! TCPAddr_String peer = Some 2000%Z /\
  2000%Z <> uint32 (2000 + total_len [[x70; x69]]).
Proof. split_and!; [vm_compute; reflexivity | vm_compute; reflexivity | vm_compute; discriminate]. Qed.

(** C4 as the code has it, on [established]: calls with payloads of 4, 0
    and 2 bytes in turn, and the SYN of [other] handled by the capture
    loop between the first and the second. *)
Lemma WriteTo_seq_numbers_witness :
  let ps := [[x70; x69; x6e; x67]; []; [x6f; x6b]] in
  let w1 := snd (WriteTo [x70; x69; x6e; x67] peer CaseReady None established) in
  let w2 := snd (WriteTo [] peer CaseReady None (fst (capture_packet 7 other_syn w1))) in
  let w3 := snd (WriteTo [x6f; x6b] peer CaseReady None w2) in
  exists fs,
    WriteTo_in_turn peer ps fs established w3 /\
    length fs = 3 /\
    (forall i f, fs !! i = Some f ->
       TCP.Seq (frameTCP f) = uint32 (2000 + total_len (take i ps)) /\
       ps !! i = Some (framePayload f)) /\
    (exists e', flows (conn w3) !! TCPAddr_String peer = Some e' /\ seq e' = 2006%Z).
Proof.
  cbv zeta.
  set (w1 := snd (WriteTo [x70; x69; x6e; x67] peer CaseReady None established)).
  set (w1' := fst (capture_packet 7 other_syn w1)).
  set (w2 := snd (WriteTo [] peer CaseReady None w1')).
  set (w3 := snd (WriteTo [x6f; x6b] peer CaseReady None w2)).
  destruct (WriteTo_alone [x70; x69; x6e; x67] peer CaseReady None established w1
              ltac:(vm_compute; eauto) ltac:(vm_compute; reflexivity)) as [f1 H1].
  destruct (WriteTo_alone [] peer CaseReady None w1' w2
              ltac:(vm_compute; eauto) ltac:(vm_compute; reflexivity)) as [f2 H2].
  destruct (WriteTo_alone [x6f; x6b] peer CaseReady None w2 w3
              ltac:(vm_compute; eauto) ltac:(vm_compute; reflexivity)) as [f3 H3].
  assert (Ha : rtc (aside peer) w1 w1').
  { apply capture_packet_asides. vm_compute. discriminate. }
  assert (Hrun : WriteTo_in_turn peer [[x70; x69; x6e; x67]; []; [x6f; x6b]] [f1; f2; f3]
                   established w3).
  { eapply in_turn_cons; [apply rtc_refl | exact H1 |].
    eapply in_turn_cons; [exact Ha | exact H2 |].
    eapply in_turn_cons; [apply rtc_refl | exact H3 |].
    apply in_turn_nil, rtc_refl. }
  destruct (WriteTo_seq_numbers _ _ peer established w3 peer_flow established_flow
              ltac:(simpl; lia) Hrun) as (Hlen & Hidx & Hend & _).
  exists [f1; f2; f3]. split_and!; [exact Hrun | exact Hlen | exact Hidx | exact Hend].
Defined.

(** C6 on the run from [established] to [received]. *)
Lemma ready_once_templates_fixed_witness :
  reachable established /\ rtc step established received /\
  (forall c, closes c (trace received) <= 1) /\
  (forall k' e', flows (conn received) !! k' = Some e' -> ready e' = ready peer_flow ->
     k' = TCPAddr_String peer /\ same_templates peer_flow e' /\ populated e').
Proof.
  destruct (ready_once_templates_fixed established received established_reachable
              received_steps) as (Honce & _ & Hfix).
  destruct (Hfix (TCPAddr_String peer) peer_flow established_flow
              ltac:(vm_compute; reflexivity)) as (_ & _ & Hkeep).
  split_and!; [exact established_reachable | exact received_steps | exact Honce | exact Hkeep].
Defined.

(** C8 on [established]: the write fails, the entry keeps [seq] 2000. *)
Lemma WriteTo_inject_failure_witness :
  let err := errLibrary "send: no buffer space" in
  let w' := snd (WriteTo [x70; x69] peer CaseReady (Some err) established) in
  fst (WriteTo [x70; x69] peer CaseReady (Some err) established) = Returns (0%Z, Some err) /\
  flows (conn w') = flows (conn established) /\
  flows (conn w') !! TCPAddr_String peer = Some peer_flow.
Proof.
  simpl.
  destruct (WriteTo_inject_failure [x70; x69] peer CaseReady
              (errLibrary "send: no buffer space") established peer_flow 7
              (mkFrame (LinkEthernet (Ethernet.mk 2048 local_mac peer_mac))
                       (NetIPv4 (IPv4.mk (IP local) (IP peer) 6 4 99 IPv4DontFragment 64))
                       (TCP.mk 5000 4000 2000 1001 false false false true true 12580 [])
                       [x70; x69])
              established_flow ltac:(vm_compute; reflexivity))
    as (Hr & _ & Hfl & Hk & _).
  split_and!; assumption.
Defined.

(** C9 on [received]: after [Close], [ReadFrom] returns [io.EOF]. *)
Lemma after_Close_reads_and_waiting_writes_end_witness :
  reachable received /\
  ReadFrom [x00; x00] (snd (Close received)) =
    (Returns (0, None, Some io_EOF, [x00; x00]), snd (Close received)) /\
  WriteTo_wait [x70] (mkTCPAddr [] 9) CaseReady None 5 (snd (Close received)) =
    (Returns (0%Z, Some io_EOF), snd (Close received)).
Proof.
  assert (Hreach : reachable received).
  { apply (reachable_steps established); [exact established_reachable | exact received_steps]. }
  destruct (after_Close_reads_and_waiting_writes_end received (snd (Close received))
              Hreach (rtc_refl _ _)) as (_ & Hread & Hwrite).
  split_and!; [exact Hreach | apply Hread |].
  apply Hwrite. vm_compute. reflexivity.
Defined.

(** C10 on [received]: the four bytes of the payload into a buffer of
    two. *)
Lemma ReadFrom_copies_prefix_witness :
  is_closed (die (conn received)) received = false /\
  sendq received = [mkMessage [x70; x69; x6e; x67] peer] /\
  ReadFrom [x00; x00] received =
    (Returns (2, Some peer, None, [x70; x69]), set_sendq [] received).
Proof.
  assert (Hd : is_closed (die (conn received)) received = false) by (vm_compute; reflexivity).
  assert (Hq : sendq received = [mkMessage [x70; x69; x6e; x67] peer])
    by (vm_compute; reflexivity).
  destruct (ReadFrom_copies_prefix [x00; x00] received _ _ Hd Hq) as (Hr & _).
  split_and!; [exact Hd | exact Hq | exact Hr].
Defined.

(** ** The exchange, evaluated *)

(** After the SYN+ACK (seq 1000, ack 2000) and four bytes of data the
    entry of [peer] quotes [seq] 2000 and [ack] 1000 + 1 + 4. *)
Example received_seq_ack :
  (fun e => (seq e, ack e)) <$> flows (conn received) !! TCPAddr_String peer
  = Some (2000%Z, 1005%Z).
Proof. vm_compute. reflexivity. Qed.

(** Once the data has been read, the loop goes on: a bare FIN removes
    the entry; a FIN that carries data leaves it, with [ack] grown by the
    three bytes. *)
Example fin_removes_flow :
  flows (conn (fst (capture_packet 7 fin (snd (ReadFrom [x00; x00; x00; x00] received)))))
    !! TCPAddr_String peer = None.
Proof. vm_compute. reflexivity. Qed.

Example finpsh_keeps_flow :
  ack <$> flows (conn (fst (capture_packet 7 finpsh
                              (snd (ReadFrom [x00; x00; x00; x00] received)))))
            !! TCPAddr_String peer
  = Some 1008%Z.
Proof. vm_compute. reflexivity. Qed.

(** The sequence numbers of [three_writes] on [established]. *)
Example three_writes_seq :
  map (fun f => TCP.Seq (frameTCP f))
      (frames (trace (snd (WriteTo_each three_writes peer established))))
  = [2000%Z; 2004%Z; 2004%Z].
Proof. vm_compute. reflexivity. Qed.


(** ** Further statements on the concrete connection *)

Lemma two_peers_reachable : reachable two_peers.
Proof.
  apply (reachable_steps established); [exact established_reachable|].
  apply capture_packet_steps.
Qed.

Lemma established_open : is_closed (die (conn established)) established = false.
Proof. vm_compute. reflexivity. Qed.

Lemma established_ready : is_closed (ready peer_flow) established = true.
Proof. vm_compute. reflexivity. Qed.

Lemma resolve_peer_ok : ResolveTCPAddr (TCPAddr_String peer) = inl peer.
Proof. vm_compute. reflexivity. Qed.

(** X1 on [two_peers]: a data segment of [peer] and a [WriteTo] to
    [peer] leave the entry of [other] as it is. *)
Lemma other_flows_untouched_witness :
  reachable two_peers /\
  TCPAddr_String other <> TCPAddr_String (packet_addr ping) /\
  is_Some (flows (conn two_peers) !! TCPAddr_String other) /\
  flows (conn (fst (capture_packet 7 ping two_peers))) !! TCPAddr_String other =
    flows (conn two_peers) !! TCPAddr_String other /\
  flows (conn (snd (WriteTo [x70] peer CaseReady None two_peers))) !! TCPAddr_String other =
    flows (conn two_peers) !! TCPAddr_String other.
Proof.
  assert (Hne : TCPAddr_String other <> TCPAddr_String (packet_addr ping))
    by (vm_compute; discriminate).
  destruct (other_flows_untouched 7 ping [x70] peer CaseReady None two_peers
              (TCPAddr_String other) two_peers_reachable) as (H1 & H2 & _).
  split_and!; [exact two_peers_reachable | exact Hne | vm_compute; eauto
              | exact (proj1 (H1 Hne)) | exact (H2 Hne)].
Defined.

(** X2 on [established]: a [WriteTo] to [other], not heard of yet,
    blocks. *)
Lemma WriteTo_unknown_peer_blocks_witness :
  reachable established /\
  is_closed (die (conn established)) established = false /\
  flows (conn established) !! TCPAddr_String other = None /\
  fst (WriteTo [x70] other CaseReady None established) = Blocks /\
  trace (snd (WriteTo [x70] other CaseReady None established)) = trace established /\
  is_closed (nextChan established)
            (snd (WriteTo [x70] other CaseReady None established)) = false.
Proof.
  assert (Hn : flows (conn established) !! TCPAddr_String other = None)
    by (vm_compute; reflexivity).
  pose proof (WriteTo_unknown_peer_blocks [x70] other CaseReady None established
                established_reachable established_open Hn) as H.
  cbv zeta in H. destruct H as (H1 & H2 & _ & H4 & _).
  split_and!; [exact established_reachable | exact established_open | exact Hn
              | exact H1 | exact H2 | exact H4].
Defined.

(** X3 on [dialed]: the SYN+ACK of [peer] fills the entry and closes its
    latch. *)
Lemma first_packet_populates_witness :
  reachable dialed /\
  exists e1,
    flows (conn (capture_follow 7 synack dialed)) !! TCPAddr_String peer = Some e1 /\
    handle e1 = Some 7 /\ seq e1 = 2000%Z /\ ack e1 = 1000%Z /\
    is_closed (ready e1) (capture_follow 7 synack dialed) = true /\
    linkLayer e1 = Some (LinkEthernet (Ethernet.mk 2048 local_mac peer_mac)).
Proof.
  assert (Hr : reachable dialed) by (exists false, (mkSocket true true None), local, [7];
                                     apply rtc_refl).
  split; [exact Hr|].
  pose proof (first_packet_populates 7 synack dialed) as H. cbv zeta in H.
  destruct (H Hr eq_refl eq_refl ltac:(intros e He; vm_compute in He; discriminate))
    as (e1 & Hk & _ & Hh & Hs & Ha & Hiff & Hboth & _).
  exists e1. split_and!; [exact Hk | exact Hh | exact Hs | exact Ha | |].
  - apply Hiff. split; eexists; reflexivity.
  - exact (proj1 (Hboth _ _ eq_refl eq_refl)).
Defined.

(** X4 on [established]: two data segments of four bytes each, read into
    a buffer of two bytes and one of five. *)
Lemma captureFlow_ack_accumulates_witness :
  Forall (from_peer peer) [ping; pong] /\
  sendq established = [] /\
  exists e',
    captureFlow_among 7 [ping; pong]
        [Reads [x00; x00]; Reads [x00; x00; x00; x00; x00]] established =
      ([Returns (2, Some peer, None, [x70; x69]);
        Returns (4, Some peer, None, [x70; x6f; x6e; x67; x00])],
       set_flows (<[TCPAddr_String peer := e']> (flows (conn established))) established,
       []) /\
    ack e' = 1009%Z /\ seq e' = 2004%Z.
Proof.
  assert (Hf : Forall (from_peer peer) [ping; pong]).
  { repeat constructor. }
  assert (Hq : sendq established = []) by reflexivity.
  split_and!; [exact Hf | exact Hq |].
  destruct (captureFlow_ack_accumulates 7 [ping; pong]
              [[x00; x00]; [x00; x00; x00; x00; x00]] peer established peer_flow
              established_flow established_ready established_open Hq
              ltac:(simpl; lia) Hf ltac:(simpl; lia))
    as (e' & Hrun & _ & Ha & Hs).
  exists e'. split_and!; [exact Hrun | exact Ha | exact Hs].
Defined.

(** X5 on [established]: a SYN of [other], a data segment and a FIN with
    data of [peer], and one more data segment, with one call of
    [ReadFrom].  The call gets the first payload; the loop stays parked
    with the second and does not take the last segment; after [Close]
    the second payload is lost. *)
Lemma captureFlow_delivers_psh_in_order_witness :
  reachable established /\
  is_closed (die (conn established)) established = false /\
  sendq established = [] /\
  exists w',
    captureFlow_among 7 [other_syn; ping; finpsh; pong] [Reads [x00; x00]] established =
      ([Returns (2, Some peer, None, [x70; x69])], w', [pong]) /\
    sendq w' = [mkMessage [x62; x79; x65] peer] /\
    captureFlow_among 7 [other_syn; ping; finpsh; pong] [Reads [x00; x00]; Closes]
        established =
      ([Returns (2, Some peer, None, [x70; x69])], snd (Close w'), [pong]) /\
    ReadFrom [x00] (snd (Close w')) = (Returns (0, None, Some io_EOF, [x00]), snd (Close w')).
Proof.
  assert (Hq : sendq established = []) by reflexivity.
  destruct (captureFlow_delivers_psh_in_order 7 [other_syn; ping; finpsh; pong] [[x00; x00]]
              established established_reachable established_open Hq)
    as (w' & Hrun & Hq' & _ & _ & Hclose).
  destruct (Hclose ltac:(simpl; lia)) as (Hc1 & Hc2).
  split_and!; [exact established_reachable | exact established_open | exact Hq |].
  exists w'. split_and!; [exact Hrun | exact Hq' | exact Hc1 | exact (Hc2 [x00])].
Defined.

(** X6 on [two_parked]: a buffer of two bytes, then one of five. *)
Lemma ReadFrom_reads_in_order_witness :
  is_closed (die (conn two_parked)) two_parked = false /\
  length [[x00; x00]; [x00; x00; x00; x00; x00]] <= length (sendq two_parked) /\
  fst (ReadFrom_each [[x00; x00]; [x00; x00; x00; x00; x00]] two_parked) =
    [Returns (2, Some peer, None, [x70; x69]);
     Returns (2, Some other, None, [x68; x69; x00; x00; x00])] /\
  sendq (snd (ReadFrom_each [[x00; x00]; [x00; x00; x00; x00; x00]] two_parked)) = [].
Proof.
  assert (Hd : is_closed (die (conn two_parked)) two_parked = false)
    by (vm_compute; reflexivity).
  assert (Hl : length [[x00; x00]; [x00; x00; x00; x00; x00]] <= length (sendq two_parked))
    by (vm_compute; lia).
  pose proof (ReadFrom_reads_in_order [[x00; x00]; [x00; x00; x00; x00; x00]]
                two_parked Hd Hl) as H.
  split_and!; [exact Hd | exact Hl | |]; rewrite H; vm_compute; reflexivity.
Defined.

(** X7 on [dialed]: the reply to the SYN+ACK of [peer]. *)
Lemma reply_follows_first_packet_witness :
  reachable dialed /\
  is_closed (die (conn dialed)) dialed = false /\
  fst (WriteTo [x6f; x6b] peer CaseReady None established) = Returns (2%Z, None) /\
  trace (snd (WriteTo [x6f; x6b] peer CaseReady None established)) =
    trace established ++
    [EvWritePacketData 7
       (mkFrame (LinkEthernet (Ethernet.mk 2048 local_mac peer_mac))
                (NetIPv4 (IPv4.mk (IP local) (IP peer) 6 4 99 IPv4DontFragment 64))
                (TCP.mk 5000 4000 2000 1001 false false false true true 12580 [])
                [x6f; x6b])
       None].
Proof.
  assert (Hr : reachable dialed) by (exists false, (mkSocket true true None), local, [7];
                                     apply rtc_refl).
  assert (Hd : is_closed (die (conn dialed)) dialed = false) by (vm_compute; reflexivity).
  pose proof (reply_follows_first_packet 7 synack [x6f; x6b] CaseReady None dialed
                (LinkEthernet (Ethernet.mk 2048 local_mac peer_mac))
                (NetIPv4 (IPv4.mk (IP local) (IP peer) 6 4 99 IPv4DontFragment 64))
                peer) as H.
  cbv zeta in H.
  destruct (H Hr Hd eq_refl eq_refl ltac:(intros e He; vm_compute in He; discriminate)
              eq_refl eq_refl resolve_peer_ok) as (H1 & H2 & _).
  split_and!; [exact Hr | exact Hd | exact H1 | exact H2].
Defined.

(** X8 on [established]: after [Close], a [WriteTo] to [peer] returns
    [io.EOF] or writes on the closed handle 7, as [select] chooses. *)
Lemma WriteTo_after_Close_witness :
  let wc := snd (Close established) in
  reachable established /\
  WriteTo [x70] peer CaseDie None wc = (Returns (0%Z, Some io_EOF), wc) /\
  fst (WriteTo [x70] peer CaseReady None wc) = Returns (1%Z, None) /\
  1 <= handle_closes 7 (trace wc).
Proof.
  cbv zeta.
  pose proof (WriteTo_after_Close [x70] peer None established peer_flow peer
                established_reachable established_open established_flow
                established_ready resolve_peer_ok) as H.
  cbv zeta in H. destruct H as (H1 & h & l & n & Hh & _ & _ & H2 & _ & H3).
  split_and!; [exact established_reachable | exact H1 | exact H2 |].
  injection Hh as <-. apply H3. now left.
Defined.

(** X9 on [established] after [Close]: the loop handles the SYN of
    [other], stops at the first data segment of [peer], and never sees
    the second. *)
Lemma captureFlow_after_Close_stops_witness :
  let wc := snd (Close established) in
  is_closed (die (conn wc)) wc = true /\
  captureFlow 7 ([other_syn] ++ ping :: [pong]) wc =
    fst (capture_packet 7 ping (captureFlow 7 [other_syn] wc)) /\
  sendq (captureFlow 7 ([other_syn] ++ ping :: [pong]) wc) = [] /\
  ack <$> flows (conn (captureFlow 7 ([other_syn] ++ ping :: [pong]) wc))
            !! TCPAddr_String peer = Some 1005%Z.
Proof.
  cbv zeta.
  assert (Hd : is_closed (die (conn (snd (Close established)))) (snd (Close established))
               = true) by (vm_compute; reflexivity).
  destruct (captureFlow_after_Close_stops 7 [other_syn] [pong] ping
              (mkMessage [x70; x69; x6e; x67] peer) (snd (Close established))
              Hd eq_refl eq_refl) as (H1 & _ & H3).
  split_and!; [exact Hd | exact H1 | exact H3 |].
  rewrite H1. vm_compute. reflexivity.
Defined.

(** X10 on [established]: two overlapping writes of two bytes each both
    go out with sequence number 2000. *)
Lemma overlapping_writes_share_seq_witness :
  exists w' f1 f2 e',
    WriteTo_twice_interleaved [x70; x69] [x6e; x67] peer peer established = Some w' /\
    trace w' = trace established ++ [EvWritePacketData 7 f1 None; EvWritePacketData 7 f2 None] /\
    TCP.Seq (frameTCP f1) = 2000%Z /\ TCP.Seq (frameTCP f2) = 2000%Z /\
    flows (conn w') !! TCPAddr_String peer = Some e' /\
    seq e' = 2004%Z.
Proof.
  destruct (overlapping_writes_share_seq [x70; x69] [x6e; x67] peer peer established
              peer_flow 7 _ _ established_flow eq_refl eq_refl eq_refl)
    as (w' & f1 & f2 & e' & H1 & _ & H2 & _ & _ & H3 & H4 & H5 & H6).
  exists w', f1, f2, e'. split_and!; assumption.
Defined.

(** X11 on [synack] and [reply]: the templates of the reply are the
    headers of the SYN+ACK, with TTL 64 and don't-fragment. *)
Lemma templates_point_back_witness :
  link_template reply = Some (LinkEthernet peer_eth) /\
  network_template reply =
    Some (NetIPv4 (IPv4.mk (IP peer) (IP local) 6 4 99 IPv4DontFragment 64)).
Proof.
  exact (templates_point_back synack reply _ _ eq_refl eq_refl eq_refl eq_refl
           eq_refl eq_refl).
Defined.


(** ** The statements about [Dial] and [Listen] on the concrete host *)

#[local] Existing Instance small_host.

Lemma Listen_5000 : Listen "tcp" ":5000" = (inl listening, listening_log).
Proof. vm_compute. reflexivity. Qed.

Lemma Dial_peer : Dial "tcp" "10.0.0.2:4000" = (inl dialed, dialed_log).
Proof. vm_compute. reflexivity. Qed.

(** X12 on four interfaces, two of which have the address of [local]:
    the later one is chosen. *)
Lemma find_iface_last_match_witness :
  find_iface [lo0; eth0; mkInterface "eth1" [IP peer; IP local]; lo0] (IP local) = "eth1".
Proof.
  apply (proj2 (find_iface_last_match
                  [lo0; eth0; mkInterface "eth1" [IP peer; IP local]; lo0] (IP local))
               [lo0; eth0] (mkInterface "eth1" [IP peer; IP local]) [lo0] eq_refl).
  - exists (IP local). split; [right; left; reflexivity | vm_compute; reflexivity].
  - intros i [<- | []] a [<- | []]. vm_compute. reflexivity.
Defined.

(** X13 on port 5000 of every interface: the handles 8 and 7. *)
Lemma Listen_captures_what_it_opens_witness :
  Listen "tcp" ":5000" = (inl listening, listening_log) /\
  reachable listening /\
  handles (conn listening) = openable [lo0; eth0] /\
  opened listening_log = [8; 7] /\
  captured listening_log = [8; 7] /\
  filtered listening_log = [(8, "tcp and dst port 5000"); (7, "tcp and dst port 5000")].
Proof.
  destruct (Listen_captures_what_it_opens "tcp" ":5000" listening listening_log Listen_5000)
    as (laddr & ifaces & l & l_addr & pre & Hres & Hdevs & _ & _ & Hr & _ & _ & _ & _ & _
        & Ho & Hc & _ & Hw).
  injection Hres as <-. injection Hdevs as <-.
  split_and!; [exact Listen_5000 | exact Hr | exact (proj1 Hw) | exact Ho | exact Hc
              | exact (proj2 Hw)].
Defined.

(** X14 on port 6000, which cannot be bound: the two handles stay
    open. *)
Lemma Listen_failure_keeps_handles_witness :
  let log := [SuOpenLive "lo0" 8; SuSetBPFFilter 8 "tcp and dst port 6000";
              SuOpenLive "eth0" 7; SuSetBPFFilter 7 "tcp and dst port 6000"] in
  Listen "tcp" ":6000" = (inr (from_library (errLibrary "address already in use")), log) /\
  captured log = [] /\
  opened log = [8; 7].
Proof.
  cbv zeta.
  assert (HL : Listen "tcp" ":6000" =
               (inr (from_library (errLibrary "address already in use")),
                [SuOpenLive "lo0" 8; SuSetBPFFilter 8 "tcp and dst port 6000";
                 SuOpenLive "eth0" 7; SuSetBPFFilter 7 "tcp and dst port 6000"]))
    by (vm_compute; reflexivity).
  destruct (Listen_failure_keeps_handles "tcp" ":6000" _ _ HL) as (Hc & _ & _ & Hk).
  assert (Hres : net_ResolveTCPAddr "tcp" ":6000" = inl (mkTCPAddr [] 6000))
    by (vm_compute; reflexivity).
  assert (Hdevs : pcap_FindAllDevs = inl [lo0; eth0]) by reflexivity.
  assert (Hh : listen_handles [lo0; eth0] (mkTCPAddr [] 6000) =
               (inl [8; 7],
                [SuOpenLive "lo0" 8; SuSetBPFFilter 8 "tcp and dst port 6000";
                 SuOpenLive "eth0" 7; SuSetBPFFilter 7 "tcp and dst port 6000"]))
    by (vm_compute; reflexivity).
  destruct (Hk _ _ _ _ Hres Hdevs Hh) as (_ & Ho & _).
  split_and!; [exact HL | exact Hc | exact Ho].
Defined.

(** X15 on an address no interface has. *)
Lemma Listen_no_interface_witness :
  net_ResolveTCPAddr "tcp" "10.0.0.9:5000" = inl (mkTCPAddr [x0a; x00; x00; x09] 5000) /\
  pcap_FindAllDevs = inl [lo0; eth0] /\
  Listen "tcp" "10.0.0.9:5000" = (inr (errors_New "cannot find correct interface"), []).
Proof.
  assert (Hres : net_ResolveTCPAddr "tcp" "10.0.0.9:5000"
                 = inl (mkTCPAddr [x0a; x00; x00; x09] 5000)) by (vm_compute; reflexivity).
  assert (Hdevs : pcap_FindAllDevs = inl [lo0; eth0]) by reflexivity.
  split_and!; [exact Hres | exact Hdevs |].
  apply (proj2 (Listen_no_interface "tcp" "10.0.0.9:5000"
                  (mkTCPAddr [x0a; x00; x00; x09] 5000) [lo0; eth0] Hres Hdevs)).
  - reflexivity.
  - intros i [<- | [<- | []]] a [<- | []]; vm_compute; reflexivity.
Defined.

(** X16 on [listening]: [Close] closes the handles 8 and 7 and the
    listener, and sets no TTL. *)
Lemma Listen_then_Close_witness :
  Listen "tcp" ":5000" = (inl listening, listening_log) /\
  trace (snd (Close listening)) =
    [EvCloseChan 0; EvHandleClose 8; EvHandleClose 7; EvSocketClose].
Proof.
  split; [exact Listen_5000|].
  exact (proj1 (Listen_then_Close "tcp" ":5000" listening listening_log Listen_5000)).
Defined.

(** X17 on [peer]: [Dial] gives [dialed], on the handle of [eth0]. *)
Lemma Dial_connects_witness :
  Dial "tcp" "10.0.0.2:4000" = (inl dialed, dialed_log) /\
  reachable dialed /\
  ~ scratch_open dialed_log /\
  exists ifaces dummy, pcap_OpenLive (find_iface ifaces (IP dummy)) = inl 7.
Proof.
  destruct (Dial_connects "tcp" "10.0.0.2:4000" dialed dialed_log Dial_peer)
    as (raddr & dummy & ifaces & handle & laddr & tcpconn & tcpconn_addr & _ & _ & _ & _
        & Hop & _ & _ & _ & Hw & Hr & _ & Hs).
  injection Hw as _ _ _ <-.
  split_and!; [exact Dial_peer | exact Hr | exact Hs | exists ifaces, dummy; exact Hop].
Defined.

(** X18 on [dialed]: the TTL is set to 0 by [Dial] and back to 64 by
    [Close]. *)
Lemma Dial_then_Close_witness :
  Dial "tcp" "10.0.0.2:4000" = (inl dialed, dialed_log) /\
  In (SuSetTTL 0) dialed_log /\
  trace (snd (Close dialed)) =
    [EvCloseChan 0; EvHandleClose 7; EvSetTTL 64; EvSocketClose].
Proof.
  pose proof (Dial_then_Close "tcp" "10.0.0.2:4000" dialed dialed_log Dial_peer) as H.
  cbv zeta in H. destruct H as (Hin & Htr & _).
  split_and!; [exact Dial_peer | exact Hin | exact Htr].
Defined.

(** X19 on an address that is routed through no interface: [Dial] fails
    with its own error and leaves the scratch socket open. *)
Lemma Dial_failure_keeps_resources_witness :
  let log := [SuDialUDP (mkTCPAddr [x0a; x00; x00; x08] 5000)] in
  Dial "tcp" "10.0.0.9:5000" = (inr (errors_New "cannot find correct interface"), log) /\
  captured log = [] /\
  scratch_open log /\
  opened log = [].
Proof.
  cbv zeta.
  assert (HD : Dial "tcp" "10.0.0.9:5000" =
               (inr (errors_New "cannot find correct interface"),
                [SuDialUDP (mkTCPAddr [x0a; x00; x00; x08] 5000)]))
    by (vm_compute; reflexivity).
  destruct (Dial_failure_keeps_resources "tcp" "10.0.0.9:5000" _ _ HD)
    as (Hc & _ & _ & _ & Hown).
  destruct (Hown _ eq_refl) as (Hs & Ho).
  split_and!; [exact HD | exact Hc | exact Hs | exact Ho].
Defined.


(** ** Peers that cannot be written to *)

(** X20 on [two_peers]: the resolver does not know [other]. *)
Lemma WriteTo_resolve_failure_witness :
  flows (conn two_peers) !! TCPAddr_String other = Some other_flow /\
  is_closed (ready other_flow) two_peers = true /\
  is_closed (die (conn two_peers)) two_peers = false /\
  WriteTo [x70] other CaseReady None two_peers =
    (Returns (0%Z, Some (errLibrary "no such host")), two_peers).
Proof.
  assert (Hk : flows (conn two_peers) !! TCPAddr_String other = Some other_flow)
    by (vm_compute; reflexivity).
  assert (Hr : is_closed (ready other_flow) two_peers = true) by (vm_compute; reflexivity).
  assert (Hd : is_closed (die (conn two_peers)) two_peers = false)
    by (vm_compute; reflexivity).
  assert (Hres : ResolveTCPAddr (TCPAddr_String other) = inr (errLibrary "no such host"))
    by (vm_compute; reflexivity).
  split_and!; [exact Hk | exact Hr | exact Hd |].
  exact (WriteTo_resolve_failure [x70] other CaseReady None two_peers other_flow _
           Hk Hr Hd Hres).
Defined.

(** X21 on [established]: after the bare FIN of [peer], a [WriteTo] to
    [peer] blocks. *)
Lemma WriteTo_after_fin_blocks_witness :
  reachable established /\
  is_closed (die (conn established)) established = false /\
  flows (conn (fst (capture_packet 7 fin established))) !! TCPAddr_String peer = None /\
  fst (WriteTo [x70] peer CaseReady None (fst (capture_packet 7 fin established))) = Blocks.
Proof.
  pose proof (WriteTo_after_fin_blocks 7 fin [x70] peer CaseReady None established) as H.
  cbv zeta in H.
  destruct (H established_reachable established_open eq_refl eq_refl eq_refl eq_refl)
    as (_ & Hfl & Hb & _).
  split_and!; [exact established_reachable | exact established_open | | exact Hb].
  rewrite Hfl. apply lookup_delete_eq.
Defined.
